(** * SkyLens: skyline computation, serial and WebGPU backends, and ColorMapND

    A shallow embedding of [services/skylineService.ts] (the serial
    backend [computeSkylineCPU], the dominance predicate [dominates] and
    the colour mapper [computeColorMapND]) and of the WebGPU service
    (the WGSL kernel [main], the module-level singletons, [getGPUState],
    [ensureBuffer] and [computeSkylineWebGPU]).

    - Numbers are IEEE-754 values: a JavaScript number is a binary64
      [spec_float], a kernel [f32] is a binary32 [spec_float]; both are
      compared with [SFltb], and a store into a [Float32Array] rounds
      with [binary_round 24 128].
    - Kernel integers are [u32], written as [Z] with the wrap-around
      spelled out.
    - A [Record<string, number>] is the [gmap string Z] of the own
      properties of a plain object, and a [Set<string>] a [gset string].
      An id is any string, so it can be [__proto__]: an assignment of a
      number under that name stores nothing, and a read of a name that
      is not an own property finds what [Object.prototype] has under it.
    - The WebGPU service is a state-and-exception monad over the
      module-level variables.  What the platform answers during a call
      (are the enums defined, does the adapter exist, does [mapAsync]
      resolve, what does the clock read) is an explicit [Env]; a trace
      records the device operations in the order they are issued.  One
      call runs at a time, as the service requires of its caller, so an
      awaited promise is the value it settles to.

    It also embeds the callers of the two backends: the application
    shell [App.tsx] ([filteredData], the selection and attribute
    toggles and the two attribute lists) with the
    filter panel's [addFilter] and [removeFilter], the comparison view's
    [checkDomination] and [domSets], and the table view's
    [skylinePoints], search and [getDecisiveSubspaces].  A React state
    update is the function it passes to the setter; what a search
    matches ([toLowerCase], [includes]) is a parameter. *)

From Stdlib Require Import ZArith Lia Floats.SpecFloat.
From stdpp Require Import gmap strings list fin_maps.

(* ===================================================================== *)
(** ** JavaScript numbers                                                 *)
(* ===================================================================== *)

Module Js.

(** A JavaScript number (binary64). *)
Definition number := spec_float.

Definition zero : number := S754_zero false.
Definition NaN : number := S754_nan.

(** Integer literals of the source ([0], [1], [30], [60], [360], ...). *)
Definition of_Z (z : Z) : number := binary_normalize 53 1024 z 0 false.

(** [a < b] and [a > b] on numbers; a comparison with NaN is false. *)
Definition lt (a b : number) : bool := SFltb a b.
Definition gt (a b : number) : bool := SFltb b a.
(** [a === b] on numbers. *)
Definition eq (a b : number) : bool := SFeqb a b.

(** ToBoolean on a number: [+0], [-0] and NaN are falsy. *)
Definition truthy (v : number) : bool :=
  match v with
  | S754_zero _ | S754_nan => false
  | _ => true
  end.

(** [(v as number) || 0] where [v] is a property read: a missing
    property reads [undefined], which is falsy. *)
Definition or_zero (v : option number) : number :=
  match v with
  | Some x => if truthy x then x else zero
  | None => zero
  end.

(** [Number(v)] of a property read: [Number(undefined)] is NaN. *)
Definition Number (v : option number) : number :=
  match v with
  | Some x => x
  | None => NaN
  end.

Definition isFinite (v : number) : bool :=
  match v with
  | S754_zero _ | S754_finite _ _ _ => true
  | _ => false
  end.

(** Storing a number into a [Float32Array] slot: round to nearest,
    ties to even, in binary32. *)
Definition fround (v : number) : spec_float :=
  match v with
  | S754_finite s m e => binary_round 24 128 s m e
  | _ => v
  end.

Definition add : number -> number -> number := SFadd 53 1024.
Definition sub : number -> number -> number := SFsub 53 1024.
Definition mul : number -> number -> number := SFmul 53 1024.
Definition div : number -> number -> number := SFdiv 53 1024.

(** [Math.max(a, b)]: NaN if either is NaN, and [+0] is larger than
    [-0]. *)
Definition max (a b : number) : number :=
  match a, b with
  | S754_nan, _ | _, S754_nan => S754_nan
  | S754_zero sa, S754_zero sb => S754_zero (sa && sb)
  | _, _ => if SFltb a b then b else a
  end.

End Js.

(* ===================================================================== *)
(** ** Data model ([types.ts])                                            *)
(* ===================================================================== *)

(** [DataPoint]: [id], [name] and the index signature.  The attribute
    columns are numeric (the cast [as number] of the services); a key
    that is absent reads [undefined]. *)
Record DataPoint := mkDataPoint {
  id : string;
  name : string;
  fields : gmap string Js.number
}.

Record AttributeConfig := mkAttr {
  key : string;
  label : string;
  min : Js.number;
  max : Js.number;
  weight : Js.number;
  color : string;
  angle : Js.number
}.

Inductive ComputeMode := CPU | WebGPU.

Record SkylineResult := mkResult {
  skylineIds : gset string;
  dominanceScores : gmap string Z;
  dominatedBy : gmap string Z;
  computationTime : Js.number;
  method : ComputeMode
}.

(** [point[attr.key]] *)
Definition prop (p : DataPoint) (k : string) : option Js.number := fields p !! k.

(* ===================================================================== *)
(** ** Counter objects ([Record<string, number>])                         *)
(* ===================================================================== *)

(** The counters of a result are plain objects that start as [{}].  The
    name [__proto__] is not an ordinary property name on them: a plain
    object inherits an accessor of that name from [Object.prototype]. *)
Definition PROTO : string := "__proto__".

(** The names a plain object inherits from [Object.prototype]. *)
Definition OBJECT_PROTOTYPE_NAMES : list string :=
  [ "__proto__"; "constructor"; "hasOwnProperty"; "isPrototypeOf";
    "propertyIsEnumerable"; "toLocaleString"; "toString"; "valueOf";
    "__defineGetter__"; "__defineSetter__"; "__lookupGetter__";
    "__lookupSetter__" ].

(** [o[k] = v] for a number [v].  Under [__proto__] the assignment runs
    the inherited setter, which ignores a value that is not an object,
    so nothing is stored; under any other name it creates or updates an
    own property. *)
Definition assign (k : string) (v : Z) (o : gmap string Z) : gmap string Z :=
  if decide (k = PROTO) then o else <[k := v]> o.

(** What a read [o[k]] yields: the number of the own property [k], or,
    without one, the member of [Object.prototype] of that name (an
    object or a function, never a number), or [undefined]. *)
Inductive Value := VNumber (n : Z) | VInherited | VUndefined.

Definition read (o : gmap string Z) (k : string) : Value :=
  match o !! k with
  | Some n => VNumber n
  | None => if decide (k ∈ OBJECT_PROTOTYPE_NAMES) then VInherited else VUndefined
  end.

(* ===================================================================== *)
(** ** Serial backend ([skylineService.ts])                               *)
(* ===================================================================== *)

(** The [for (const attr of attributes)] loop of [dominates], carrying
    [betterInAtLeastOne]; [return false] leaves the loop early. *)
Fixpoint dominates_loop (a b : DataPoint) (attributes : list AttributeConfig)
    (betterInAtLeastOne : bool) : bool :=
  match attributes with
  | [] => betterInAtLeastOne
  | attr :: rest =>
      let valA := Js.or_zero (prop a (key attr)) in
      let valB := Js.or_zero (prop b (key attr)) in
      if Js.lt valA valB then false
      else dominates_loop a b rest
             (if Js.gt valA valB then true else betterInAtLeastOne)
  end.

Definition dominates (a b : DataPoint) (attributes : list AttributeConfig) : bool :=
  dominates_loop a b attributes false.

(** [m[k]++] on a counter object whose keys were initialised by
    [init_counters].  Under [__proto__] there is no own property: the
    read yields [Object.prototype], the incremented value is NaN, and
    its assignment is ignored like any other under that name. *)
Definition incr (k : string) (m : gmap string Z) : gmap string Z :=
  if decide (k = PROTO) then m else alter Z.succ k m.

(** [data.forEach(p => { dominanceScores[p.id] = 0; dominatedBy[p.id] = 0 })] *)
Definition init_counters (data : list DataPoint)
  : gmap string Z * gmap string Z :=
  fold_left (fun '(sc, dby) p => (assign (id p) 0%Z sc, assign (id p) 0%Z dby))
            data (∅, ∅).

(** Body of the inner [for j] loop for the record [a = data[i]]; the
    state is [(isADominated, dominanceScores, dominatedBy)]. *)
Definition cpu_inner_step (data : list DataPoint) (attributes : list AttributeConfig)
    (i : nat) (a : DataPoint)
    (st : bool * gmap string Z * gmap string Z) (j : nat)
  : bool * gmap string Z * gmap string Z :=
  if Nat.eqb i j then st
  else
    match data !! j with
    | None => st
    | Some b =>
        let '(isADominated, sc, dby) := st in
        let '(isADominated, dby) :=
          if dominates b a attributes
          then (true, incr (id a) dby) else (isADominated, dby) in
        let sc := if dominates a b attributes then incr (id a) sc else sc in
        (isADominated, sc, dby)
    end.

(** Body of the outer [for i] loop; the state is
    [(skylineIds, dominanceScores, dominatedBy)]. *)
Definition cpu_outer_step (data : list DataPoint) (attributes : list AttributeConfig)
    (st : gset string * gmap string Z * gmap string Z) (i : nat)
  : gset string * gmap string Z * gmap string Z :=
  match data !! i with
  | None => st
  | Some a =>
      let '(sky, sc, dby) := st in
      let '(isADominated, sc, dby) :=
        fold_left (cpu_inner_step data attributes i a)
                  (seq 0 (length data)) (false, sc, dby) in
      (if isADominated then sky else {[id a]} ∪ sky, sc, dby)
  end.

(** [computeSkylineCPU]; [now k] is the [k]-th reading of
    [performance.now()] during the call. *)
Definition computeSkylineCPU (now : nat -> Js.number)
    (data : list DataPoint) (attributes : list AttributeConfig) : SkylineResult :=
  if Nat.eqb (length data) 0
  then mkResult ∅ ∅ ∅ (Js.of_Z 0) CPU
  else
    let start := now 0%nat in
    let '(sc0, dby0) := init_counters data in
    let '(sky, sc, dby) :=
      fold_left (cpu_outer_step data attributes)
                (seq 0 (length data)) (∅, sc0, dby0) in
    let end_ := now 1%nat in
    mkResult sky sc dby (Js.sub end_ start) CPU.

(* ===================================================================== *)
(** ** The WGSL kernel ([SHADER_CODE])                                    *)
(* ===================================================================== *)

(** [u32] arithmetic wraps modulo [2^32]. *)
Definition u32 (z : Z) : Z := (z mod 2 ^ 32)%Z.

Module Wgsl.

(** [struct Params { dimensions: u32, count: u32 }] *)
Record Params := mkParams { dimensions : Z; count : Z }.

(** [data[idx]] on [array<f32>]; an index past the end (which the
    kernel never produces on a well-sized buffer) reads [0.0]. *)
Definition load (data : list spec_float) (idx : Z) : spec_float :=
  default (S754_zero false) (data !! Z.to_nat idx).

(** The four flags of one [(i, j)] comparison. *)
Record Flags := mkFlags {
  i_be_j : bool;  (* i >= j for all dims so far *)
  i_s_j : bool;   (* i > j for some dim *)
  j_be_i : bool;  (* j >= i for all dims so far *)
  j_s_i : bool    (* j > i for some dim *)
}.

Definition flags0 : Flags := mkFlags true false true false.

(** [for (var d = 0u; d < params.dimensions; d = d + 1u)] with its
    [break]; [ds] is the list of the remaining values of [d]. *)
Fixpoint dim_loop (data : list spec_float) (i_off j_off : Z)
    (ds : list nat) (f : Flags) : Flags :=
  match ds with
  | [] => f
  | d :: rest =>
      let v_i := load data (u32 (i_off + Z.of_nat d)) in
      let v_j := load data (u32 (j_off + Z.of_nat d)) in
      let f := if SFltb v_i v_j
               then mkFlags false (i_s_j f) (j_be_i f) true else f in
      let f := if SFltb v_j v_i
               then mkFlags (i_be_j f) true false (j_s_i f) else f in
      if negb (i_be_j f) && negb (j_be_i f) then f
      else dim_loop data i_off j_off rest f
  end.

(** Body of [for (var j = 0u; j < params.count; j = j + 1u)] for the
    work-item [i]; the state is [(d_by, d_score)]. *)
Definition pair_step (data : list spec_float) (params : Params) (i : nat)
    (st : Z * Z) (j : nat) : Z * Z :=
  if Nat.eqb i j then st
  else
    let i_off := u32 (Z.of_nat i * dimensions params) in
    let j_off := u32 (Z.of_nat j * dimensions params) in
    let f := dim_loop data i_off j_off
               (seq 0 (Z.to_nat (dimensions params))) flags0 in
    let '(d_by, d_score) := st in
    let d_score := if i_be_j f && i_s_j f then u32 (d_score + 1) else d_score in
    let d_by := if j_be_i f && j_s_i f then u32 (d_by + 1) else d_by in
    (d_by, d_score).

(** The two counters work-item [i] ends with. *)
Definition counters (data : list spec_float) (params : Params) (i : nat) : Z * Z :=
  fold_left (pair_step data params i) (seq 0 (Z.to_nat (count params))) (0%Z, 0%Z).

(** [fn main]: one invocation, [global_id.x = gid].  [results] is the
    storage buffer as [u32] words: [results[i].dominatedBy] is word
    [2 i] and [results[i].dominatingScore] word [2 i + 1]. *)
Definition main (data : list spec_float) (params : Params)
    (results : list Z) (gid : nat) : list Z :=
  if (count params <=? Z.of_nat gid)%Z then results
  else
    let '(d_by, d_score) := counters data params gid in
    <[(2 * gid + 1)%nat := d_score]> (<[(2 * gid)%nat := d_by]> results).

(** [dispatchWorkgroups(groups)] with [@workgroup_size(64)]: every
    invocation of every group runs [main]; an invocation writes its
    own two words only. *)
Definition dispatch (data : list spec_float) (params : Params)
    (groups : nat) (results : list Z) : list Z :=
  fold_left (main data params) (seq 0 (64 * groups)) results.

End Wgsl.

(* ===================================================================== *)
(** ** The WebGPU service: module state and device                        *)
(* ===================================================================== *)

Inductive Error :=
  | EnumsUnavailable       (* "WebGPU enums not available (...)" *)
  | WebGPUUnavailable      (* "WebGPU unavailable" *)
  | AdapterRequestFailed   (* "Failed to request WebGPU adapter" *)
  | DeviceRequestRejected  (* adapter.requestDevice() rejected *)
  | MapAsyncRejected.      (* readbackBuf.mapAsync() rejected *)

Inductive Usage := STORAGE | COPY_DST | COPY_SRC | UNIFORM | MAP_READ.

(** [type GPUState = { device, queue, pipeline, bindGroupLayout }]: the
    queue, the pipeline and its layout all belong to [device]. *)
Record GPUState := mkGPUState { device : nat }.

(** A device buffer: its size in bytes and its contents as 32-bit words. *)
Record Buffer (W : Type) := mkBuffer {
  buf_size : Z;
  buf_usage : list Usage;
  buf_words : list W
}.
Arguments mkBuffer {W}.
Arguments buf_size {W}.
Arguments buf_usage {W}.
Arguments buf_words {W}.

(** Device operations, recorded in the order they are issued. *)
Inductive Event :=
  | EvAcquire
  | EvCreateBuffer (size : Z) (usage : list Usage)
  | EvDestroy (size : Z)
  | EvWriteBuffer (words : nat)
  | EvDispatch (groups : nat)
  | EvCopy (bytes : Z)
  | EvSubmit
  | EvMapAsync (ok : bool)
  | EvUnmap.

(** The module-level singletons, and the trace of device operations. *)
Record World := mkWorld {
  gpuStatePromise : option (Error + GPUState);
  dataBuf : option (Buffer spec_float);
  dataBufBytes : Z;
  resultBuf : option (Buffer Z);
  resultBufBytes : Z;
  uniformBuf : option (Buffer Z);
  uniformBufBytes : Z;
  readbackBuf : option (Buffer Z);
  readbackBufBytes : Z;
  trace : list Event
}.

(** The module as loaded. *)
Definition world0 : World :=
  mkWorld None None 0 None 0 None 0 None 0 [].

(** What the platform answers during one call. *)
Record Env := mkEnv {
  env_enums : bool;          (* GPUBufferUsage and GPUMapMode are defined *)
  env_navGpu : bool;         (* navigator.gpu is defined *)
  env_adapter : bool;        (* requestAdapter() resolves to an adapter *)
  env_device : option nat;   (* requestDevice() resolves to this device *)
  env_mapAsync : nat -> bool; (* does the k-th mapAsync of the call resolve *)
  env_now : nat -> Js.number  (* the k-th reading of performance.now() *)
}.

(** Computations over the module state that may throw. *)
Definition M (A : Type) : Type := World -> (Error + A) * World.

Definition ret {A} (a : A) : M A := fun w => (inr a, w).
Definition throw {A} (e : Error) : M A := fun w => (inl e, w).
Definition bind {A B} (m : M A) (k : A -> M B) : M B :=
  fun w => match m w with
           | (inr a, w') => k a w'
           | (inl e, w') => (inl e, w')
           end.
(** [try { m } catch (e) { h e }] *)
Definition try_catch {A} (m : M A) (h : Error -> M A) : M A :=
  fun w => match m w with
           | (inr a, w') => (inr a, w')
           | (inl e, w') => h e w'
           end.

Notation "x <-- m ; k" := (bind m (fun x => k))
  (at level 100, m at next level, right associativity).
Notation "m >>; k" := (bind m (fun _ => k))
  (at level 100, right associativity).

(** Assignments to the module-level variables. *)
Definition with_gpuStatePromise (p : option (Error + GPUState)) (w : World) : World :=
  mkWorld p (dataBuf w) (dataBufBytes w) (resultBuf w) (resultBufBytes w)
          (uniformBuf w) (uniformBufBytes w) (readbackBuf w) (readbackBufBytes w)
          (trace w).
Definition with_dataBuf (b : option (Buffer spec_float)) (w : World) : World :=
  mkWorld (gpuStatePromise w) b (dataBufBytes w) (resultBuf w) (resultBufBytes w)
          (uniformBuf w) (uniformBufBytes w) (readbackBuf w) (readbackBufBytes w)
          (trace w).
Definition with_dataBufBytes (n : Z) (w : World) : World :=
  mkWorld (gpuStatePromise w) (dataBuf w) n (resultBuf w) (resultBufBytes w)
          (uniformBuf w) (uniformBufBytes w) (readbackBuf w) (readbackBufBytes w)
          (trace w).
Definition with_resultBuf (b : option (Buffer Z)) (w : World) : World :=
  mkWorld (gpuStatePromise w) (dataBuf w) (dataBufBytes w) b (resultBufBytes w)
          (uniformBuf w) (uniformBufBytes w) (readbackBuf w) (readbackBufBytes w)
          (trace w).
Definition with_resultBufBytes (n : Z) (w : World) : World :=
  mkWorld (gpuStatePromise w) (dataBuf w) (dataBufBytes w) (resultBuf w) n
          (uniformBuf w) (uniformBufBytes w) (readbackBuf w) (readbackBufBytes w)
          (trace w).
Definition with_uniformBuf (b : option (Buffer Z)) (w : World) : World :=
  mkWorld (gpuStatePromise w) (dataBuf w) (dataBufBytes w) (resultBuf w)
          (resultBufBytes w) b (uniformBufBytes w) (readbackBuf w)
          (readbackBufBytes w) (trace w).
Definition with_uniformBufBytes (n : Z) (w : World) : World :=
  mkWorld (gpuStatePromise w) (dataBuf w) (dataBufBytes w) (resultBuf w)
          (resultBufBytes w) (uniformBuf w) n (readbackBuf w)
          (readbackBufBytes w) (trace w).
Definition with_readbackBuf (b : option (Buffer Z)) (w : World) : World :=
  mkWorld (gpuStatePromise w) (dataBuf w) (dataBufBytes w) (resultBuf w)
          (resultBufBytes w) (uniformBuf w) (uniformBufBytes w) b
          (readbackBufBytes w) (trace w).
Definition with_readbackBufBytes (n : Z) (w : World) : World :=
  mkWorld (gpuStatePromise w) (dataBuf w) (dataBufBytes w) (resultBuf w)
          (resultBufBytes w) (uniformBuf w) (uniformBufBytes w) (readbackBuf w)
          n (trace w).
Definition with_trace (t : list Event) (w : World) : World :=
  mkWorld (gpuStatePromise w) (dataBuf w) (dataBufBytes w) (resultBuf w)
          (resultBufBytes w) (uniformBuf w) (uniformBufBytes w) (readbackBuf w)
          (readbackBufBytes w) t.

Definition get {A} (f : World -> A) : M A := fun w => (inr (f w), w).
Definition modify (f : World -> World) : M unit := fun w => (inr tt, f w).

(** Record a device operation. *)
Definition emit (e : Event) : M unit :=
  modify (fun w => with_trace (trace w ++ [e]) w).

(** [getWebGPUEnums] *)
Definition getWebGPUEnums (env : Env) : M unit :=
  if env_enums env then ret tt else throw EnumsUnavailable.

(** The body of the async function that [getGPUState] starts: what its
    promise settles to. *)
Definition acquire (env : Env) : Error + GPUState :=
  if negb (env_navGpu env) then inl WebGPUUnavailable
  else if negb (env_adapter env) then inl AdapterRequestFailed
  else match env_device env with
       | None => inl DeviceRequestRejected
       | Some d => inr (mkGPUState d)
       end.

(** [getGPUState], awaited: the promise is stored in [gpuStatePromise]
    as soon as it is created, whatever it settles to. *)
Definition getGPUState (env : Env) : M GPUState :=
  fun w =>
    match gpuStatePromise w with
    | Some p => (p, w)
    | None =>
        let p := acquire env in
        (p, with_gpuStatePromise (Some p) (with_trace (trace w ++ [EvAcquire]) w))
    end.

(** [device.createBuffer({ size, usage })]: zero-initialised. *)
Definition createBuffer {W} (zero : W) (size : Z) (usage : list Usage) : Buffer W :=
  mkBuffer size usage (replicate (Z.to_nat (size / 4)) zero).

(** [ensureBuffer] *)
Definition ensureBuffer {W} (zero : W) (buf : option (Buffer W))
    (currentBytes neededBytes : Z) (usage : list Usage) : M (Buffer W * Z) :=
  match buf with
  | Some b =>
      if (neededBytes <=? currentBytes)%Z then ret (b, currentBytes)
      else
        emit (EvDestroy (buf_size b)) >>;
        emit (EvCreateBuffer neededBytes usage) >>;
        ret (createBuffer zero neededBytes usage, neededBytes)
  | None =>
      emit (EvCreateBuffer neededBytes usage) >>;
      ret (createBuffer zero neededBytes usage, neededBytes)
  end.

(* ===================================================================== *)
(** ** The parallel backend ([computeSkylineWebGPU])                      *)
(* ===================================================================== *)

(** One cell of the upload: [Number(row[attrs[d].key])], sanitised with
    [Number.isFinite], then stored into the [Float32Array]. *)
Definition gpu_cell (row : DataPoint) (attr : AttributeConfig) : spec_float :=
  let v := Js.Number (prop row (key attr)) in
  Js.fround (if Js.isFinite v then v else Js.zero).

(** The inner [for d] loop of the flattening, for row [i]. *)
Definition marshal_row (attrs : list AttributeConfig) (dims i : nat)
    (row : DataPoint) (flat : list spec_float) : list spec_float :=
  let base := (i * dims)%nat in
  fold_left (fun fl d =>
               match attrs !! d with
               | Some attr => <[(base + d)%nat := gpu_cell row attr]> fl
               | None => fl
               end)
            (seq 0 dims) flat.

(** [flat]: a zero-filled [Float32Array(count * dims)], filled row by row. *)
Definition marshal (data : list DataPoint) (attrs : list AttributeConfig)
  : list spec_float :=
  let count := length data in
  let dims := length attrs in
  fold_left (fun fl i =>
               match data !! i with
               | Some row => marshal_row attrs dims i row fl
               | None => fl
               end)
            (seq 0 count) (replicate (count * dims) Js.zero).

(** [queue.writeBuffer(buf, 0, src)]: [src] replaces the first words of
    the buffer ([ensureBuffer] made it large enough). *)
Definition writeWords {W} (src : list W) (b : Buffer W) : Buffer W :=
  mkBuffer (buf_size b) (buf_usage b) (src ++ drop (length src) (buf_words b)).

Definition writeBuffer_data (flat : list spec_float) : M unit :=
  emit (EvWriteBuffer (length flat)) >>;
  modify (fun w => with_dataBuf (writeWords flat <$> dataBuf w) w).

Definition writeBuffer_uniform (src : list Z) : M unit :=
  emit (EvWriteBuffer (length src)) >>;
  modify (fun w => with_uniformBuf (writeWords src <$> uniformBuf w) w).

(** The uniform block as the kernel reads it. *)
Definition params_of (uniform : list Z) : Wgsl.Params :=
  Wgsl.mkParams (default 0%Z (uniform !! 0%nat)) (default 0%Z (uniform !! 1%nat)).

(** The compute pass: bind the data, result and uniform buffers and run
    [groups] workgroups of the pipeline. *)
Definition run_pass (groups : nat) (w : World) : World :=
  match dataBuf w, resultBuf w, uniformBuf w with
  | Some d, Some r, Some u =>
      let out := Wgsl.dispatch (buf_words d) (params_of (buf_words u)) groups
                               (buf_words r) in
      with_resultBuf (Some (mkBuffer (buf_size r) (buf_usage r) out)) w
  | _, _, _ => w
  end.

(** [encoder.copyBufferToBuffer(resultBuf, 0, readbackBuf, 0, bytes)] *)
Definition run_copy (bytes : Z) (w : World) : World :=
  match resultBuf w, readbackBuf w with
  | Some r, Some rb =>
      let n := Z.to_nat (bytes / 4) in
      with_readbackBuf
        (Some (mkBuffer (buf_size rb) (buf_usage rb)
                        (take n (buf_words r) ++ drop n (buf_words rb)))) w
  | _, _ => w
  end.

(** Encode, submit and wait for [queue.onSubmittedWorkDone()]. *)
Definition submit (groups : nat) (copyBytes : Z) : M unit :=
  emit (EvDispatch groups) >>;
  emit (EvCopy copyBytes) >>;
  emit EvSubmit >>;
  modify (run_pass groups) >>;
  modify (run_copy copyBytes).

(** [await readbackBuf.mapAsync(READ)], the [k]-th of this call. *)
Definition mapAsync (env : Env) (k : nat) : M unit :=
  emit (EvMapAsync (env_mapAsync env k)) >>;
  if env_mapAsync env k then ret tt else throw MapAsyncRejected.

Definition unmap : M unit := emit EvUnmap.

(** The [try { mapAsync } catch { try { unmap; mapAsync } catch (e2) { throw e2 } }]
    block. *)
Definition mapReadback (env : Env) : M unit :=
  try_catch (mapAsync env 0)
    (fun _ => try_catch (unmap >>; mapAsync env 1) (fun e2 => throw e2)).

(** [new Uint32Array(readbackBuf.getMappedRange())] *)
Definition mappedWords : M (list Z) :=
  get (fun w => match readbackBuf w with
                | Some rb => buf_words rb
                | None => []
                end).

(** Body of the decoding loop; the state is
    [(skylineIds, dominanceScores, dominatedBy)]. *)
Definition decode_step (data : list DataPoint) (res : list Z)
    (st : gset string * gmap string Z * gmap string Z) (i : nat)
  : gset string * gmap string Z * gmap string Z :=
  match data !! i with
  | None => st
  | Some p =>
      let dBy := default 0%Z (res !! (i * 2)%nat) in
      let dScore := default 0%Z (res !! (i * 2 + 1)%nat) in
      let '(sky, sc, dby) := st in
      let dby := assign (id p) dBy dby in
      let sc := assign (id p) dScore sc in
      (if (dBy =? 0)%Z then {[id p]} ∪ sky else sky, sc, dby)
  end.

(** The four [ensureBuffer] blocks: each installs the returned buffer
    and its size in the slot's two module variables. *)
Definition ensureBuffers (needDataBytes needResultBytes needUniformBytes
    needReadbackBytes : Z) : M unit :=
  b <-- get dataBuf; n <-- get dataBufBytes;
  r <-- ensureBuffer Js.zero b n needDataBytes [STORAGE; COPY_DST];
  modify (with_dataBuf (Some (fst r))) >>; modify (with_dataBufBytes (snd r)) >>;
  b <-- get resultBuf; n <-- get resultBufBytes;
  r <-- ensureBuffer 0%Z b n needResultBytes [STORAGE; COPY_SRC];
  modify (with_resultBuf (Some (fst r))) >>; modify (with_resultBufBytes (snd r)) >>;
  b <-- get uniformBuf; n <-- get uniformBufBytes;
  r <-- ensureBuffer 0%Z b n needUniformBytes [UNIFORM; COPY_DST];
  modify (with_uniformBuf (Some (fst r))) >>; modify (with_uniformBufBytes (snd r)) >>;
  b <-- get readbackBuf; n <-- get readbackBufBytes;
  r <-- ensureBuffer 0%Z b n needReadbackBytes [COPY_DST; MAP_READ];
  modify (with_readbackBuf (Some (fst r))) >>; modify (with_readbackBufBytes (snd r)).

(** The decoding loop over the mapped words. *)
Definition decode (data : list DataPoint) (res : list Z)
  : gset string * gmap string Z * gmap string Z :=
  fold_left (decode_step data res) (seq 0 (length data)) (∅, ∅, ∅).

Definition computeSkylineWebGPU (env : Env)
    (data : list DataPoint) (attrs : list AttributeConfig) : M SkylineResult :=
  let start := env_now env 0%nat in
  if Nat.eqb (length data) 0 || Nat.eqb (length attrs) 0
  then ret (mkResult ∅ ∅ ∅ (Js.sub (env_now env 1%nat) start) WebGPU)
  else
    getWebGPUEnums env >>;
    _ <-- getGPUState env;
    let count := length data in
    let dims := length attrs in
    let flat := marshal data attrs in
    let needDataBytes := (4 * Z.of_nat (length flat))%Z in
    let needResultBytes := (Z.of_nat count * 8)%Z in
    let needUniformBytes := 8%Z in
    let needReadbackBytes := (Z.of_nat count * 8)%Z in
    ensureBuffers needDataBytes needResultBytes needUniformBytes
                  needReadbackBytes >>;
    writeBuffer_data flat >>;
    writeBuffer_uniform [u32 (Z.of_nat dims); u32 (Z.of_nat count)] >>;
    submit (Z.to_nat ((Z.of_nat count + 63) / 64)) needReadbackBytes >>;
    mapReadback env >>;
    res <-- mappedWords;
    let '(sky, sc, dby) := decode data res in
    unmap >>;
    ret (mkResult sky sc dby (Js.sub (env_now env 1%nat) start) WebGPU).

(* ===================================================================== *)
(** ** ColorMapND ([computeColorMapND])                                   *)
(* ===================================================================== *)

(** [Math.PI] *)
Definition PI : Js.number := S754_finite false 7074237752028440 (-51).

(** The literal [0.01]. *)
Definition lit_0_01 : Js.number := S754_finite false 5764607523034235 (-59).

(** The constant returned for an empty attribute list. *)
Definition NO_ATTRIBUTES_COLOR : string := "#475569".

Section ColorMapND.

(** The platform and d3 functions the colour mapper calls: [Math.cos],
    [Math.sin], [Math.sqrt], [Math.atan2], the remainder [%] and
    [d3.hcl(h, c, l).toString()]. *)
Variables (cos sin sqrt : Js.number -> Js.number)
          (atan2 fmod : Js.number -> Js.number -> Js.number)
          (hcl_toString : Js.number -> Js.number -> Js.number -> string).

(** [norm] of one attribute. *)
Definition norm_of (point : DataPoint) (attr : AttributeConfig) : Js.number :=
  let val := Js.or_zero (prop point (key attr)) in
  Js.div (Js.sub val (min attr))
         (Js.max (Js.of_Z 1) (Js.sub (max attr) (min attr))).

(** Body of [attributes.forEach]; the state is [(x, y, totalNorm)]. *)
Definition color_step (point : DataPoint)
    (st : Js.number * Js.number * Js.number) (attr : AttributeConfig)
  : Js.number * Js.number * Js.number :=
  let '(x, y, totalNorm) := st in
  let norm := norm_of point attr in
  (Js.add x (Js.mul (cos (angle attr)) norm),
   Js.add y (Js.mul (sin (angle attr)) norm),
   Js.add totalNorm norm).

Definition color_accumulate (point : DataPoint) (attributes : list AttributeConfig)
  : Js.number * Js.number * Js.number :=
  fold_left (color_step point) attributes (Js.of_Z 0, Js.of_Z 0, Js.of_Z 0).

(** [d3.hcl(0, 0, 30).toString()] *)
Definition low_magnitude_color : string :=
  hcl_toString (Js.of_Z 0) (Js.of_Z 0) (Js.of_Z 30).

Definition computeColorMapND (point : DataPoint) (attributes : list AttributeConfig)
  : string :=
  if Nat.eqb (length attributes) 0 then NO_ATTRIBUTES_COLOR
  else
    let '(x, y, totalNorm) := color_accumulate point attributes in
    if Js.lt totalNorm lit_0_01 then low_magnitude_color
    else
      let angle := atan2 y x in
      let hue :=
        fmod (Js.add (Js.div (Js.mul angle (Js.of_Z 180)) PI) (Js.of_Z 360))
             (Js.of_Z 360) in
      let strength :=
        Js.div (sqrt (Js.add (Js.mul x x) (Js.mul y y)))
               (sqrt (Js.of_Z (Z.of_nat (length attributes)))) in
      let chroma := Js.add (Js.of_Z 30) (Js.mul strength (Js.of_Z 60)) in
      let luminance := Js.of_Z 60 in
      hcl_toString hue chroma luminance.

End ColorMapND.

(* ===================================================================== *)
(** ** Definitions used to state and prove the properties                 *)
(* ===================================================================== *)

(** Identifiers are unique within one computation call. *)
Definition unique_ids (data : list DataPoint) : Prop := NoDup (id <$> data).

(** The value [dominates] compares for one attribute. *)
Definition cpu_val (p : DataPoint) (attr : AttributeConfig) : Js.number :=
  Js.or_zero (prop p (key attr)).

(** Two records are equal ([===]) on every active attribute, as
    [dominates] reads them. *)
Definition equal_on (a b : DataPoint) (attributes : list AttributeConfig) : bool :=
  forallb (λ attr, Js.eq (cpu_val a attr) (cpu_val b attr)) attributes.

(** Number of indices in [js] that satisfy [f]. *)
Fixpoint count_true (f : nat -> bool) (js : list nat) : Z :=
  match js with
  | [] => 0%Z
  | j :: rest => ((if f j then 1 else 0) + count_true f rest)%Z
  end.

(** Record [j] is another record and dominates [a = data[i]]. *)
Definition dominated_at (data : list DataPoint) (attributes : list AttributeConfig)
    (i : nat) (a : DataPoint) (j : nat) : bool :=
  negb (Nat.eqb i j) &&
  match data !! j with Some b => dominates b a attributes | None => false end.

(** Record [j] is another record and is dominated by [a = data[i]]. *)
Definition dominating_at (data : list DataPoint) (attributes : list AttributeConfig)
    (i : nat) (a : DataPoint) (j : nat) : bool :=
  negb (Nat.eqb i j) &&
  match data !! j with Some b => dominates a b attributes | None => false end.

(** How many other records dominate record [i]. *)
Definition row_dominatedBy (data : list DataPoint) (attributes : list AttributeConfig)
    (i : nat) : Z :=
  match data !! i with
  | Some a => count_true (dominated_at data attributes i a) (seq 0 (length data))
  | None => 0%Z
  end.

(** How many other records record [i] dominates. *)
Definition row_score (data : list DataPoint) (attributes : list AttributeConfig)
    (i : nat) : Z :=
  match data !! i with
  | Some a => count_true (dominating_at data attributes i a) (seq 0 (length data))
  | None => 0%Z
  end.

(** A counter object after [c] increments under the name [k]. *)
Definition add_to (c : Z) (k : string) (m : gmap string Z) : gmap string Z :=
  if decide (k = PROTO) then m else alter (Z.add c) k m.

(** Sum of [f i] over the indices [i] in [ixs] whose record has id [k]. *)
Fixpoint total_for (f : nat -> Z) (data : list DataPoint) (k : string)
    (ixs : list nat) : Z :=
  match ixs with
  | [] => 0%Z
  | i :: rest =>
      ((match data !! i with
        | Some a => if decide (id a = k) then f i else 0
        | None => 0
        end) + total_for f data k rest)%Z
  end.

(** The flags work-item [i] ends its comparison with [j] with. *)
Definition kernel_flags (data : list spec_float) (params : Wgsl.Params)
    (i j : nat) : Wgsl.Flags :=
  Wgsl.dim_loop data (u32 (Z.of_nat i * Wgsl.dimensions params))
                (u32 (Z.of_nat j * Wgsl.dimensions params))
                (seq 0 (Z.to_nat (Wgsl.dimensions params))) Wgsl.flags0.

(** [i_be_j && i_s_j]: the kernel finds that [i] dominates [j]. *)
Definition kernel_dominates (data : list spec_float) (params : Wgsl.Params)
    (i j : nat) : bool :=
  Wgsl.i_be_j (kernel_flags data params i j) &&
  Wgsl.i_s_j (kernel_flags data params i j).

(** [j_be_i && j_s_i]: the kernel finds that [j] dominates [i]. *)
Definition kernel_dominated (data : list spec_float) (params : Wgsl.Params)
    (i j : nat) : bool :=
  Wgsl.j_be_i (kernel_flags data params i j) &&
  Wgsl.j_s_i (kernel_flags data params i j).

(** Dominance on the marshalled cells of two records. *)
Definition gpu_dominates (a b : DataPoint) (attrs : list AttributeConfig) : bool :=
  forallb (λ attr, negb (SFltb (gpu_cell a attr) (gpu_cell b attr))) attrs &&
  existsb (λ attr, SFltb (gpu_cell b attr) (gpu_cell a attr)) attrs.

(** Marshalling to [f32] keeps every comparison between the active
    values of two records of [data]. *)
Definition f32_order_faithful (data : list DataPoint)
    (attrs : list AttributeConfig) : Prop :=
  ∀ a b attr, a ∈ data → b ∈ data → attr ∈ attrs →
    SFltb (gpu_cell a attr) (gpu_cell b attr) =
    SFltb (cpu_val a attr) (cpu_val b attr).

(** A slot's buffer and its recorded size agree. *)
Definition buf_wf {W} (b : option (Buffer W)) (bytes : Z) : Prop :=
  match b with
  | Some b => buf_size b = bytes ∧ (Z.of_nat (length (buf_words b)) * 4)%Z = bytes
  | None => True
  end.

(** The invariant of the module-level buffer variables. *)
Definition wf_world (w : World) : Prop :=
  buf_wf (dataBuf w) (dataBufBytes w) ∧
  buf_wf (resultBuf w) (resultBufBytes w) ∧
  buf_wf (uniformBuf w) (uniformBufBytes w) ∧
  buf_wf (readbackBuf w) (readbackBufBytes w).

Definition is_mapAsync (e : Event) : bool :=
  match e with EvMapAsync _ => true | _ => false end.

(** Number of [mapAsync] calls in a trace. *)
Definition mapAsync_calls (t : list Event) : nat :=
  length (List.filter is_mapAsync t).

Definition is_acquire (e : Event) : bool :=
  match e with EvAcquire => true | _ => false end.

(** Number of acquisition attempts in a trace. *)
Definition acquire_attempts (t : list Event) : nat :=
  length (List.filter is_acquire t).

(** The data buffer after the upload of [flat]. *)
Definition uploaded_data (data : list DataPoint) (attrs : list AttributeConfig)
    (d : Buffer spec_float) : list spec_float :=
  marshal data attrs ++ drop (length (marshal data attrs)) (buf_words d).

(** The uniform block the kernel sees for this call. *)
Definition call_params (data : list DataPoint) (attrs : list AttributeConfig)
  : Wgsl.Params :=
  Wgsl.mkParams (u32 (Z.of_nat (length attrs))) (u32 (Z.of_nat (length data))).

(** The words the host maps after the pass and the copy, from the
    buffers the call found or created. *)
Definition readback_words (data : list DataPoint) (attrs : list AttributeConfig)
    (d : Buffer spec_float) (r rb : Buffer Z) : list Z :=
  let out := Wgsl.dispatch (uploaded_data data attrs d) (call_params data attrs)
               (Z.to_nat ((Z.of_nat (length data) + 63) / 64)) (buf_words r) in
  let n := Z.to_nat (Z.of_nat (length data) * 8 / 4) in
  take n out ++ drop n (buf_words rb).

(** The result the host builds from the mapped words. *)
Definition result_of (env : Env) (data : list DataPoint) (res : list Z)
  : SkylineResult :=
  let '(sky, sc, dby) := decode data res in
  mkResult sky sc dby (Js.sub (env_now env 1%nat) (env_now env 0%nat)) WebGPU.

(** The result of a call on degenerate input. *)
Definition empty_result (env : Env) : SkylineResult :=
  mkResult ∅ ∅ ∅ (Js.sub (env_now env 1%nat) (env_now env 0%nat)) WebGPU.

(** The two counters of record [i] in the mapped words. *)
Definition res_by (res : list Z) (i : nat) : Z := default 0%Z (res !! (i * 2)%nat).
Definition res_score (res : list Z) (i : nat) : Z :=
  default 0%Z (res !! (i * 2 + 1)%nat).

(** The platform lets this call through: the enums exist, the device is
    (or gets) acquired, and the readback maps at the first or the second
    attempt. *)
Definition ready (env : Env) (w : World) : bool :=
  env_enums env &&
  match fst (getGPUState env w) with inr _ => true | inl _ => false end &&
  (env_mapAsync env 0%nat || env_mapAsync env 1%nat).

(** [m] with its [k] low zero bits removed, if it has them. *)
Fixpoint strip_zeros (k : nat) (m : positive) : option positive :=
  match k with
  | O => Some m
  | S k' => match m with xO m' => strip_zeros k' m' | _ => None end
  end.

(** A property value on which the two backends read the same number:
    a missing value, NaN or a zero (each read as 0), or a finite double
    that is a normal binary32 number: 24 significant bits followed by 29
    zero bits, with the binary32 exponent in range. *)
Definition f32_exact (v : option Js.number) : bool :=
  match v with
  | None | Some (S754_zero _) | Some S754_nan => true
  | Some (S754_infinity _) => false
  | Some (S754_finite s m e) =>
      match strip_zeros 29 m with
      | Some q =>
          Pos.eqb (digits2_pos q) 24 && (-149 <=? e + 29)%Z && (e + 29 <=? 104)%Z
      | None => false
      end
  end.

(** The sum of the normalised values, as [totalNorm] accumulates it. *)
Definition total_norm (point : DataPoint) (attributes : list AttributeConfig)
  : Js.number :=
  fold_left (λ t attr, Js.add t (norm_of point attr)) attributes (Js.of_Z 0).

(* ===================================================================== *)
(** ** Concrete inputs                                                    *)
(* ===================================================================== *)

(** A record with the two attributes [pace] and [shoot]. *)
Definition player (i : string) (pace shoot : Z) : DataPoint :=
  mkDataPoint i i (<["pace" := Js.of_Z pace]> (<["shoot" := Js.of_Z shoot]> ∅)).

(** An attribute with the given key and the declared range [0, 100]. *)
Definition attribute (k : string) : AttributeConfig :=
  mkAttr k k (Js.of_Z 0) (Js.of_Z 100) (Js.of_Z 1) "#ef4444" (Js.of_Z 0).

(** The worked example: A, B and C over [pace, shoot]. *)
Definition example_data : list DataPoint :=
  [player "A" 90 80; player "B" 80 90; player "C" 70 70].
Definition example_attrs : list AttributeConfig :=
  [attribute "pace"; attribute "shoot"].

(** Two records one unit apart at 2^24, where binary32 has a spacing
    of 2: both round to 16777216. *)
Definition close_data : list DataPoint :=
  [player "A" 16777217 0; player "B" 16777216 0].
Definition close_attrs : list AttributeConfig := [attribute "pace"].


(** Two records with different ids, the first of them [__proto__]. *)
Definition proto_data : list DataPoint :=
  [player "__proto__" 2 0; player "B" 1 0].

(** A platform where every step of the parallel backend succeeds. *)
Definition env_ok : Env :=
  mkEnv true true true (Some 0%nat) (λ _, true) (λ _, Js.zero).

(** A platform without [navigator.gpu]. *)
Definition env_no_gpu : Env :=
  mkEnv true false true (Some 0%nat) (λ _, true) (λ _, Js.zero).

(** A platform whose first [mapAsync] rejects and whose second resolves. *)
Definition env_map_retry : Env :=
  mkEnv true true true (Some 0%nat) (λ k, negb (Nat.eqb k 0)) (λ _, Js.zero).

(** A platform whose [mapAsync] always rejects. *)
Definition env_map_fail : Env :=
  mkEnv true true true (Some 0%nat) (λ _, false) (λ _, Js.zero).

(** A clock for the serial backend. *)
Definition clock0 : nat -> Js.number := λ _, Js.zero.

(** A rendering in the format of d3's [toString]. *)
Definition render_gray (h c l : Js.number) : string := "rgb(71, 71, 71)".

(* ===================================================================== *)
(** ** The order of the numbers, and totals of counters                   *)
(* ===================================================================== *)

(** A key that orders the numbers other than NaN: the class of the
    number (minus infinity, negative, zero, positive, plus infinity),
    then exponent and mantissa, both negated for a negative number. *)
Definition order_key (x : spec_float) : Z * Z * Z :=
  match x with
  | S754_infinity true => (-2, 0, 0)%Z
  | S754_finite true m e => (-1, - e, - Zpos m)%Z
  | S754_zero _ => (0, 0, 0)%Z
  | S754_nan => (0, 0, 0)%Z
  | S754_finite false m e => (1, e, Zpos m)%Z
  | S754_infinity false => (2, 0, 0)%Z
  end.

Definition key_lt (k1 k2 : Z * Z * Z) : Prop :=
  (k1.1.1 < k2.1.1 ∨
   (k1.1.1 = k2.1.1 ∧ (k1.1.2 < k2.1.2 ∨ (k1.1.2 = k2.1.2 ∧ k1.2 < k2.2))))%Z.

Definition is_nan (x : spec_float) : bool :=
  match x with S754_nan => true | _ => false end.

(** Sum of [g i] over the indices [ixs]. *)
Definition sum_ix (g : nat → Z) (ixs : list nat) : Z :=
  foldr (λ i acc, (g i + acc)%Z) 0%Z ixs.

(** Sum over the records of [data] of the count the map [m] holds for
    the record's id. *)
Definition sum_counts (m : gmap string Z) (data : list DataPoint) : Z :=
  foldr (λ p acc, (default 0%Z (m !! id p) + acc)%Z) 0%Z data.

(* ===================================================================== *)
(** ** Device operations of a call, and the states the module reaches     *)
(* ===================================================================== *)

(** What [ensureBuffer] does for one slot: the device operations it
    issues, the buffer it returns and the size it reports. *)
Definition ensure_events {W} (buf : option (Buffer W)) (cur need : Z)
    (usage : list Usage) : list Event :=
  match buf with
  | Some b =>
      if (need <=? cur)%Z then []
      else [EvDestroy (buf_size b); EvCreateBuffer need usage]
  | None => [EvCreateBuffer need usage]
  end.

Definition ensure_buf {W} (zero : W) (buf : option (Buffer W)) (cur need : Z)
    (usage : list Usage) : Buffer W :=
  match buf with
  | Some b => if (need <=? cur)%Z then b else createBuffer zero need usage
  | None => createBuffer zero need usage
  end.

Definition ensure_bytes {W} (buf : option (Buffer W)) (cur need : Z) : Z :=
  match buf with
  | Some b => if (need <=? cur)%Z then cur else need
  | None => need
  end.

(** The sizes a call asks for: data, result, uniform and readback. *)
Definition needDataBytes (data : list DataPoint) (attrs : list AttributeConfig) : Z :=
  (4 * Z.of_nat (length (marshal data attrs)))%Z.
Definition needResultBytes (data : list DataPoint) : Z :=
  (Z.of_nat (length data) * 8)%Z.

(** The buffer operations of the four [ensureBuffer] blocks of a call. *)
Definition alloc_events (data : list DataPoint) (attrs : list AttributeConfig)
    (w : World) : list Event :=
  ensure_events (dataBuf w) (dataBufBytes w) (needDataBytes data attrs)
                [STORAGE; COPY_DST] ++
  ensure_events (resultBuf w) (resultBufBytes w) (needResultBytes data)
                [STORAGE; COPY_SRC] ++
  ensure_events (uniformBuf w) (uniformBufBytes w) 8 [UNIFORM; COPY_DST] ++
  ensure_events (readbackBuf w) (readbackBufBytes w) (needResultBytes data)
                [COPY_DST; MAP_READ].

(** The uploads and the submission of a call. *)
Definition work_events (data : list DataPoint) (attrs : list AttributeConfig)
  : list Event :=
  [EvWriteBuffer (length (marshal data attrs)); EvWriteBuffer 2;
   EvDispatch (Z.to_nat ((Z.of_nat (length data) + 63) / 64));
   EvCopy (needResultBytes data); EvSubmit].

(** The mapping operations of a call, by what the platform answers. *)
Definition map_events (env : Env) : list Event :=
  if env_mapAsync env 0%nat then [EvMapAsync true; EvUnmap]
  else if env_mapAsync env 1%nat
       then [EvMapAsync false; EvUnmap; EvMapAsync true; EvUnmap]
       else [EvMapAsync false; EvUnmap; EvMapAsync false].

(** The module states that calls of the one exported function,
    [computeSkylineWebGPU], lead to from the module as loaded. *)
Inductive reachable : World → Prop :=
  | reachable_init : reachable world0
  | reachable_call env data attrs w :
      reachable w → reachable (computeSkylineWebGPU env data attrs w).2.

Definition is_create (e : Event) : bool :=
  match e with EvCreateBuffer _ _ => true | _ => false end.
Definition is_destroy (e : Event) : bool :=
  match e with EvDestroy _ => true | _ => false end.

(** Buffers created and not destroyed, over a trace. *)
Definition live_buffers (t : list Event) : Z :=
  (Z.of_nat (length (List.filter is_create t))
   - Z.of_nat (length (List.filter is_destroy t)))%Z.

(** Number of the four module slots that hold a buffer. *)
Definition held {A} (slot : option A) : Z :=
  match slot with Some _ => 1%Z | None => 0%Z end.
Definition slots_held (w : World) : Z :=
  (held (dataBuf w) + held (resultBuf w) + held (uniformBuf w)
   + held (readbackBuf w))%Z.

(** A slot that holds no buffer records the size 0. *)
Definition slots_fresh (w : World) : Prop :=
  (dataBuf w = None → dataBufBytes w = 0%Z) ∧
  (resultBuf w = None → resultBufBytes w = 0%Z) ∧
  (uniformBuf w = None → uniformBufBytes w = 0%Z) ∧
  (readbackBuf w = None → readbackBufBytes w = 0%Z).

(** Buffer creations and destructions of a trace, in order. *)
Definition allocations (t : list Event) : list Event :=
  List.filter (λ e, is_create e || is_destroy e) t.

(** Is the readback buffer mapped after the trace [t], starting from
    [mapped]: a resolved [mapAsync] maps it, [unmap] unmaps it. *)
Definition mapped_after (mapped : bool) (t : list Event) : bool :=
  fold_left (λ m e, match e with
                    | EvMapAsync true => true
                    | EvUnmap => false
                    | _ => m
                    end) t mapped.

(** No submission in [t] happens while the readback buffer is mapped. *)
Fixpoint submits_unmapped (mapped : bool) (t : list Event) : bool :=
  match t with
  | [] => true
  | EvSubmit :: rest => negb mapped && submits_unmapped mapped rest
  | EvMapAsync true :: rest => submits_unmapped true rest
  | EvUnmap :: rest => submits_unmapped false rest
  | _ :: rest => submits_unmapped mapped rest
  end.

(* ===================================================================== *)
(** ** The application shell ([App.tsx]) and the filter panel             *)
(* ===================================================================== *)

(** [a >= b] and [a <= b] on numbers; a comparison with NaN is false. *)
Definition num_ge (a b : Js.number) : bool := SFleb b a.
Definition num_le (a b : Js.number) : bool := SFleb a b.

Module App.

(** [FilterConfig] of [types.ts]; [operator] is ['<' | '>']. *)
Inductive Operator := OpLt | OpGt.

Record FilterConfig := mkFilter {
  attribute : string;
  operator : Operator;
  value : Js.number
}.

(** The predicate of [result.filter(d => ...)] for the filter [f]: a
    missing value reads [undefined], which compares as NaN. *)
Definition keeps (f : FilterConfig) (d : DataPoint) : bool :=
  let val := Js.Number (prop d (attribute f)) in
  match operator f with
  | OpLt => num_ge val (value f)
  | OpGt => num_le val (value f)
  end.

(** [filteredData]: [fullData.slice(0, dataLimit)], then one [filter]
    pass per filter, in order. *)
Definition filteredData (fullData : list DataPoint) (dataLimit : nat)
    (filters : list FilterConfig) : list DataPoint :=
  fold_left (λ result f, filter (λ d, keeps f d) result) filters
            (take dataLimit fullData).

(** [addFilter] and [removeFilter] of the filter panel. *)
Definition addFilter (filters : list FilterConfig) (selectedAttr : string)
    (operator : Operator) (value : Js.number) : list FilterConfig :=
  if String.eqb selectedAttr EmptyString then filters
  else filters ++ [mkFilter selectedAttr operator value].

Definition removeFilter (filters : list FilterConfig) (index : nat)
  : list FilterConfig :=
  delete index filters.

Definition MAX_SELECTED : nat := 4.

(** [handleSelection]: the update it passes to [setSelectedIds]. *)
Definition handleSelection (i : string) (prev : list string) : list string :=
  if bool_decide (i ∈ prev) then filter (λ p, p ≠ i) prev
  else if Nat.leb MAX_SELECTED (length prev) then prev
  else prev ++ [i].

(** [clearSelection] *)
Definition clearSelection : list string := [].

(** What the user does to the selection. *)
Inductive SelectionAction := Select (i : string) | Clear.

Definition selection_step (prev : list string) (a : SelectionAction)
  : list string :=
  match a with
  | Select i => handleSelection i prev
  | Clear => clearSelection
  end.

(** [toggleAttribute]: the update it passes to [setActiveAttributes]. *)
Definition toggleAttribute (k : string) (prev : list string) : list string :=
  if bool_decide (k ∈ prev) then filter (λ k', k' ≠ k) prev else prev ++ [k].

(** The active attributes after loading:
    [localAttrs.slice(0, 6).map(a => a.key)]. *)
Definition initialActiveAttributes (localAttrs : list AttributeConfig)
  : list string :=
  key <$> take 6 localAttrs.

(** [orderedActiveAttrs], the list the computation runs on:
    [activeAttributes.map(key => attributes.find(a => a.key === key)!)
       .filter(Boolean)]. *)
Definition orderedActiveAttrs (attributes : list AttributeConfig)
    (activeAttributes : list string) : list AttributeConfig :=
  omap (λ k, List.find (λ a, bool_decide (key a = k)) attributes)
       activeAttributes.

(** [filteredAttrs], the list the views receive:
    [attributes.filter(a => activeAttributes.includes(a.key))]. *)
Definition filteredAttrs (attributes : list AttributeConfig)
    (activeAttributes : list string) : list AttributeConfig :=
  filter (λ a, key a ∈ activeAttributes) attributes.

End App.

(* ===================================================================== *)
(** ** The comparison view ([ComparisonView.tsx])                         *)
(* ===================================================================== *)

Module ComparisonView.

(** [(p[attr.key] as number) ?? attr.min]: only a missing value falls
    back. *)
Definition value_or_min (p : DataPoint) (attr : AttributeConfig) : Js.number :=
  match prop p (key attr) with
  | Some v => v
  | None => min attr
  end.

(** The [for (const attr of attributes)] loop of [checkDomination],
    carrying [strictlyBetter]. *)
Fixpoint checkDomination_loop (a b : DataPoint) (attributes : list AttributeConfig)
    (strictlyBetter : bool) : bool :=
  match attributes with
  | [] => strictlyBetter
  | attr :: rest =>
      let va := value_or_min a attr in
      let vb := value_or_min b attr in
      if Js.lt va vb then false
      else checkDomination_loop a b rest
             (if Js.gt va vb then true else strictlyBetter)
  end.

Definition checkDomination (attributes : list AttributeConfig) (a b : DataPoint)
  : bool :=
  checkDomination_loop a b attributes false.

(** [selectedPlayers]:
    [selectedIds.slice(0, 4).map(id => data.find(p => p.id === id))
       .filter(Boolean)]. *)
Definition selectedPlayers (selectedIds : list string) (data : list DataPoint)
  : list DataPoint :=
  omap (λ i, List.find (λ p, bool_decide (id p = i)) data) (take 4 selectedIds).

(** The [set] of one entry of [domSets]: the ids of the records that [p]
    dominates. *)
Definition domSet (data : list DataPoint) (attributes : list AttributeConfig)
    (p : DataPoint) : gset string :=
  fold_left (λ set target,
               if checkDomination attributes p target
               then {[id target]} ∪ set else set)
            data ∅.

(** [domSets]: one [{ id, set }] per selected player. *)
Definition domSets (selectedPlayers data : list DataPoint)
    (attributes : list AttributeConfig) : list (string * gset string) :=
  if Nat.eqb (length selectedPlayers) 0 || Nat.eqb (length attributes) 0 then []
  else (λ p, (id p, domSet data attributes p)) <$> selectedPlayers.

(** The value [skylineResult.dominanceScores[ds.id] ?? ds.set.size] that
    is assigned to [pieValuesAll[ds.id]]: only [undefined] falls back. *)
Definition pieValue (skylineResult : SkylineResult) (ds : string * gset string)
  : Value :=
  match read (dominanceScores skylineResult) ds.1 with
  | VUndefined => VNumber (Z.of_nat (size ds.2))
  | v => v
  end.

End ComparisonView.

(* ===================================================================== *)
(** ** The table view ([TabularView.tsx])                                 *)
(* ===================================================================== *)

Module TabularView.

(** [skylinePoints] of the table view:
    [data.filter(p => skylineResult.skylineIds.has(p.id))]. *)
Definition skylinePoints (data : list DataPoint) (skylineResult : SkylineResult)
  : list DataPoint :=
  filter (λ p, id p ∈ skylineIds skylineResult) data.

(** The test of [allPoints.some(other => ...)] in
    [getDecisiveSubspaces]: [other] is another record and dominates
    [target] in the subspace of [attrA] and [attrB]. *)
Definition dominates_in_subspace (target : DataPoint) (attrA attrB : AttributeConfig)
    (other : DataPoint) : bool :=
  if bool_decide (id other = id target) then false
  else
    let aValT := Js.Number (prop target (key attrA)) in
    let bValT := Js.Number (prop target (key attrB)) in
    let aValO := Js.Number (prop other (key attrA)) in
    let bValO := Js.Number (prop other (key attrB)) in
    let betterOrEqualA := num_ge aValO aValT in
    let betterOrEqualB := num_ge bValO bValT in
    let strictlyBetter := Js.gt aValO aValT || Js.gt bValO bValT in
    betterOrEqualA && betterOrEqualB && strictlyBetter.

(** What the body of the two nested loops pushes for the pair [(i, j)]. *)
Definition decisive_pair (target : DataPoint) (allPoints : list DataPoint)
    (attributes : list AttributeConfig) (i j : nat) : list (nat * nat) :=
  match attributes !! i, attributes !! j with
  | Some attrA, Some attrB =>
      let isDominatedInSubspace :=
        existsb (dominates_in_subspace target attrA attrB) allPoints in
      if negb isDominatedInSubspace then [(i, j)] else []
  | _, _ => []
  end.

(** [getDecisiveSubspaces]: [for i] and [for j = i + 1] over the
    attribute indices, then [slice(0, 5)]. *)
Definition getDecisiveSubspaces (target : DataPoint) (allPoints : list DataPoint)
    (attributes : list AttributeConfig) : list (nat * nat) :=
  let decisiveIndices :=
    flat_map (λ i,
      flat_map (decisive_pair target allPoints attributes i)
               (seq (i + 1) (length attributes - (i + 1))))
      (seq 0 (length attributes)) in
  take 5 decisiveIndices.

(** The [for (let k = 0; ...)] loop of the search, with its [break];
    the state is [(isBetterOrEqual, isStrictlyBetter)]. *)
Fixpoint search_for (sPoint foundPoint : DataPoint) (ks : list AttributeConfig)
    (st : bool * bool) : bool * bool :=
  match ks with
  | [] => st
  | attr :: rest =>
      let sVal := Js.Number (prop sPoint (key attr)) in
      let pVal := Js.Number (prop foundPoint (key attr)) in
      if Js.lt sVal pVal then (false, snd st)
      else search_for sPoint foundPoint rest
             (fst st, if Js.gt sVal pVal then true else snd st)
  end.

(** The predicate of [skylinePoints.filter(sPoint => ...)] in the
    search: [attributes.forEach] runs the [for k] loop once per
    attribute on the same two flags. *)
Definition is_dominator (attributes : list AttributeConfig)
    (foundPoint sPoint : DataPoint) : bool :=
  let '(isBetterOrEqual, isStrictlyBetter) :=
    fold_left (λ st _, search_for sPoint foundPoint attributes st)
              attributes (true, false) in
  isBetterOrEqual && isStrictlyBetter.

(** [searchStatus] *)
Inductive SearchStatus := none | skyline | dominated.

Section Search.

(** [name.toLowerCase().includes(searchTerm.toLowerCase())] *)
Variable name_includes : string -> string -> bool.

(** The search effect: the pair it sets, [(searchStatus,
    searchDominators)]. *)
Definition search (searchTerm : string) (data : list DataPoint)
    (skylineResult : SkylineResult) (attributes : list AttributeConfig)
  : SearchStatus * option (list string) :=
  if String.eqb searchTerm EmptyString then (none, None)
  else
    match List.find (λ p, name_includes (name p) searchTerm) data with
    | Some foundPoint =>
        if bool_decide (id foundPoint ∈ skylineIds skylineResult)
        then (skyline, Some [id foundPoint])
        else
          let dominators :=
            filter (λ sPoint, is_dominator attributes foundPoint sPoint)
                   (skylinePoints data skylineResult) in
          (dominated, Some (id <$> dominators))
    | None => (none, None)
    end.

End Search.

End TabularView.

(** Every record has a value that is a number, not NaN, for every
    attribute of the list. *)
Definition complete (data : list DataPoint) (attributes : list AttributeConfig)
  : Prop :=
  ∀ p attr, p ∈ data → attr ∈ attributes →
    ∃ v, prop p (key attr) = Some v ∧ is_nan v = false.

(* ===================================================================== *)
(** ** Further concrete inputs                                            *)
(* ===================================================================== *)

(** Three records with two that tie on both attributes. *)
Definition tie_data : list DataPoint :=
  [player "A" 90 80; player "B" 90 80; player "C" 70 70].

(** The module state a first call on [close_data] leaves. *)
Definition world_after_close : World :=
  (computeSkylineWebGPU env_ok close_data close_attrs world0).2.

(** The module state two calls leave, the first on a platform whose
    first [mapAsync] rejects. *)
Definition world_after_two : World :=
  (computeSkylineWebGPU env_ok example_data example_attrs
     (computeSkylineWebGPU env_map_retry close_data close_attrs world0).2).2.

(** Closed decidable goals, and membership in a literal list. *)
Ltac by_decide := apply (bool_decide_unpack _); vm_compute; exact I.

Ltac each_elem H :=
  repeat (apply elem_of_cons in H as [->|H]); [..|by apply elem_of_nil in H].

(* ===================================================================== *)
(** ** Comparison of IEEE-754 values                                      *)
(* ===================================================================== *)

Lemma SFcompare_antisym (x y : spec_float) (c : comparison) :
  SFcompare x y = Some c → SFcompare y x = Some (CompOpp c).
Proof.
  destruct x as [sx|sx| |sx mx ex], y as [sy|sy| |sy my ey]; simpl;
    try discriminate;
    try (destruct sx; intros [= <-]; reflexivity);
    try (destruct sy; intros [= <-]; reflexivity);
    try (destruct sx, sy; intros [= <-]; reflexivity).
  intros [= <-]. f_equal.
  rewrite (Z.compare_antisym ex ey).
  change (PosDef.Pos.compare_cont Eq my mx) with (Pos.compare my mx).
  change (PosDef.Pos.compare_cont Eq mx my) with (Pos.compare mx my).
  rewrite (Pos.compare_antisym mx my).
  destruct sx, sy; simpl; try reflexivity;
    destruct (ex ?= ey)%Z; simpl; try reflexivity;
    destruct (mx ?= my)%positive; reflexivity.
Qed.

Lemma SFltb_irrefl (x : spec_float) : SFltb x x = false.
Proof.
  unfold SFltb. destruct (SFcompare x x) as [c|] eqn:E; [|reflexivity].
  pose proof (SFcompare_antisym _ _ _ E) as E'. rewrite E in E'.
  destruct c; try reflexivity; discriminate.
Qed.

Lemma SFltb_asym (x y : spec_float) : SFltb x y = true → SFltb y x = false.
Proof.
  unfold SFltb. destruct (SFcompare x y) as [c|] eqn:E; [|discriminate].
  rewrite (SFcompare_antisym _ _ _ E). destruct c; simpl; congruence.
Qed.

Lemma SFeqb_not_ltb (x y : spec_float) :
  SFeqb x y = true → SFltb x y = false ∧ SFltb y x = false.
Proof.
  unfold SFeqb, SFltb. destruct (SFcompare x y) as [c|] eqn:E; [|discriminate].
  rewrite (SFcompare_antisym _ _ _ E). destruct c; simpl; try discriminate. auto.
Qed.

(* ===================================================================== *)
(** ** The dominance predicate                                            *)
(* ===================================================================== *)

(** [dominates] as "no worse everywhere, better somewhere". *)
Lemma dominates_loop_spec (a b : DataPoint) (attributes : list AttributeConfig)
    (acc : bool) :
  dominates_loop a b attributes acc =
  forallb (λ attr, negb (Js.lt (cpu_val a attr) (cpu_val b attr))) attributes &&
  (acc || existsb (λ attr, Js.gt (cpu_val a attr) (cpu_val b attr)) attributes).
Proof.
  revert acc. induction attributes as [|attr rest IH]; intros acc; simpl.
  - by rewrite orb_false_r.
  - fold (cpu_val a attr) (cpu_val b attr).
    destruct (Js.lt (cpu_val a attr) (cpu_val b attr)); simpl; [done|].
    rewrite IH. destruct (Js.gt (cpu_val a attr) (cpu_val b attr)), acc; simpl;
      try done.
Qed.

Lemma dominates_spec (a b : DataPoint) (attributes : list AttributeConfig) :
  dominates a b attributes =
  forallb (λ attr, negb (Js.lt (cpu_val a attr) (cpu_val b attr))) attributes &&
  existsb (λ attr, Js.gt (cpu_val a attr) (cpu_val b attr)) attributes.
Proof. unfold dominates. by rewrite dominates_loop_spec. Qed.

Lemma dominates_asym (a b : DataPoint) (attributes : list AttributeConfig) :
  dominates a b attributes = true → dominates b a attributes = false.
Proof.
  rewrite !dominates_spec. intros [_ Hex]%andb_true_iff.
  apply existsb_exists in Hex as (attr & Hin & Hgt).
  apply andb_false_iff. left.
  apply not_true_iff_false. intros Hall.
  rewrite forallb_forall in Hall. specialize (Hall attr Hin).
  unfold Js.gt, Js.lt in *. rewrite Hgt in Hall. discriminate.
Qed.

Lemma dominates_irrefl (a : DataPoint) (attributes : list AttributeConfig) :
  dominates a a attributes = false.
Proof.
  destruct (dominates a a attributes) eqn:E; [|done].
  by rewrite (dominates_asym _ _ _ E) in E.
Qed.

Lemma dominates_equal_on (a b : DataPoint) (attributes : list AttributeConfig) :
  equal_on a b attributes = true → dominates a b attributes = false.
Proof.
  unfold equal_on. rewrite forallb_forall. intros Heq.
  rewrite dominates_spec. apply andb_false_iff. right.
  apply not_true_iff_false. intros (attr & Hin & Hgt)%existsb_exists.
  apply Heq, SFeqb_not_ltb in Hin as [_ H].
  unfold Js.gt in Hgt. congruence.
Qed.

Lemma equal_on_sym (a b : DataPoint) (attributes : list AttributeConfig) :
  equal_on a b attributes = true → equal_on b a attributes = true.
Proof.
  unfold equal_on. rewrite !forallb_forall. intros Heq attr Hin.
  specialize (Heq attr Hin). unfold Js.eq, SFeqb in *.
  destruct (SFcompare (cpu_val a attr) (cpu_val b attr)) as [c|] eqn:E;
    [|discriminate].
  rewrite (SFcompare_antisym _ _ _ E). by destruct c.
Qed.

(* ===================================================================== *)
(** ** The serial scan                                                    *)
(* ===================================================================== *)

Lemma count_true_nonneg f js : (0 ≤ count_true f js)%Z.
Proof. induction js as [|j js IH]; simpl; [lia|]. destruct (f j); lia. Qed.

Lemma count_true_le_length f js : (count_true f js ≤ Z.of_nat (length js))%Z.
Proof. induction js as [|j js IH]; simpl; [lia|]. destruct (f j); lia. Qed.

Lemma add_to_incr (c : Z) (k : string) (m : gmap string Z) :
  add_to c k (incr k m) = add_to (1 + c) k m.
Proof.
  unfold add_to, incr. case_decide; [done|].
  rewrite alter_alter_eq. apply alter_ext. intros x _. simpl. lia.
Qed.

Lemma add_to_0 (k : string) (m : gmap string Z) : add_to 0 k m = m.
Proof. unfold add_to. case_decide; [done|]. apply alter_id. intros x _. lia. Qed.

Lemma lookup_add_to (c : Z) (k k' : string) (m : gmap string Z) :
  add_to c k m !! k' =
  if decide (k = k' ∧ k' ≠ PROTO) then Z.add c <$> m !! k' else m !! k'.
Proof.
  unfold add_to. destruct (decide (k = PROTO)) as [->|Hk].
  - rewrite decide_False; [done|]. by intros [<- ?].
  - rewrite lookup_alter. destruct (decide (k = k')) as [<-|Hne].
    + by rewrite decide_True.
    + rewrite decide_False; [done|]. by intros [? _].
Qed.

Lemma lookup_assign (v : Z) (k k' : string) (m : gmap string Z) :
  assign k v m !! k' =
  if decide (k = k' ∧ k' ≠ PROTO) then Some v else m !! k'.
Proof.
  unfold assign. destruct (decide (k = PROTO)) as [->|Hk].
  - rewrite decide_False; [done|]. by intros [<- ?].
  - destruct (decide (k = k')) as [<-|Hne].
    + by rewrite lookup_insert_eq, decide_True.
    + rewrite lookup_insert_ne by done. rewrite decide_False; [done|]. by intros [? _].
Qed.

Lemma cpu_inner_spec data attrs i a js isd sc dby :
  fold_left (cpu_inner_step data attrs i a) js (isd, sc, dby) =
  (isd || (0 <? count_true (dominated_at data attrs i a) js)%Z,
   add_to (count_true (dominating_at data attrs i a) js) (id a) sc,
   add_to (count_true (dominated_at data attrs i a) js) (id a) dby).
Proof.
  revert isd sc dby. induction js as [|j js IH]; intros isd sc dby; simpl.
  - by rewrite !add_to_0, orb_false_r.
  - pose proof (count_true_nonneg (dominated_at data attrs i a) js) as Hnn.
    unfold cpu_inner_step at 2, dominated_at at 1 3, dominating_at at 1.
    destruct (Nat.eqb i j); simpl; [apply IH|].
    destruct (data !! j) as [b|]; simpl; [|apply IH].
    destruct (dominates b a attrs), (dominates a b attrs); rewrite IH;
      rewrite ?add_to_incr; simpl; f_equal; try f_equal;
      try (destruct isd; simpl; try done; symmetry; apply Z.ltb_lt; lia).
Qed.

Lemma cpu_outer_step_spec data attrs i a sky sc dby :
  data !! i = Some a →
  cpu_outer_step data attrs (sky, sc, dby) i =
  ((if (0 <? row_dominatedBy data attrs i)%Z then sky else {[id a]} ∪ sky),
   add_to (row_score data attrs i) (id a) sc,
   add_to (row_dominatedBy data attrs i) (id a) dby).
Proof.
  intros Ha. unfold cpu_outer_step, row_score, row_dominatedBy. rewrite Ha.
  by rewrite cpu_inner_spec.
Qed.

Lemma cpu_outer_spec data attrs ixs sky sc dby sky' sc' dby' :
  fold_left (cpu_outer_step data attrs) ixs (sky, sc, dby) = (sky', sc', dby') →
  (∀ k, sc' !! k =
        if decide (k = PROTO) then sc !! k
        else (λ z, z + total_for (row_score data attrs) data k ixs)%Z <$> sc !! k) ∧
  (∀ k, dby' !! k =
        if decide (k = PROTO) then dby !! k
        else (λ z, z + total_for (row_dominatedBy data attrs) data k ixs)%Z
               <$> dby !! k) ∧
  (∀ k, k ∈ sky' ↔
        k ∈ sky ∨ ∃ i a, i ∈ ixs ∧ data !! i = Some a ∧ id a = k ∧
                         row_dominatedBy data attrs i = 0%Z).
Proof.
  revert sky sc dby. induction ixs as [|i ixs IH]; intros sky sc dby; simpl.
  - intros [= <- <- <-]. split_and!; intros k.
    + case_decide; [done|]. destruct (sc !! k); simpl; f_equal; lia.
    + case_decide; [done|]. destruct (dby !! k); simpl; f_equal; lia.
    + split; [auto|]. intros [?|(i & a & Hi & _)]; [done|]. by apply elem_of_nil in Hi.
  - destruct (data !! i) as [a|] eqn:Ha.
    + rewrite (cpu_outer_step_spec _ _ _ _ _ _ _ Ha). intros Hf.
      apply IH in Hf as (Hsc & Hdby & Hsky). split_and!; intros k.
      * rewrite Hsc, lookup_add_to. cbn [total_for]. rewrite ?Ha.
        destruct (decide (k = PROTO)) as [->|Hp].
        -- rewrite decide_False; [done|]. intros [_ Hn]. by apply Hn.
        -- destruct (decide (id a = k)) as [Hk|Hk].
           ++ rewrite decide_True by done.
              destruct (sc !! k); simpl; f_equal; lia.
           ++ rewrite decide_False by (by intros [? _]).
              destruct (sc !! k); simpl; f_equal; lia.
      * rewrite Hdby, lookup_add_to. cbn [total_for]. rewrite ?Ha.
        destruct (decide (k = PROTO)) as [->|Hp].
        -- rewrite decide_False; [done|]. intros [_ Hn]. by apply Hn.
        -- destruct (decide (id a = k)) as [Hk|Hk].
           ++ rewrite decide_True by done.
              destruct (dby !! k); simpl; f_equal; lia.
           ++ rewrite decide_False by (by intros [? _]).
              destruct (dby !! k); simpl; f_equal; lia.
      * rewrite Hsky.
        assert (Hnn : (0 ≤ row_dominatedBy data attrs i)%Z).
        { unfold row_dominatedBy. rewrite Ha. apply count_true_nonneg. }
        split.
        -- intros [Hk|(i' & a' & Hi' & Ha' & Hid & Hz)].
           ++ destruct (0 <? row_dominatedBy data attrs i)%Z eqn:E; [by left|].
              apply elem_of_union in Hk as [Hk|Hk]; [|by left].
              apply elem_of_singleton in Hk. right. exists i, a.
              split_and!; [by left|done|done|]. apply Z.ltb_ge in E. lia.
           ++ right. exists i', a'. split_and!; try done. by right.
        -- intros [Hk|(i' & a' & Hi' & Ha' & Hid & Hz)]; [left|].
           ++ destruct (0 <? row_dominatedBy data attrs i)%Z; [done|].
              apply elem_of_union. by right.
           ++ apply elem_of_cons in Hi' as [->|Hi'].
              ** left. rewrite Hz. simpl. rewrite Ha in Ha'. injection Ha' as <-.
                 apply elem_of_union. left. by apply elem_of_singleton.
              ** right. exists i', a'. done.
    + unfold cpu_outer_step at 2. rewrite Ha. intros Hf.
      apply IH in Hf as (Hsc & Hdby & Hsky). split_and!; intros k.
      * rewrite Hsc. case_decide; [done|]. destruct (sc !! k); simpl; f_equal; lia.
      * rewrite Hdby. case_decide; [done|]. destruct (dby !! k); simpl; f_equal; lia.
      * rewrite Hsky. split.
        -- intros [?|(i' & a' & Hi' & ?)]; [by left|]. right. exists i', a'.
           split; [by right|done].
        -- intros [?|(i' & a' & Hi' & Ha' & ?)]; [by left|]. right. exists i', a'.
           apply elem_of_cons in Hi' as [->|Hi']; [congruence|done].
Qed.

Lemma init_counters_spec data (sc0 dby0 sc dby : gmap string Z) :
  fold_left (fun '(sc, dby) p => (assign (id p) 0%Z sc, assign (id p) 0%Z dby))
            data (sc0, dby0) = (sc, dby) →
  (∀ k, sc !! k = if decide (k ∈ id <$> data ∧ k ≠ PROTO)
                  then Some 0%Z else sc0 !! k) ∧
  (∀ k, dby !! k = if decide (k ∈ id <$> data ∧ k ≠ PROTO)
                   then Some 0%Z else dby0 !! k).
Proof.
  revert sc0 dby0. induction data as [|p data IH]; intros sc0 dby0.
  - intros [= <- <-]. split; intros k; case_decide as Hk; try done;
      destruct Hk as [Hk _]; by apply elem_of_nil in Hk.
  - simpl. intros Hf. apply IH in Hf as [Hsc Hdby].
    split; intros k; [rewrite Hsc|rewrite Hdby];
      (destruct (decide (k ∈ id <$> data ∧ k ≠ PROTO)) as [[Hin Hp]|Hnin];
       [by rewrite decide_True by (split; [by right|done])|];
       rewrite lookup_assign;
       destruct (decide (id p = k ∧ k ≠ PROTO)) as [[<- Hp]|Hne];
       [by rewrite decide_True by (split; [by left|done])|];
       rewrite decide_False; [done|];
       intros [[?|?]%elem_of_cons ?]; [by apply Hne|by apply Hnin]).
Qed.

Lemma total_for_unique (f : nat → Z) data i a ixs :
  unique_ids data → data !! i = Some a → NoDup ixs →
  total_for f data (id a) ixs = if decide (i ∈ ixs) then f i else 0%Z.
Proof.
  intros Hu Ha. induction ixs as [|i' ixs IH]; intros Hnd.
  - case_decide as Hk; [by apply elem_of_nil in Hk|done].
  - cbn [total_for]. apply NoDup_cons in Hnd as [Hni Hnd]. rewrite (IH Hnd).
    destruct (decide (i' = i)) as [->|Hne].
    + rewrite Ha, (decide_True (P := id a = id a)) by done.
      rewrite (decide_True (P := i ∈ i :: ixs)) by (by left).
      rewrite (decide_False (P := i ∈ ixs)) by done. lia.
    + assert (Hz : match data !! i' with
                   | Some a0 => if decide (id a0 = id a) then f i' else 0%Z
                   | None => 0%Z
                   end = 0%Z).
      { destruct (data !! i') as [a'|] eqn:Ha'; [|done].
        destruct (decide (id a' = id a)) as [Hid|]; [|done]. exfalso. apply Hne.
        eapply (NoDup_lookup (id <$> data)); [exact Hu| |].
        - rewrite list_lookup_fmap, Ha'. simpl. by rewrite Hid.
        - by rewrite list_lookup_fmap, Ha. }
      rewrite Hz. destruct (decide (i ∈ ixs)).
      * rewrite (decide_True (P := i ∈ i' :: ixs)) by (by right). lia.
      * rewrite (decide_False (P := i ∈ i' :: ixs)); [lia|].
        intros [?|?]%elem_of_cons; congruence.
Qed.

Lemma total_for_absent (f : nat → Z) data k ixs :
  k ∉ id <$> data → total_for f data k ixs = 0%Z.
Proof.
  intros Hk. induction ixs as [|i ixs IH]; simpl; [done|]. rewrite IH.
  destruct (data !! i) as [a|] eqn:Ha; [|done]. rewrite decide_False; [done|].
  intros <-. apply Hk. apply list_elem_of_fmap. exists a. split; [done|].
  by eapply list_elem_of_lookup_2.
Qed.

Lemma cpu_lookup now data attrs :
  let r := computeSkylineCPU now data attrs in
  (∀ k, dominanceScores r !! k =
        if decide (k ∈ id <$> data ∧ k ≠ PROTO)
        then Some (total_for (row_score data attrs) data k (seq 0 (length data)))
        else None) ∧
  (∀ k, dominatedBy r !! k =
        if decide (k ∈ id <$> data ∧ k ≠ PROTO)
        then Some (total_for (row_dominatedBy data attrs) data k (seq 0 (length data)))
        else None) ∧
  (∀ k, k ∈ skylineIds r ↔
        ∃ i a, data !! i = Some a ∧ id a = k ∧ row_dominatedBy data attrs i = 0%Z).
Proof.
  unfold computeSkylineCPU. destruct data as [|p data'] eqn:Hd.
  - cbn [length Nat.eqb dominanceScores dominatedBy skylineIds].
    split_and!; intros k.
    + rewrite lookup_empty. case_decide as Hk; [|done].
      destruct Hk as [Hk _]. by apply elem_of_nil in Hk.
    + rewrite lookup_empty. case_decide as Hk; [|done].
      destruct Hk as [Hk _]. by apply elem_of_nil in Hk.
    + split; [by intros ?%not_elem_of_empty|]. by intros (i & a & Hi & _).
  - rewrite <- Hd. replace (Nat.eqb (length data) 0) with false by (by subst).
    unfold init_counters.
    destruct (fold_left _ data (∅, ∅)) as [sc0 dby0] eqn:Hinit.
    apply init_counters_spec in Hinit as [Hsc0 Hdby0].
    destruct (fold_left (cpu_outer_step data attrs) _ _) as [[sky sc] dby] eqn:Hf.
    apply cpu_outer_spec in Hf as (Hsc & Hdby & Hsky). simpl.
    split_and!; intros k.
    + rewrite Hsc, Hsc0. destruct (decide (k = PROTO)) as [->|Hp].
      * rewrite !decide_False by (intros [_ Hn]; by apply Hn). by rewrite lookup_empty.
      * case_decide; simpl; [f_equal; lia|by rewrite lookup_empty].
    + rewrite Hdby, Hdby0. destruct (decide (k = PROTO)) as [->|Hp].
      * rewrite !decide_False by (intros [_ Hn]; by apply Hn). by rewrite lookup_empty.
      * case_decide; simpl; [f_equal; lia|by rewrite lookup_empty].
    + rewrite Hsky. split.
      * intros [?%not_elem_of_empty|(i & a & _ & ?)]; [done|]. by exists i, a.
      * intros (i & a & Ha & ?). right. exists i, a. split; [|done].
        apply elem_of_seq. apply lookup_lt_Some in Ha. lia.
Qed.

(** Neither counter object of the serial result has an own property
    [__proto__]. *)
Lemma cpu_proto now data attrs :
  dominanceScores (computeSkylineCPU now data attrs) !! PROTO = None ∧
  dominatedBy (computeSkylineCPU now data attrs) !! PROTO = None.
Proof.
  destruct (cpu_lookup now data attrs) as (Hsc & Hdby & _).
  rewrite Hsc, Hdby. rewrite !decide_False; [done|intros [_ Hn]; by apply Hn..].
Qed.

Lemma cpu_record_sky now data attrs i a :
  unique_ids data → data !! i = Some a →
  id a ∈ skylineIds (computeSkylineCPU now data attrs)
  ↔ row_dominatedBy data attrs i = 0%Z.
Proof.
  intros Hu Ha. destruct (cpu_lookup now data attrs) as (_ & _ & Hsky).
  rewrite Hsky. split.
  - intros (i' & a' & Ha' & Hid & Hz).
    assert (i' = i) as ->; [|done].
    eapply (NoDup_lookup (id <$> data)); [exact Hu| |].
    + rewrite list_lookup_fmap, Ha'. simpl. by rewrite Hid.
    + by rewrite list_lookup_fmap, Ha.
  - intros Hz. by exists i, a.
Qed.

Lemma cpu_record now data attrs i a :
  unique_ids data → data !! i = Some a → id a ≠ PROTO →
  let r := computeSkylineCPU now data attrs in
  dominanceScores r !! id a = Some (row_score data attrs i) ∧
  dominatedBy r !! id a = Some (row_dominatedBy data attrs i) ∧
  (id a ∈ skylineIds r ↔ row_dominatedBy data attrs i = 0%Z).
Proof.
  intros Hu Ha Hp r. destruct (cpu_lookup now data attrs) as (Hsc & Hdby & _).
  fold r in Hsc, Hdby.
  assert (Hin : id a ∈ id <$> data ∧ id a ≠ PROTO).
  { split; [|done]. apply list_elem_of_fmap. exists a. split; [done|].
    by eapply list_elem_of_lookup_2. }
  assert (Hseq : i ∈ seq 0 (length data)).
  { apply elem_of_seq. apply lookup_lt_Some in Ha. lia. }
  split_and!.
  - rewrite Hsc, decide_True by done.
    rewrite (total_for_unique _ _ _ _ _ Hu Ha) by apply NoDup_seq.
    by rewrite decide_True.
  - rewrite Hdby, decide_True by done.
    rewrite (total_for_unique _ _ _ _ _ Hu Ha) by apply NoDup_seq.
    by rewrite decide_True.
  - by apply cpu_record_sky.
Qed.

Lemma count_true_disjoint_le (f g h : nat → bool) js :
  (∀ j, f j = true → h j = true) → (∀ j, g j = true → h j = true) →
  (∀ j, f j = true → g j = false) →
  (count_true f js + count_true g js ≤ count_true h js)%Z.
Proof.
  intros Hf Hg Hfg. induction js as [|j js IH]; simpl; [lia|].
  specialize (Hf j). specialize (Hg j). specialize (Hfg j).
  destruct (f j), (g j), (h j); try lia; try (by specialize (Hfg eq_refl));
    try (by specialize (Hf eq_refl)); by specialize (Hg eq_refl).
Qed.

Lemma count_true_others i s n :
  (count_true (λ j, negb (Nat.eqb i j)) (seq s n) =
   Z.of_nat n - (if decide (s ≤ i < s + n)%nat then 1 else 0))%Z.
Proof.
  revert s. induction n as [|n IH]; intros s.
  - simpl. case_decide; [lia|done].
  - cbn [seq count_true]. rewrite IH.
    destruct (Nat.eqb_spec i s) as [->|Hne]; cbn [negb];
      repeat case_decide; lia.
Qed.

Lemma row_bound data attrs i :
  (i < length data)%nat →
  (0 ≤ row_score data attrs i ∧ 0 ≤ row_dominatedBy data attrs i ∧
   row_score data attrs i + row_dominatedBy data attrs i ≤ Z.of_nat (length data) - 1)%Z.
Proof.
  intros Hi. unfold row_score, row_dominatedBy.
  destruct (data !! i) as [a|] eqn:Ha; [|apply lookup_ge_None in Ha; lia].
  split_and!; try apply count_true_nonneg.
  etrans.
  - apply (count_true_disjoint_le _ _ (λ j, negb (Nat.eqb i j))).
    + unfold dominating_at. by intros j [? _]%andb_true_iff.
    + unfold dominated_at. by intros j [? _]%andb_true_iff.
    + unfold dominating_at, dominated_at. intros j [_ H]%andb_true_iff.
      apply andb_false_iff. right. destruct (data !! j) as [b|]; [|done].
      by apply dominates_asym.
  - rewrite count_true_others, decide_True by lia. lia.
Qed.

(* ===================================================================== *)
(** ** Marshalling                                                        *)
(* ===================================================================== *)

Lemma fold_left_snoc {A B} (f : A → B → A) (l : list B) (x : B) (a : A) :
  fold_left f (l ++ [x]) a = f (fold_left f l a) x.
Proof. by rewrite fold_left_app. Qed.

Lemma marshal_row_prefix attrs i row (flat : list spec_float) n :
  (n ≤ length attrs)%nat →
  let out := fold_left (λ fl d,
                 match attrs !! d with
                 | Some attr => <[(i * length attrs + d)%nat := gpu_cell row attr]> fl
                 | None => fl
                 end) (seq 0 n) flat in
  length out = length flat ∧
  ∀ p, out !! p =
       if decide (i * length attrs ≤ p < i * length attrs + n ∧ p < length flat)%nat
       then gpu_cell row <$> attrs !! (p - i * length attrs)%nat
       else flat !! p.
Proof.
  induction n as [|n IH]; intros Hn; cbv zeta.
  - simpl. split; [done|]. intros p. rewrite decide_False by lia. done.
  - rewrite seq_S, fold_left_snoc. cbn [Nat.add].
    destruct IH as [Hlen Hlook]; [lia|].
    destruct (attrs !! n) as [attr|] eqn:Hattr;
      [|apply lookup_ge_None in Hattr; lia].
    split; [by rewrite length_insert|].
    intros p. rewrite list_lookup_insert, Hlen, Hlook.
    destruct (decide (i * length attrs + n = p ∧ i * length attrs + n < length flat)%nat)
      as [[<- Hlt]|Hne].
    + rewrite decide_True by lia.
      replace (i * length attrs + n - i * length attrs)%nat with n by lia.
      by rewrite Hattr.
    + destruct (decide (i * length attrs ≤ p < i * length attrs + n ∧ p < length flat)%nat).
      * by rewrite decide_True by lia.
      * by rewrite decide_False by lia.
Qed.

Lemma marshal_row_spec attrs i row (flat : list spec_float) :
  length (marshal_row attrs (length attrs) i row flat) = length flat ∧
  ∀ p, marshal_row attrs (length attrs) i row flat !! p =
       if decide (i * length attrs ≤ p < i * length attrs + length attrs
                  ∧ p < length flat)%nat
       then gpu_cell row <$> attrs !! (p - i * length attrs)%nat
       else flat !! p.
Proof. unfold marshal_row. by apply marshal_row_prefix. Qed.

Lemma marshal_prefix data attrs (flat : list spec_float) n :
  (n ≤ length data)%nat →
  length flat = (length data * length attrs)%nat →
  let out := fold_left (λ fl i,
                 match data !! i with
                 | Some row => marshal_row attrs (length attrs) i row fl
                 | None => fl
                 end) (seq 0 n) flat in
  length out = length flat ∧
  ∀ i d row attr, (i < n)%nat → data !! i = Some row → attrs !! d = Some attr →
    out !! (i * length attrs + d)%nat = Some (gpu_cell row attr).
Proof.
  intros Hn Hlen. induction n as [|n IH]; cbv zeta.
  - simpl. split; [done|]. intros; lia.
  - rewrite seq_S, fold_left_snoc. cbn [Nat.add].
    destruct IH as [Hl Hlook]; [lia|].
    destruct (data !! n) as [rown|] eqn:Hrow;
      [|apply lookup_ge_None in Hrow; lia].
    destruct (marshal_row_spec attrs n rown
                (fold_left (λ fl i,
                   match data !! i with
                   | Some row => marshal_row attrs (length attrs) i row fl
                   | None => fl
                   end) (seq 0 n) flat)) as [Hl' Hlook'].
    split; [congruence|].
    intros i d row attr Hi Hr Ha. rewrite Hlook'.
    pose proof (lookup_lt_Some _ _ _ Ha) as Hd.
    destruct (decide (i = n)) as [->|Hne].
    + rewrite decide_True by (rewrite Hl, Hlen; nia).
      replace (n * length attrs + d - n * length attrs)%nat with d by lia.
      rewrite Ha. simpl. congruence.
    + rewrite decide_False by nia. apply Hlook; [lia|done..].
Qed.

Lemma marshal_length data attrs :
  length (marshal data attrs) = (length data * length attrs)%nat.
Proof.
  unfold marshal.
  destruct (marshal_prefix data attrs
              (replicate (length data * length attrs) Js.zero) (length data))
    as [-> _]; [done|by rewrite length_replicate..].
Qed.

Lemma marshal_lookup data attrs i d row attr :
  data !! i = Some row → attrs !! d = Some attr →
  marshal data attrs !! (i * length attrs + d)%nat = Some (gpu_cell row attr).
Proof.
  intros Hr Ha. unfold marshal.
  destruct (marshal_prefix data attrs
              (replicate (length data * length attrs) Js.zero) (length data))
    as [_ H]; [done|by rewrite length_replicate|].
  apply H; [by eapply lookup_lt_Some|done..].
Qed.

(* ===================================================================== *)
(** ** The kernel                                                         *)
(* ===================================================================== *)

Lemma u32_small (z : Z) : (0 ≤ z < 2 ^ 32)%Z → u32 z = z.
Proof. intros. unfold u32. by apply Z.mod_small. Qed.

Lemma u32_range (z : Z) : (0 ≤ u32 z < 2 ^ 32)%Z.
Proof. unfold u32. apply Z.mod_pos_bound. lia. Qed.

(** A comparison never sets both "strictly better" flags' partners. *)
Lemma dim_loop_exclusive data io jo ds f :
  (Wgsl.i_s_j f = true → Wgsl.j_be_i f = false) →
  (Wgsl.j_s_i f = true → Wgsl.i_be_j f = false) →
  let f' := Wgsl.dim_loop data io jo ds f in
  (Wgsl.i_s_j f' = true → Wgsl.j_be_i f' = false) ∧
  (Wgsl.j_s_i f' = true → Wgsl.i_be_j f' = false).
Proof.
  revert f. induction ds as [|d ds IH]; intros f H1 H2; cbv zeta; simpl; [done|].
  destruct f as [a b c e]; simpl in *.
  destruct (SFltb _ _), (SFltb _ _); simpl;
    repeat match goal with
           | |- context [if ?x then _ else _] => destruct x; simpl
           end; try (apply IH; simpl; auto); simpl; auto.
Qed.

Lemma kernel_exclusive data params i j :
  kernel_dominates data params i j = true →
  kernel_dominated data params i j = false.
Proof.
  unfold kernel_dominates, kernel_dominated, kernel_flags.
  destruct (dim_loop_exclusive data
              (u32 (Z.of_nat i * Wgsl.dimensions params))
              (u32 (Z.of_nat j * Wgsl.dimensions params))
              (seq 0 (Z.to_nat (Wgsl.dimensions params))) Wgsl.flags0)
    as [H1 H2]; [done..|].
  intros [_ Hs]%andb_true_iff. by rewrite (H1 Hs).
Qed.

Lemma pair_step_spec data params i d_by d_score j :
  Wgsl.pair_step data params i (d_by, d_score) j =
  ((if negb (Nat.eqb i j) && kernel_dominated data params i j
    then u32 (d_by + 1) else d_by),
   (if negb (Nat.eqb i j) && kernel_dominates data params i j
    then u32 (d_score + 1) else d_score)).
Proof.
  unfold Wgsl.pair_step, kernel_dominated, kernel_dominates, kernel_flags.
  destruct (Nat.eqb i j); simpl; done.
Qed.

Lemma counters_fold data params i js d_by d_score :
  (0 ≤ d_by)%Z → (0 ≤ d_score)%Z →
  (d_by + Z.of_nat (length js) < 2 ^ 32)%Z →
  (d_score + Z.of_nat (length js) < 2 ^ 32)%Z →
  fold_left (Wgsl.pair_step data params i) js (d_by, d_score) =
  ((d_by + count_true (λ j, negb (Nat.eqb i j) && kernel_dominated data params i j) js)%Z,
   (d_score + count_true (λ j, negb (Nat.eqb i j) && kernel_dominates data params i j) js)%Z).
Proof.
  revert d_by d_score. induction js as [|j js IH]; intros d_by d_score Hb Hs Hbl Hsl.
  - simpl. f_equal; lia.
  - cbn [fold_left count_true]. rewrite pair_step_spec. cbn [length] in Hbl, Hsl.
    destruct (negb (Nat.eqb i j) && kernel_dominated data params i j),
             (negb (Nat.eqb i j) && kernel_dominates data params i j);
      rewrite ?u32_small by lia; rewrite IH by lia; f_equal; lia.
Qed.

Lemma counters_spec data params i :
  (0 ≤ Wgsl.count params < 2 ^ 32)%Z →
  Wgsl.counters data params i =
  (count_true (λ j, negb (Nat.eqb i j) && kernel_dominated data params i j)
              (seq 0 (Z.to_nat (Wgsl.count params))),
   count_true (λ j, negb (Nat.eqb i j) && kernel_dominates data params i j)
              (seq 0 (Z.to_nat (Wgsl.count params)))).
Proof.
  intros Hc. unfold Wgsl.counters.
  rewrite counters_fold by (rewrite ?length_seq; lia). done.
Qed.

(** The two counters of a work-item are non-negative and sum to at most
    [count - 1]. *)
Lemma counters_bound data params i :
  (0 ≤ Wgsl.count params < 2 ^ 32)%Z → (Z.of_nat i < Wgsl.count params)%Z →
  let c := Wgsl.counters data params i in
  (0 ≤ c.1 ∧ 0 ≤ c.2 ∧ c.1 + c.2 ≤ Wgsl.count params - 1)%Z.
Proof.
  intros Hc Hi. cbv zeta. rewrite counters_spec by done. cbn [fst snd].
  split_and!; try apply count_true_nonneg.
  etrans.
  - rewrite Z.add_comm.
    apply (count_true_disjoint_le _ _ (λ j, negb (Nat.eqb i j))).
    + by intros j [? _]%andb_true_iff.
    + by intros j [? _]%andb_true_iff.
    + intros j [_ H]%andb_true_iff. apply andb_false_iff. right.
      by apply kernel_exclusive.
  - rewrite count_true_others, decide_True by lia. lia.
Qed.

(** The flags as "no worse everywhere" and "better somewhere" over the
    dimensions, whether or not the loop left early. *)
Lemma dim_loop_spec data io jo ds f :
  let lt_ij := λ d : nat, SFltb (Wgsl.load data (u32 (io + Z.of_nat d)))
                              (Wgsl.load data (u32 (jo + Z.of_nat d))) in
  let lt_ji := λ d : nat, SFltb (Wgsl.load data (u32 (jo + Z.of_nat d)))
                              (Wgsl.load data (u32 (io + Z.of_nat d))) in
  let f' := Wgsl.dim_loop data io jo ds f in
  Wgsl.i_be_j f' && Wgsl.i_s_j f' =
    (Wgsl.i_be_j f && forallb (λ d, negb (lt_ij d)) ds) &&
    (Wgsl.i_s_j f || existsb lt_ji ds) ∧
  Wgsl.j_be_i f' && Wgsl.j_s_i f' =
    (Wgsl.j_be_i f && forallb (λ d, negb (lt_ji d)) ds) &&
    (Wgsl.j_s_i f || existsb lt_ij ds).
Proof.
  cbv zeta. revert f. induction ds as [|d ds IH]; intros f.
  - simpl. by rewrite !andb_true_r, !orb_false_r.
  - cbn [Wgsl.dim_loop forallb existsb].
    destruct f as [a b c e]; cbn [Wgsl.i_be_j Wgsl.i_s_j Wgsl.j_be_i Wgsl.j_s_i].
    destruct (SFltb (Wgsl.load data (u32 (io + Z.of_nat d)))
                    (Wgsl.load data (u32 (jo + Z.of_nat d)))),
             (SFltb (Wgsl.load data (u32 (jo + Z.of_nat d)))
                    (Wgsl.load data (u32 (io + Z.of_nat d))));
      cbn [Wgsl.i_be_j Wgsl.i_s_j Wgsl.j_be_i Wgsl.j_s_i negb andb orb];
      destruct a, c; cbn [negb andb orb];
      try match goal with
          | |- context [Wgsl.dim_loop data io jo ds ?F] =>
              destruct (IH F) as [-> ->]
          end;
      cbn [Wgsl.i_be_j Wgsl.i_s_j Wgsl.j_be_i Wgsl.j_s_i negb andb orb];
      rewrite ?andb_false_r, ?orb_true_r, ?andb_true_r; try done;
      destruct b, e; cbn [negb andb orb]; done.
Qed.

Lemma forallb_fmap {A B} (f : A → B) (h : B → bool) (l : list A) :
  forallb h (f <$> l) = forallb (h ∘ f) l.
Proof. induction l as [|x l IH]; [done|]. csimpl. by rewrite IH. Qed.

Lemma existsb_fmap {A B} (f : A → B) (h : B → bool) (l : list A) :
  existsb h (f <$> l) = existsb (h ∘ f) l.
Proof. induction l as [|x l IH]; [done|]. csimpl. by rewrite IH. Qed.

Lemma forallb_seq_lookup {A} (l : list A) (h : nat → bool) (g : A → bool) :
  (∀ d x, l !! d = Some x → h d = g x) →
  forallb h (seq 0 (length l)) = forallb g l.
Proof.
  revert h. induction l as [|x l IH]; intros h Hh; [done|].
  cbn [length seq forallb]. rewrite (Hh 0%nat x) by done. f_equal.
  rewrite <- fmap_S_seq, forallb_fmap. apply IH. intros d y Hd. by apply Hh.
Qed.

Lemma existsb_seq_lookup {A} (l : list A) (h : nat → bool) (g : A → bool) :
  (∀ d x, l !! d = Some x → h d = g x) →
  existsb h (seq 0 (length l)) = existsb g l.
Proof.
  revert h. induction l as [|x l IH]; intros h Hh; [done|].
  cbn [length seq existsb]. rewrite (Hh 0%nat x) by done. f_equal.
  rewrite <- fmap_S_seq, existsb_fmap. apply IH. intros d y Hd. by apply Hh.
Qed.

(** On a buffer that holds the marshalled rows, and without index
    wrap-around, the kernel's comparison of work-items [i] and [j] is
    dominance on the marshalled cells of the two records. *)
Lemma kernel_dominates_rows (buf : list spec_float) data attrs i j a b :
  (Z.of_nat (length data) * Z.of_nat (length attrs) < 2 ^ 32)%Z →
  (∀ i d row attr, data !! i = Some row → attrs !! d = Some attr →
     buf !! (i * length attrs + d)%nat = Some (gpu_cell row attr)) →
  data !! i = Some a → data !! j = Some b →
  let params := Wgsl.mkParams (Z.of_nat (length attrs)) (Z.of_nat (length data)) in
  kernel_dominates buf params i j = gpu_dominates a b attrs ∧
  kernel_dominated buf params i j = gpu_dominates b a attrs.
Proof.
  intros Hsz Hbuf Ha Hb params.
  pose proof (lookup_lt_Some _ _ _ Ha) as Hi.
  pose proof (lookup_lt_Some _ _ _ Hb) as Hj.
  assert (Hload : ∀ k row d attr, data !! k = Some row → attrs !! d = Some attr →
            Wgsl.load buf (u32 (u32 (Z.of_nat k * Z.of_nat (length attrs)) + Z.of_nat d))
            = gpu_cell row attr).
  { intros k row d attr Hk Hd.
    pose proof (lookup_lt_Some _ _ _ Hk). pose proof (lookup_lt_Some _ _ _ Hd).
    rewrite (u32_small (Z.of_nat k * _)) by nia.
    rewrite u32_small by nia. unfold Wgsl.load.
    replace (Z.to_nat (Z.of_nat k * Z.of_nat (length attrs) + Z.of_nat d))
      with (k * length attrs + d)%nat by lia.
    by rewrite (Hbuf _ _ _ _ Hk Hd). }
  unfold kernel_dominates, kernel_dominated, kernel_flags, gpu_dominates.
  destruct (dim_loop_spec buf
              (u32 (Z.of_nat i * Wgsl.dimensions params))
              (u32 (Z.of_nat j * Wgsl.dimensions params))
              (seq 0 (Z.to_nat (Wgsl.dimensions params))) Wgsl.flags0)
    as [-> ->].
  cbn [Wgsl.flags0 Wgsl.i_be_j Wgsl.i_s_j Wgsl.j_be_i Wgsl.j_s_i andb orb
       params Wgsl.dimensions].
  rewrite Nat2Z.id.
  split; f_equal.
  - apply forallb_seq_lookup. intros d attr Hd.
    by rewrite (Hload _ _ _ _ Ha Hd), (Hload _ _ _ _ Hb Hd).
  - apply existsb_seq_lookup. intros d attr Hd.
    by rewrite (Hload _ _ _ _ Ha Hd), (Hload _ _ _ _ Hb Hd).
  - apply forallb_seq_lookup. intros d attr Hd.
    by rewrite (Hload _ _ _ _ Ha Hd), (Hload _ _ _ _ Hb Hd).
  - apply existsb_seq_lookup. intros d attr Hd.
    by rewrite (Hload _ _ _ _ Ha Hd), (Hload _ _ _ _ Hb Hd).
Qed.

Lemma forallb_ext_elem {A} (f g : A → bool) (l : list A) :
  (∀ x, x ∈ l → f x = g x) → forallb f l = forallb g l.
Proof.
  induction l as [|x l IH]; intros H; [done|]. simpl.
  rewrite (H x) by (by left). f_equal. apply IH. intros y Hy. apply H. by right.
Qed.

Lemma existsb_ext_elem {A} (f g : A → bool) (l : list A) :
  (∀ x, x ∈ l → f x = g x) → existsb f l = existsb g l.
Proof.
  induction l as [|x l IH]; intros H; [done|]. simpl.
  rewrite (H x) by (by left). f_equal. apply IH. intros y Hy. apply H. by right.
Qed.

Lemma gpu_dominates_faithful data attrs a b :
  f32_order_faithful data attrs → a ∈ data → b ∈ data →
  gpu_dominates a b attrs = dominates a b attrs.
Proof.
  intros Hf Ha Hb. rewrite dominates_spec. unfold gpu_dominates, Js.lt, Js.gt.
  f_equal.
  - apply forallb_ext_elem. intros attr Hin. by rewrite Hf.
  - apply existsb_ext_elem. intros attr Hin. by rewrite Hf.
Qed.

(* ===================================================================== *)
(** ** The module state across a call                                     *)
(* ===================================================================== *)

Lemma wf_world0 : wf_world world0.
Proof. by repeat split. Qed.

Lemma mapAsync_calls_snoc t e :
  mapAsync_calls (t ++ [e]) =
  (mapAsync_calls t + if is_mapAsync e then 1 else 0)%nat.
Proof.
  unfold mapAsync_calls. rewrite List.filter_app, length_app. simpl.
  by destruct (is_mapAsync e).
Qed.

Lemma ensureBuffer_spec {W} (zero : W) buf cur need usage w :
  buf_wf buf cur → (0 ≤ need)%Z → (need mod 4 = 0)%Z →
  ∃ b' n' t',
    ensureBuffer zero buf cur need usage w = (inr (b', n'), with_trace t' w) ∧
    buf_wf (Some b') n' ∧ (need ≤ n')%Z ∧
    mapAsync_calls t' = mapAsync_calls (trace w).
Proof.
  intros Hwf Hn Hm.
  assert (Hnew : buf_wf (Some (createBuffer zero need usage)) need).
  { split; [done|]. simpl. rewrite length_replicate.
    rewrite Z2Nat.id by (apply Z.div_pos; lia).
    pose proof (Z.div_mod need 4). lia. }
  unfold ensureBuffer. destruct buf as [b|].
  - destruct (need <=? cur)%Z eqn:E.
    + exists b, cur, (trace w). split_and!; try done.
      * unfold ret. by destruct w.
      * by apply Z.leb_le.
    + eexists _, _, _. split_and!; [reflexivity|done|lia|].
      simpl. by rewrite !mapAsync_calls_snoc, !Nat.add_0_r.
  - eexists _, _, _. split_and!; [reflexivity|done|lia|].
    simpl. by rewrite !mapAsync_calls_snoc, !Nat.add_0_r.
Qed.

Lemma ensureBuffers_spec nd nr nu nrb w :
  wf_world w →
  (0 ≤ nd)%Z → (nd mod 4 = 0)%Z → (0 ≤ nr)%Z → (nr mod 4 = 0)%Z →
  (0 ≤ nu)%Z → (nu mod 4 = 0)%Z → (0 ≤ nrb)%Z → (nrb mod 4 = 0)%Z →
  ∃ w' d r u rb,
    ensureBuffers nd nr nu nrb w = (inr tt, w') ∧
    gpuStatePromise w' = gpuStatePromise w ∧
    mapAsync_calls (trace w') = mapAsync_calls (trace w) ∧
    dataBuf w' = Some d ∧ resultBuf w' = Some r ∧
    uniformBuf w' = Some u ∧ readbackBuf w' = Some rb ∧
    wf_world w' ∧
    (nd ≤ dataBufBytes w')%Z ∧ (nr ≤ resultBufBytes w')%Z ∧
    (nu ≤ uniformBufBytes w')%Z ∧ (nrb ≤ readbackBufBytes w')%Z.
Proof.
  intros (Hd & Hr & Hu & Hrb) ? ? ? ? ? ? ? ?.
  unfold ensureBuffers, bind, get, modify.
  destruct (ensureBuffer_spec Js.zero (dataBuf w) (dataBufBytes w) nd
              [STORAGE; COPY_DST] w) as (b1 & n1 & t1 & -> & W1 & L1 & M1);
    [done..|].
  cbn [fst snd].
  set (w1 := with_dataBufBytes n1 (with_dataBuf (Some b1) (with_trace t1 w))).
  destruct (ensureBuffer_spec 0%Z (resultBuf w1) (resultBufBytes w1) nr
              [STORAGE; COPY_SRC] w1) as (b2 & n2 & t2 & -> & W2 & L2 & M2);
    [done..|].
  cbn [fst snd].
  set (w2 := with_resultBufBytes n2 (with_resultBuf (Some b2) (with_trace t2 w1))).
  destruct (ensureBuffer_spec 0%Z (uniformBuf w2) (uniformBufBytes w2) nu
              [UNIFORM; COPY_DST] w2) as (b3 & n3 & t3 & -> & W3 & L3 & M3);
    [done..|].
  cbn [fst snd].
  set (w3 := with_uniformBufBytes n3 (with_uniformBuf (Some b3) (with_trace t3 w2))).
  destruct (ensureBuffer_spec 0%Z (readbackBuf w3) (readbackBufBytes w3) nrb
              [COPY_DST; MAP_READ] w3) as (b4 & n4 & t4 & -> & W4 & L4 & M4);
    [done..|].
  cbn [fst snd].
  eexists _, b1, b2, b3, b4. split; [reflexivity|].
  split_and!; try done.
  simpl. rewrite M4. simpl. rewrite M3. simpl. rewrite M2. simpl. by rewrite M1.
Qed.

(** After the dispatch, the two words of every work-item below [count]
    hold its counters. *)
Lemma dispatch_prefix data params (results : list Z) n :
  let out := fold_left (Wgsl.main data params) (seq 0 n) results in
  length out = length results ∧
  ∀ i, (i < n)%nat → (Z.of_nat i < Wgsl.count params)%Z →
       (2 * i + 1 < length results)%nat →
       out !! (2 * i)%nat = Some (Wgsl.counters data params i).1 ∧
       out !! (2 * i + 1)%nat = Some (Wgsl.counters data params i).2.
Proof.
  induction n as [|n [Hlen Hlook]]; cbv zeta.
  - simpl. split; [done|]. intros; lia.
  - rewrite seq_S, fold_left_snoc. cbn [Nat.add].
    set (prev := fold_left (Wgsl.main data params) (seq 0 n) results) in *.
    unfold Wgsl.main at 1 2 3.
    destruct (Wgsl.count params <=? Z.of_nat n)%Z eqn:E.
    + split; [done|]. intros i Hi Hc Hl. apply Z.leb_le in E.
      apply Hlook; [lia|done..].
    + destruct (Wgsl.counters data params n) as [d_by d_score] eqn:Hc.
      split; [by rewrite !length_insert|].
      intros i Hi Hci Hl. destruct (decide (i = n)) as [->|Hne].
      * rewrite Hc. cbn [fst snd]. split.
        -- rewrite list_lookup_insert_ne by lia.
           apply list_lookup_insert_eq. lia.
        -- apply list_lookup_insert_eq. rewrite length_insert. lia.
      * rewrite !list_lookup_insert_ne by lia. apply Hlook; [lia|done..].
Qed.

Lemma dispatch_spec data params (results : list Z) groups :
  length (Wgsl.dispatch data params groups results) = length results ∧
  ∀ i, (i < 64 * groups)%nat → (Z.of_nat i < Wgsl.count params)%Z →
       (2 * i + 1 < length results)%nat →
       Wgsl.dispatch data params groups results !! (2 * i)%nat
         = Some (Wgsl.counters data params i).1 ∧
       Wgsl.dispatch data params groups results !! (2 * i + 1)%nat
         = Some (Wgsl.counters data params i).2.
Proof. apply dispatch_prefix. Qed.

(** Work-items commute: each reads the shared input and writes its own
    two words, so the order in which the device runs them is
    immaterial and the sequential fold of [dispatch] loses nothing. *)
Lemma main_commute data params (results : list Z) g1 g2 :
  Wgsl.main data params (Wgsl.main data params results g1) g2 =
  Wgsl.main data params (Wgsl.main data params results g2) g1.
Proof.
  destruct (decide (g1 = g2)) as [->|Hne]; [done|].
  unfold Wgsl.main.
  destruct (Wgsl.count params <=? Z.of_nat g1)%Z,
           (Wgsl.count params <=? Z.of_nat g2)%Z; try done.
  destruct (Wgsl.counters data params g1) as [b1 s1],
           (Wgsl.counters data params g2) as [b2 s2].
  rewrite (list_insert_insert_ne _ (2 * g2) (2 * g1 + 1)) by lia.
  rewrite (list_insert_insert_ne _ (2 * g2) (2 * g1)) by lia.
  rewrite (list_insert_insert_ne _ (2 * g2 + 1) (2 * g1 + 1)) by lia.
  rewrite (list_insert_insert_ne _ (2 * g2 + 1) (2 * g1)) by lia.
  done.
Qed.

Lemma dispatch_any_order data params groups (results : list Z) (order : list nat) :
  order ≡ₚ seq 0 (64 * groups) →
  fold_left (Wgsl.main data params) order results
  = Wgsl.dispatch data params groups results.
Proof.
  unfold Wgsl.dispatch. generalize (seq 0 (64 * groups)). intros ids Hp.
  revert results. induction Hp as [|x l l' _ IH|x y l|l l' l'' _ IH1 _ IH2];
    intros results; simpl.
  - done.
  - apply IH.
  - by rewrite main_commute.
  - by rewrite IH1.
Qed.

Lemma uploaded_data_lookup data attrs d i k row attr :
  data !! i = Some row → attrs !! k = Some attr →
  uploaded_data data attrs d !! (i * length attrs + k)%nat
  = Some (gpu_cell row attr).
Proof.
  intros Hr Ha. unfold uploaded_data. apply lookup_app_l_Some.
  by apply marshal_lookup.
Qed.

Lemma readback_words_lookup data attrs d r rb i :
  (Z.of_nat (length data) < 2 ^ 32)%Z →
  (Z.of_nat (length data) * 8 ≤ Z.of_nat (length (buf_words r)) * 4)%Z →
  (i < length data)%nat →
  readback_words data attrs d r rb !! (i * 2)%nat
    = Some (Wgsl.counters (uploaded_data data attrs d) (call_params data attrs) i).1 ∧
  readback_words data attrs d r rb !! (i * 2 + 1)%nat
    = Some (Wgsl.counters (uploaded_data data attrs d) (call_params data attrs) i).2.
Proof.
  intros Hn Hcap Hi. unfold readback_words. cbv zeta.
  destruct (dispatch_spec (uploaded_data data attrs d) (call_params data attrs)
              (buf_words r) (Z.to_nat ((Z.of_nat (length data) + 63) / 64)))
    as [Hlen Hlook].
  assert (Hn2 : Z.to_nat (Z.of_nat (length data) * 8 / 4) = (2 * length data)%nat).
  { replace (Z.of_nat (length data) * 8)%Z with (Z.of_nat (2 * length data) * 4)%Z
      by lia.
    rewrite Z.div_mul by lia. apply Nat2Z.id. }
  rewrite Hn2.
  assert (Hgroups : (i < 64 * Z.to_nat ((Z.of_nat (length data) + 63) / 64))%nat).
  { pose proof (Z.div_mod (Z.of_nat (length data) + 63) 64).
    pose proof (Z.mod_pos_bound (Z.of_nat (length data) + 63) 64).
    assert (0 ≤ (Z.of_nat (length data) + 63) / 64)%Z by (apply Z.div_pos; lia).
    lia. }
  specialize (Hlook i Hgroups).
  destruct Hlook as [H1 H2].
  { unfold call_params. cbn [Wgsl.count]. rewrite u32_small by lia. lia. }
  { lia. }
  replace (i * 2)%nat with (2 * i)%nat by lia.
  replace (2 * i + 1)%nat with (2 * i + 1)%nat by lia.
  split.
  - rewrite lookup_app_l by (rewrite length_take, Hlen; lia).
    rewrite lookup_take_lt by lia. done.
  - rewrite lookup_app_l by (rewrite length_take, Hlen; lia).
    rewrite lookup_take_lt by lia. done.
Qed.

Lemma getGPUState_frame env w p w1 :
  getGPUState env w = (p, w1) →
  gpuStatePromise w1 = Some p ∧
  dataBuf w1 = dataBuf w ∧ dataBufBytes w1 = dataBufBytes w ∧
  resultBuf w1 = resultBuf w ∧ resultBufBytes w1 = resultBufBytes w ∧
  uniformBuf w1 = uniformBuf w ∧ uniformBufBytes w1 = uniformBufBytes w ∧
  readbackBuf w1 = readbackBuf w ∧ readbackBufBytes w1 = readbackBufBytes w ∧
  mapAsync_calls (trace w1) = mapAsync_calls (trace w).
Proof.
  unfold getGPUState. destruct (gpuStatePromise w) as [q|] eqn:E.
  - intros [= <- <-]. by split_and!.
  - intros [= <- <-]. simpl. split_and!; try done.
    by rewrite mapAsync_calls_snoc, Nat.add_0_r.
Qed.

Lemma getGPUState_wf env w p w1 :
  getGPUState env w = (p, w1) → wf_world w → wf_world w1.
Proof.
  intros H (H1 & H2 & H3 & H4). unfold wf_world.
  apply getGPUState_frame in H as (_ & -> & -> & -> & -> & -> & -> & -> & -> & _).
  by split_and!.
Qed.

Lemma gpu_run_empty env data attrs w :
  data = [] ∨ attrs = [] →
  computeSkylineWebGPU env data attrs w = (inr (empty_result env), w).
Proof.
  intros H. unfold computeSkylineWebGPU.
  replace (Nat.eqb (length data) 0 || Nat.eqb (length attrs) 0) with true; [done|].
  destruct H as [-> | ->]; simpl; [done|]. by rewrite orb_true_r.
Qed.

Lemma nonempty_guard (data : list DataPoint) (attrs : list AttributeConfig) :
  data ≠ [] → attrs ≠ [] →
  Nat.eqb (length data) 0 || Nat.eqb (length attrs) 0 = false.
Proof. by destruct data, attrs. Qed.

Lemma gpu_run_no_enums env data attrs w :
  data ≠ [] → attrs ≠ [] → env_enums env = false →
  computeSkylineWebGPU env data attrs w = (inl EnumsUnavailable, w).
Proof.
  intros Hd Ha He. unfold computeSkylineWebGPU.
  rewrite nonempty_guard by done. unfold bind at 1, getWebGPUEnums. by rewrite He.
Qed.

Lemma gpu_run_no_device env data attrs w e w1 :
  data ≠ [] → attrs ≠ [] → env_enums env = true →
  getGPUState env w = (inl e, w1) →
  computeSkylineWebGPU env data attrs w = (inl e, w1).
Proof.
  intros Hd Ha He Hg. unfold computeSkylineWebGPU.
  rewrite nonempty_guard by done. unfold bind at 1, getWebGPUEnums.
  rewrite He. unfold ret at 1. unfold bind at 1. by rewrite Hg.
Qed.

Lemma gpu_run_ready env data attrs w g w1 :
  wf_world w → data ≠ [] → attrs ≠ [] → env_enums env = true →
  getGPUState env w = (inr g, w1) →
  ∃ d r rb out w' pre,
    computeSkylineWebGPU env data attrs w = (out, w') ∧
    wf_world w' ∧ gpuStatePromise w' = gpuStatePromise w1 ∧
    (Z.of_nat (length data) * 8 ≤ Z.of_nat (length (buf_words r)) * 4)%Z ∧
    mapAsync_calls pre = mapAsync_calls (trace w) ∧
    if env_mapAsync env 0%nat
    then out = inr (result_of env data (readback_words data attrs d r rb)) ∧
         trace w' = pre ++ [EvMapAsync true; EvUnmap]
    else if env_mapAsync env 1%nat
    then out = inr (result_of env data (readback_words data attrs d r rb)) ∧
         trace w' = pre ++ [EvMapAsync false; EvUnmap; EvMapAsync true; EvUnmap]
    else out = inl MapAsyncRejected ∧
         trace w' = pre ++ [EvMapAsync false; EvUnmap; EvMapAsync false].
Proof.
  intros Hwf Hd Ha He Hg.
  pose proof (getGPUState_wf _ _ _ _ Hg Hwf) as Hwf1.
  pose proof (getGPUState_frame _ _ _ _ Hg) as (_ & _ & _ & _ & _ & _ & _ & _ & _ & Hm1).
  unfold computeSkylineWebGPU.
  rewrite nonempty_guard by done. unfold bind at 1, getWebGPUEnums.
  rewrite He. unfold ret at 1. unfold bind at 1. rewrite Hg.
  unfold bind at 1.
  destruct (ensureBuffers_spec
              (4 * Z.of_nat (length (marshal data attrs)))
              (Z.of_nat (length data) * 8) 8 (Z.of_nat (length data) * 8) w1)
    as (w2 & d & r & u & rb & -> & Hgp & Hm2 & Hdb & Hrb & Hub & Hrbb & Hwf2
        & Cd & Cr & Cu & Crb);
    [done|try lia..|].
  { by rewrite Z.mul_comm, Z.mod_mul. }
  { replace (Z.of_nat (length data) * 8)%Z with (Z.of_nat (length data) * 2 * 4)%Z by lia.
    by rewrite Z.mod_mul. }
  { done. }
  { replace (Z.of_nat (length data) * 8)%Z with (Z.of_nat (length data) * 2 * 4)%Z by lia.
    by rewrite Z.mod_mul. }
  destruct w2 as [gp db dbb rbuf rbb ub ubb rdb rdbb tr].
  destruct Hwf2 as (Wd & Wr & Wu & Wrb). simpl in *. subst db rbuf ub rdb.
  destruct Wd as [Sd Ld], Wr as [Sr Lr], Wu as [Su Lu], Wrb as [Srb Lrb].
  exists d, r, rb.
  assert (Hn2 : Z.to_nat (Z.of_nat (length data) * 8 / 4) = (2 * length data)%nat).
  { replace (Z.of_nat (length data) * 8)%Z with (Z.of_nat (2 * length data) * 4)%Z
      by lia.
    rewrite Z.div_mul by lia. apply Nat2Z.id. }
  assert (Hwf' : ∀ t,
    wf_world
      (mkWorld gp
         (Some (writeWords (marshal data attrs) d)) dbb
         (Some (mkBuffer (buf_size r) (buf_usage r)
            (Wgsl.dispatch (uploaded_data data attrs d)
               (params_of (buf_words (writeWords
                  [u32 (Z.of_nat (length attrs)); u32 (Z.of_nat (length data))] u)))
               (Z.to_nat ((Z.of_nat (length data) + 63) / 64)) (buf_words r)))) rbb
         (Some (writeWords
                  [u32 (Z.of_nat (length attrs)); u32 (Z.of_nat (length data))] u)) ubb
         (Some (mkBuffer (buf_size rb) (buf_usage rb)
                  (readback_words data attrs d r rb))) rdbb t)).
  { intros t. split_and!; simpl; (split; [done|]).
    - rewrite length_app, length_drop. lia.
    - rewrite (proj1 (dispatch_spec _ _ _ _)). done.
    - rewrite length_drop. simpl. lia.
    - unfold readback_words. cbv zeta.
      rewrite length_app, length_take, length_drop, Hn2.
      rewrite (proj1 (dispatch_spec _ _ _ _)). lia. }
  assert (Hpre : mapAsync_calls
            (((((tr ++ [EvWriteBuffer (length (marshal data attrs))]) ++
               [EvWriteBuffer 2]) ++
               [EvDispatch (Z.to_nat ((Z.of_nat (length data) + 63) / 64))]) ++
               [EvCopy (Z.of_nat (length data) * 8)]) ++ [EvSubmit])
          = mapAsync_calls (trace w)).
  { rewrite !mapAsync_calls_snoc. simpl. lia. }
  destruct (env_mapAsync env 0%nat) eqn:E0; [|destruct (env_mapAsync env 1%nat) eqn:E1];
    cbv [writeBuffer_data writeBuffer_uniform submit mapReadback mappedWords unmap
         bind emit modify get ret try_catch mapAsync throw];
    rewrite ?E0, ?E1;
    cbn [trace dataBuf resultBuf uniformBuf readbackBuf with_trace with_dataBuf
         with_uniformBuf fmap option_fmap option_map gpuStatePromise dataBufBytes
         resultBufBytes uniformBufBytes readbackBufBytes run_pass run_copy
         with_resultBuf with_readbackBuf buf_words buf_size buf_usage length];
    try match goal with
        | |- context [decode data ?X] =>
            change X with (readback_words data attrs d r rb);
            unfold result_of;
            destruct (decode data (readback_words data attrs d r rb))
              as [[sky sc] dby]
        end;
    eexists _, _, _; (split; [reflexivity|]);
    (split; [exact (Hwf' _)|]); (split; [done|]); (split; [lia|]);
    (split; [exact Hpre|]); (split; [reflexivity|]);
    cbn [trace with_trace with_readbackBuf with_resultBuf with_uniformBuf
         with_dataBuf]; rewrite <- ?app_assoc; reflexivity.
Qed.

(* ===================================================================== *)
(** ** Decoding                                                           *)
(* ===================================================================== *)

Lemma elem_of_add (k x : string) (s : gset string) :
  k ∈ ({[x]} ∪ s : gset string) ↔ k = x ∨ k ∈ s.
Proof. by rewrite elem_of_union, elem_of_singleton. Qed.

Lemma unique_ids_inj data i j a b :
  unique_ids data → data !! i = Some a → data !! j = Some b →
  id a = id b → i = j.
Proof.
  intros Hu Ha Hb Hid. eapply (NoDup_lookup (id <$> data)); [exact Hu| |].
  - rewrite list_lookup_fmap, Ha. simpl. by rewrite Hid.
  - by rewrite list_lookup_fmap, Hb.
Qed.

Lemma decode_step_spec data res sky sc dby i a :
  data !! i = Some a →
  decode_step data res (sky, sc, dby) i =
  ((if (res_by res i =? 0)%Z then {[id a]} ∪ sky else sky),
   assign (id a) (res_score res i) sc, assign (id a) (res_by res i) dby).
Proof. intros Ha. unfold decode_step. by rewrite Ha. Qed.

Lemma decode_frame data res k ixs (sky sky' : gset string)
    (sc dby sc' dby' : gmap string Z) :
  (∀ i a, i ∈ ixs → data !! i = Some a → id a ≠ k) →
  fold_left (decode_step data res) ixs (sky, sc, dby) = (sky', sc', dby') →
  sc' !! k = sc !! k ∧ dby' !! k = dby !! k ∧ (k ∈ sky' ↔ k ∈ sky).
Proof.
  revert sky sc dby. induction ixs as [|i ixs IH]; intros sky sc dby Hk.
  - by intros [= <- <- <-].
  - cbn [fold_left]. destruct (data !! i) as [a|] eqn:Ha.
    + rewrite (decode_step_spec _ _ _ _ _ _ _ Ha). intros Hf.
      apply IH in Hf as (-> & -> & ->).
      2:{ intros i' a' Hi'. apply Hk. by right. }
      assert (id a ≠ k) by (eapply Hk; [by left|done]).
      rewrite !lookup_assign, !decide_False by (by intros [? _]).
      split_and!; try done.
      destruct (res_by res i =? 0)%Z; [|done]. rewrite elem_of_add.
      split; [by intros [?|?]|by right].
    + unfold decode_step at 2. rewrite Ha. apply IH.
      intros i' a' Hi'. apply Hk. by right.
Qed.

Lemma decode_proto data res ixs (sky sky' : gset string)
    (sc dby sc' dby' : gmap string Z) :
  fold_left (decode_step data res) ixs (sky, sc, dby) = (sky', sc', dby') →
  sc' !! PROTO = sc !! PROTO ∧ dby' !! PROTO = dby !! PROTO.
Proof.
  revert sky sc dby. induction ixs as [|i ixs IH]; intros sky sc dby.
  - by intros [= <- <- <-].
  - cbn [fold_left]. destruct (data !! i) as [a|] eqn:Ha.
    + rewrite (decode_step_spec _ _ _ _ _ _ _ Ha). intros Hf.
      apply IH in Hf as (-> & ->).
      rewrite !lookup_assign, !decide_False by (intros [_ Hn]; by apply Hn). done.
    + unfold decode_step at 2. rewrite Ha. apply IH.
Qed.

Lemma decode_record_sky data res ixs i a (sky sky' : gset string)
    (sc dby sc' dby' : gmap string Z) :
  unique_ids data → NoDup ixs → i ∈ ixs → data !! i = Some a →
  fold_left (decode_step data res) ixs (sky, sc, dby) = (sky', sc', dby') →
  id a ∈ sky' ↔ id a ∈ sky ∨ res_by res i = 0%Z.
Proof.
  intros Hu. revert sky sc dby.
  induction ixs as [|i0 ixs IH]; intros sky sc dby Hnd Hi Ha.
  - by apply elem_of_nil in Hi.
  - apply NoDup_cons in Hnd as [Hni Hnd]. cbn [fold_left].
    destruct (decide (i0 = i)) as [->|Hne].
    + rewrite (decode_step_spec _ _ _ _ _ _ _ Ha). intros Hf.
      apply (decode_frame _ _ (id a)) in Hf as (_ & _ & ->).
      2:{ intros i' a' Hi' Ha' Hid.
          assert (i' = i) by (by eapply unique_ids_inj). by subst. }
      destruct (res_by res i =? 0)%Z eqn:E.
      * apply Z.eqb_eq in E. rewrite elem_of_add. split; [by right|by left].
      * apply Z.eqb_neq in E. split; [by left|by intros [?|?]].
    + apply elem_of_cons in Hi as [->|Hi]; [done|].
      destruct (data !! i0) as [a0|] eqn:Ha0.
      * rewrite (decode_step_spec _ _ _ _ _ _ _ Ha0). intros Hf.
        apply IH in Hf as ->; try done.
        assert (id a0 ≠ id a).
        { intros Hid. apply Hne. by eapply unique_ids_inj. }
        destruct (res_by res i0 =? 0)%Z; [|done]. rewrite elem_of_add.
        split; [intros [[?|?]|?]; by auto|intros [?|?]; by auto].
      * unfold decode_step at 2. rewrite Ha0. by apply IH.
Qed.

Lemma decode_record data res ixs i a (sky sky' : gset string)
    (sc dby sc' dby' : gmap string Z) :
  unique_ids data → NoDup ixs → i ∈ ixs → data !! i = Some a → id a ≠ PROTO →
  fold_left (decode_step data res) ixs (sky, sc, dby) = (sky', sc', dby') →
  sc' !! id a = Some (res_score res i) ∧
  dby' !! id a = Some (res_by res i).
Proof.
  intros Hu. revert sky sc dby.
  induction ixs as [|i0 ixs IH]; intros sky sc dby Hnd Hi Ha Hp.
  - by apply elem_of_nil in Hi.
  - apply NoDup_cons in Hnd as [Hni Hnd]. cbn [fold_left].
    destruct (decide (i0 = i)) as [->|Hne].
    + rewrite (decode_step_spec _ _ _ _ _ _ _ Ha). intros Hf.
      apply (decode_frame _ _ (id a)) in Hf as (-> & -> & _).
      2:{ intros i' a' Hi' Ha' Hid.
          assert (i' = i) by (by eapply unique_ids_inj). by subst. }
      by rewrite !lookup_assign, !decide_True by done.
    + apply elem_of_cons in Hi as [->|Hi]; [done|].
      destruct (data !! i0) as [a0|] eqn:Ha0.
      * rewrite (decode_step_spec _ _ _ _ _ _ _ Ha0). intros Hf.
        by apply IH in Hf.
      * unfold decode_step at 2. rewrite Ha0. by apply IH.
Qed.

Lemma result_of_record_sky env data res i a :
  unique_ids data → data !! i = Some a →
  id a ∈ skylineIds (result_of env data res) ↔ res_by res i = 0%Z.
Proof.
  intros Hu Ha. unfold result_of, decode.
  destruct (fold_left _ _ _) as [[sky sc] dby] eqn:Hf. simpl.
  eapply decode_record_sky in Hf as ->; try done.
  - split; [by intros [?%not_elem_of_empty|?]|by right].
  - apply NoDup_seq.
  - apply elem_of_seq. apply lookup_lt_Some in Ha. lia.
Qed.

Lemma result_of_record env data res i a :
  unique_ids data → data !! i = Some a → id a ≠ PROTO →
  let r := result_of env data res in
  dominanceScores r !! id a = Some (res_score res i) ∧
  dominatedBy r !! id a = Some (res_by res i) ∧
  (id a ∈ skylineIds r ↔ res_by res i = 0%Z).
Proof.
  intros Hu Ha Hp r.
  assert (Hm : dominanceScores r !! id a = Some (res_score res i) ∧
               dominatedBy r !! id a = Some (res_by res i)).
  { unfold r, result_of, decode.
    destruct (fold_left _ _ _) as [[sky sc] dby] eqn:Hf. simpl.
    eapply decode_record in Hf; try done; [apply NoDup_seq|].
    apply elem_of_seq. apply lookup_lt_Some in Ha. lia. }
  destruct Hm as [-> ->]. split_and!; try done. by apply result_of_record_sky.
Qed.

Lemma result_of_absent env data res k :
  k ∉ id <$> data →
  let r := result_of env data res in
  dominanceScores r !! k = None ∧ dominatedBy r !! k = None ∧ k ∉ skylineIds r.
Proof.
  intros Hk. unfold result_of, decode.
  destruct (fold_left _ _ _) as [[sky sc] dby] eqn:Hf. cbv zeta. simpl.
  eapply (decode_frame _ _ k) in Hf as (-> & -> & ->).
  - split_and!; try done.
  - intros i a _ Ha <-. apply Hk. apply list_elem_of_fmap. exists a.
    split; [done|]. by eapply list_elem_of_lookup_2.
Qed.

Lemma result_of_proto env data res :
  let r := result_of env data res in
  dominanceScores r !! PROTO = None ∧ dominatedBy r !! PROTO = None.
Proof.
  unfold result_of, decode.
  destruct (fold_left _ _ _) as [[sky sc] dby] eqn:Hf. cbv zeta. simpl.
  by apply decode_proto in Hf as (-> & ->).
Qed.

(* ===================================================================== *)
(** ** What a call of the parallel backend returns                        *)
(* ===================================================================== *)

Lemma gpu_returns_cases env data attrs w r w' :
  wf_world w →
  computeSkylineWebGPU env data attrs w = (inr r, w') →
  ((data = [] ∨ attrs = []) ∧ r = empty_result env) ∨
  (data ≠ [] ∧ attrs ≠ [] ∧ ready env w = true ∧
   ∃ d rbuf rb,
     r = result_of env data (readback_words data attrs d rbuf rb) ∧
     (Z.of_nat (length data) * 8 ≤ Z.of_nat (length (buf_words rbuf)) * 4)%Z).
Proof.
  intros Hwf Hrun.
  destruct (decide (data = [])) as [Hd|Hd].
  { left. rewrite gpu_run_empty in Hrun by auto. split; [auto|congruence]. }
  destruct (decide (attrs = [])) as [Ha|Ha].
  { left. rewrite gpu_run_empty in Hrun by auto. split; [auto|congruence]. }
  right. split; [done|]. split; [done|].
  destruct (env_enums env) eqn:He.
  2:{ rewrite gpu_run_no_enums in Hrun by done. discriminate. }
  destruct (getGPUState env w) as [[e|g] w1] eqn:Hg.
  { rewrite (gpu_run_no_device _ _ _ _ _ _ Hd Ha He Hg) in Hrun. discriminate. }
  destruct (gpu_run_ready _ _ _ _ _ _ Hwf Hd Ha He Hg)
    as (d & rbuf & rb & out & w'' & pre & Hrun' & _ & _ & Hcap & _ & Hcases).
  rewrite Hrun' in Hrun. injection Hrun as -> ->.
  unfold ready. rewrite He, Hg. cbn [fst andb].
  destruct (env_mapAsync env 0%nat).
  - destruct Hcases as [[= ->] _]. split; [done|]. by exists d, rbuf, rb.
  - destruct (env_mapAsync env 1%nat).
    + destruct Hcases as [[= ->] _]. split; [done|]. by exists d, rbuf, rb.
    + by destruct Hcases as [? _].
Qed.

Lemma gpu_ready_returns env data attrs w :
  wf_world w → data ≠ [] → attrs ≠ [] → ready env w = true →
  ∃ r w', computeSkylineWebGPU env data attrs w = (inr r, w') ∧ wf_world w'.
Proof.
  intros Hwf Hd Ha. unfold ready.
  destruct (env_enums env) eqn:He; [|done].
  destruct (getGPUState env w) as [[e|g] w1] eqn:Hg; [done|]. cbn [fst andb].
  intros Hmap.
  destruct (gpu_run_ready _ _ _ _ _ _ Hwf Hd Ha He Hg)
    as (d & rbuf & rb & out & w' & pre & Hrun & Hwf' & _ & _ & _ & Hcases).
  destruct (env_mapAsync env 0%nat).
  - destruct Hcases as [-> _]. eauto.
  - destruct (env_mapAsync env 1%nat); [|done].
    destruct Hcases as [-> _]. eauto.
Qed.

(** With unique ids, a record is in the skyline of a returned result
    exactly when the kernel left it the dominated-by counter 0. *)
Lemma gpu_record_sky env data attrs w r w' i a :
  wf_world w → unique_ids data → attrs ≠ [] →
  (Z.of_nat (length data) < 2 ^ 32)%Z →
  computeSkylineWebGPU env data attrs w = (inr r, w') →
  data !! i = Some a →
  ∃ d, let c := Wgsl.counters (uploaded_data data attrs d) (call_params data attrs) i in
    id a ∈ skylineIds r ↔ c.1 = 0%Z.
Proof.
  intros Hwf Hu Ha Hlen Hrun Hi.
  destruct (gpu_returns_cases _ _ _ _ _ _ Hwf Hrun)
    as [[[->| ->] _]|(_ & _ & _ & d & rbuf & rb & -> & Hcap)];
    [by rewrite lookup_nil in Hi|done|].
  exists d. cbv zeta.
  destruct (readback_words_lookup data attrs d rbuf rb i Hlen Hcap) as [H1 H2].
  { by eapply lookup_lt_Some. }
  rewrite (result_of_record_sky env data _ i a Hu Hi).
  unfold res_by. by rewrite H1.
Qed.

(** With unique ids, the entries of a returned result are the two
    counters the kernel left for each record whose id is not
    [__proto__]. *)
Lemma gpu_record env data attrs w r w' i a :
  wf_world w → unique_ids data → attrs ≠ [] →
  (Z.of_nat (length data) < 2 ^ 32)%Z →
  computeSkylineWebGPU env data attrs w = (inr r, w') →
  data !! i = Some a → id a ≠ PROTO →
  ∃ d, let c := Wgsl.counters (uploaded_data data attrs d) (call_params data attrs) i in
    dominanceScores r !! id a = Some c.2 ∧
    dominatedBy r !! id a = Some c.1 ∧
    (id a ∈ skylineIds r ↔ c.1 = 0%Z).
Proof.
  intros Hwf Hu Ha Hlen Hrun Hi Hp.
  destruct (gpu_returns_cases _ _ _ _ _ _ Hwf Hrun)
    as [[[->| ->] _]|(_ & _ & _ & d & rbuf & rb & -> & Hcap)];
    [by rewrite lookup_nil in Hi|done|].
  exists d. cbv zeta.
  destruct (readback_words_lookup data attrs d rbuf rb i Hlen Hcap) as [H1 H2].
  { by eapply lookup_lt_Some. }
  destruct (result_of_record env data (readback_words data attrs d rbuf rb) i a
              Hu Hi Hp) as (-> & -> & ->).
  unfold res_score, res_by. rewrite H1, H2. done.
Qed.

Lemma gpu_absent env data attrs w r w' k :
  wf_world w →
  computeSkylineWebGPU env data attrs w = (inr r, w') →
  k ∉ id <$> data →
  dominanceScores r !! k = None ∧ dominatedBy r !! k = None ∧ k ∉ skylineIds r.
Proof.
  intros Hwf Hrun Hk.
  destruct (gpu_returns_cases _ _ _ _ _ _ Hwf Hrun)
    as [[_ ->]|(_ & _ & _ & d & rbuf & rb & -> & _)]; [|by apply result_of_absent].
  simpl. by split_and!.
Qed.

(** Neither counter object of a returned result has an own property
    [__proto__]. *)
Lemma gpu_proto env data attrs w r w' :
  wf_world w →
  computeSkylineWebGPU env data attrs w = (inr r, w') →
  dominanceScores r !! PROTO = None ∧ dominatedBy r !! PROTO = None.
Proof.
  intros Hwf Hrun.
  destruct (gpu_returns_cases _ _ _ _ _ _ Hwf Hrun)
    as [[_ ->]|(_ & _ & _ & d & rbuf & rb & -> & _)]; [|by apply result_of_proto].
  simpl. by split_and!.
Qed.

Lemma count_true_ext (f g : nat → bool) js :
  (∀ j, j ∈ js → f j = g j) → count_true f js = count_true g js.
Proof.
  induction js as [|j js IH]; intros H; [done|]. simpl.
  rewrite (H j) by (by left). f_equal. apply IH. intros j' Hj'. apply H. by right.
Qed.

(** Without index wrap-around and with a faithful marshalling, the
    kernel's counters for record [i] are the serial scan's counts. *)
Lemma counters_rows data attrs d i :
  (Z.of_nat (length data) * Z.of_nat (length attrs) < 2 ^ 32)%Z →
  attrs ≠ [] → f32_order_faithful data attrs → (i < length data)%nat →
  Wgsl.counters (uploaded_data data attrs d) (call_params data attrs) i =
  (row_dominatedBy data attrs i, row_score data attrs i).
Proof.
  intros Hsz Hne Hf Hi.
  assert (0 < length attrs)%nat by (destruct attrs; [done|simpl; lia]).
  assert (Hp : call_params data attrs =
               Wgsl.mkParams (Z.of_nat (length attrs)) (Z.of_nat (length data))).
  { unfold call_params. rewrite !u32_small by nia. done. }
  rewrite Hp, counters_spec by (cbn [Wgsl.count]; nia).
  cbn [Wgsl.count]. rewrite Nat2Z.id.
  unfold row_dominatedBy, row_score.
  destruct (data !! i) as [a|] eqn:Ha; [|apply lookup_ge_None in Ha; lia].
  f_equal; apply count_true_ext; intros j Hj%elem_of_seq;
    unfold dominated_at, dominating_at;
    (destruct (data !! j) as [b|] eqn:Hb; [|apply lookup_ge_None in Hb; lia]);
    destruct (kernel_dominates_rows (uploaded_data data attrs d) data attrs i j a b)
      as [Hk1 Hk2]; try done;
    try (intros; by apply uploaded_data_lookup);
    f_equal; rewrite ?Hk1, ?Hk2;
    apply (gpu_dominates_faithful data); try done;
    by eapply list_elem_of_lookup_2.
Qed.

(** The two backends agree on inputs with unique ids whose marshalling
    is faithful and does not wrap. *)
Lemma backends_agree now env data attrs w r w' :
  wf_world w → unique_ids data → attrs ≠ [] →
  (Z.of_nat (length data) * Z.of_nat (length attrs) < 2 ^ 32)%Z →
  f32_order_faithful data attrs →
  computeSkylineWebGPU env data attrs w = (inr r, w') →
  skylineIds r = skylineIds (computeSkylineCPU now data attrs) ∧
  dominanceScores r = dominanceScores (computeSkylineCPU now data attrs) ∧
  dominatedBy r = dominatedBy (computeSkylineCPU now data attrs).
Proof.
  intros Hwf Hu Hne Hsz Hf Hrun.
  assert (0 < length attrs)%nat by (destruct attrs; [done|simpl; lia]).
  assert (Hlen : (Z.of_nat (length data) < 2 ^ 32)%Z) by nia.
  assert (Hkey : ∀ k,
            dominanceScores r !! k
              = dominanceScores (computeSkylineCPU now data attrs) !! k ∧
            dominatedBy r !! k
              = dominatedBy (computeSkylineCPU now data attrs) !! k ∧
            (k ∈ skylineIds r ↔ k ∈ skylineIds (computeSkylineCPU now data attrs))).
  { intros k. destruct (decide (k ∈ id <$> data)) as [Hin|Hnin].
    - apply list_elem_of_fmap in Hin as (a & -> & Hin).
      apply list_elem_of_lookup in Hin as [i Hi].
      assert (Hsky : id a ∈ skylineIds r
                     ↔ id a ∈ skylineIds (computeSkylineCPU now data attrs)).
      { destruct (gpu_record_sky _ _ _ _ _ _ _ _ Hwf Hu Hne Hlen Hrun Hi)
          as (d & Hsky).
        rewrite counters_rows in Hsky by (try done; by eapply lookup_lt_Some).
        cbn [fst] in Hsky. by rewrite Hsky, cpu_record_sky. }
      destruct (decide (id a = PROTO)) as [Hp|Hp].
      + rewrite Hp in *.
        destruct (gpu_proto _ _ _ _ _ _ Hwf Hrun) as (-> & ->).
        destruct (cpu_proto now data attrs) as (-> & ->). done.
      + destruct (gpu_record _ _ _ _ _ _ _ _ Hwf Hu Hne Hlen Hrun Hi Hp)
          as (d & Hs & Hb & _).
        rewrite counters_rows in Hs, Hb
          by (try done; by eapply lookup_lt_Some).
        cbn [fst snd] in *.
        destruct (cpu_record now data attrs i a Hu Hi Hp) as (Hs' & Hb' & _).
        rewrite Hs, Hb, Hs', Hb'. done.
    - destruct (gpu_absent _ _ _ _ _ _ k Hwf Hrun Hnin) as (-> & -> & Hg).
      destruct (cpu_lookup now data attrs) as (Hs & Hb & Hsky).
      rewrite Hs, Hb, !decide_False by (by intros [? _]). split_and!; try done.
      split; [done|]. rewrite Hsky. intros (i & a & Hi & <- & _).
      exfalso. apply Hnin. apply list_elem_of_fmap. exists a. split; [done|].
      by eapply list_elem_of_lookup_2. }
  split_and!.
  - apply set_eq. intros k. apply Hkey.
  - apply map_eq. intros k. apply Hkey.
  - apply map_eq. intros k. apply Hkey.
Qed.

(* ===================================================================== *)
(** ** Values that survive the conversion to binary32                     *)
(* ===================================================================== *)

Lemma strip_zeros_shift k m q :
  strip_zeros k m = Some q → m = Nat.iter k xO q.
Proof.
  revert m. induction k as [|k IH]; intros m; simpl.
  - by intros [= ->].
  - destruct m as [m|m|]; try discriminate. intros H. by apply IH in H as ->.
Qed.

Lemma digits2_pos_shift k q :
  Zpos (digits2_pos (Nat.iter k xO q)) = (Zpos (digits2_pos q) + Z.of_nat k)%Z.
Proof. induction k as [|k IH]; simpl; [lia|]. rewrite Pos2Z.inj_succ, IH. lia. Qed.

(** Rounding a normal binary32 number that is written as a double gives
    that number, with mantissa and exponent rescaled by 29 bits. *)
Lemma fround_exact s q e :
  digits2_pos q = 24%positive → (-149 ≤ e + 29 ≤ 104)%Z →
  Js.fround (S754_finite s (Nat.iter 29 xO q) e) = S754_finite s q (e + 29).
Proof.
  intros Hq He. unfold Js.fround, binary_round.
  assert (Hd : Zpos (digits2_pos (Nat.iter 29 xO q)) = 53%Z).
  { rewrite digits2_pos_shift, Hq. done. }
  rewrite Hd.
  assert (Hfexp : fexp 24 128 (53 + e) = (e + 29)%Z).
  { unfold fexp, emin. lia. }
  rewrite Hfexp. unfold shl_align.
  replace (e + 29 - e)%Z with 29%Z by lia.
  unfold binary_round_aux, shr_fexp. cbn [Zdigits2]. rewrite Hd, Hfexp.
  replace (e + 29 - e)%Z with 29%Z by lia.
  cbn [shr_record_of_loc shr]. 
  change (SpecFloat.iter_pos shr_1 29 {| shr_m := Z.pos (Nat.iter 29 xO q); shr_r := false; shr_s := false |})
    with {| shr_m := Z.pos q; shr_r := false; shr_s := false |}.
  cbn [shr_m loc_of_shr_record round_nearest_even Zdigits2 shr_record_of_loc].
  rewrite Hq.
  assert (Hfexp2 : fexp 24 128 (24 + (e + 29)) = (e + 29)%Z).
  { unfold fexp, emin. lia. }
  rewrite Hfexp2. rewrite Z.sub_diag. cbn [shr shr_m].
  destruct (e + 29 <=? 128 - 24)%Z eqn:E; [done|]. apply Z.leb_gt in E. lia.
Qed.

Lemma f32_exact_finite s m e :
  f32_exact (Some (S754_finite s m e)) = true →
  ∃ q, m = Nat.iter 29 xO q ∧ digits2_pos q = 24%positive ∧
       (-149 ≤ e + 29 ≤ 104)%Z.
Proof.
  unfold f32_exact. destruct (strip_zeros 29 m) as [q|] eqn:Hs; [|done].
  intros [[Hq H1%Z.leb_le]%andb_true_iff H2%Z.leb_le]%andb_true_iff.
  exists q. split; [by apply strip_zeros_shift|].
  split; [by apply Pos.eqb_eq|lia].
Qed.

(** On such values the kernel's comparison of the marshalled cells is
    the serial backend's comparison of the doubles. *)
Lemma exact_compare (v1 v2 : option Js.number) :
  f32_exact v1 = true → f32_exact v2 = true →
  SFcompare (Js.fround (if Js.isFinite (Js.Number v1) then Js.Number v1 else Js.zero))
            (Js.fround (if Js.isFinite (Js.Number v2) then Js.Number v2 else Js.zero))
  = SFcompare (Js.or_zero v1) (Js.or_zero v2).
Proof.
  intros H1 H2.
  destruct v1 as [[s1|s1| |s1 m1 e1]|], v2 as [[s2|s2| |s2 m2 e2]|];
    try discriminate; try reflexivity;
    repeat match goal with
           | H : f32_exact (Some (S754_finite _ _ _)) = true |- _ =>
               apply f32_exact_finite in H as (? & -> & ? & ?)
           end;
    cbn [Js.Number Js.isFinite Js.or_zero Js.truthy Js.zero];
    rewrite ?fround_exact by done; try reflexivity.
  cbn [SFcompare]. rewrite (Z.add_comm e1), (Z.add_comm e2), Z.add_compare_mono_l.
  reflexivity.
Qed.

Lemma exact_values_faithful (data : list DataPoint) (attrs : list AttributeConfig) :
  (∀ p attr, p ∈ data → attr ∈ attrs → f32_exact (prop p (key attr)) = true) →
  f32_order_faithful data attrs.
Proof.
  intros H a b attr Ha Hb Hattr. unfold gpu_cell, cpu_val, SFltb.
  by rewrite exact_compare by (by apply H).
Qed.

(** Integers of the dataset's range are such values. *)
Example f32_exact_small_integers :
  forallb (λ z, f32_exact (Some (Js.of_Z z))) (seqZ (-1000) 2001) = true.
Proof. vm_compute. reflexivity. Qed.

(** The invariant of the buffer variables holds after every call,
    whatever its outcome. *)
Lemma computeSkylineWebGPU_wf env data attrs w :
  wf_world w → wf_world (computeSkylineWebGPU env data attrs w).2.
Proof.
  intros Hwf.
  destruct (decide (data = [])) as [Hd|Hd]; [by rewrite gpu_run_empty by auto|].
  destruct (decide (attrs = [])) as [Ha|Ha]; [by rewrite gpu_run_empty by auto|].
  destruct (env_enums env) eqn:He; [|by rewrite gpu_run_no_enums].
  destruct (getGPUState env w) as [[e|g] w1] eqn:Hg.
  - rewrite (gpu_run_no_device _ _ _ _ _ _ Hd Ha He Hg). by eapply getGPUState_wf.
  - destruct (gpu_run_ready _ _ _ _ _ _ Hwf Hd Ha He Hg)
      as (_ & _ & _ & out & w' & _ & -> & Hwf' & _). done.
Qed.

(* ===================================================================== *)
(** ** Main properties                                                    *)
(* ===================================================================== *)

(** *** Dominance *)

(** C4: the dominance predicate is irreflexive and antisymmetric, and
    two records equal on all active attributes do not dominate each
    other. *)
Theorem dominates_strict_order :
  (∀ a attributes, dominates a a attributes = false) ∧
  (∀ a b attributes,
     ¬ (dominates a b attributes = true ∧ dominates b a attributes = true)) ∧
  (∀ a b attributes,
     equal_on a b attributes = true →
     dominates a b attributes = false ∧ dominates b a attributes = false).
Proof.
  split_and!.
  - apply dominates_irrefl.
  - intros a b attributes [Hab Hba]. apply dominates_asym in Hab. congruence.
  - intros a b attributes Heq. split; apply dominates_equal_on; [done|].
    by apply equal_on_sym.
Qed.

Lemma dominates_strict_order_witness :
  equal_on (player "A" 90 80) (player "B" 90 80) example_attrs = true ∧
  dominates (player "A" 90 80) (player "B" 90 80) example_attrs = false ∧
  dominates (player "B" 90 80) (player "A" 90 80) example_attrs = false.
Proof.
  split; [reflexivity|].
  apply (proj2 (proj2 dominates_strict_order)). reflexivity.
Defined.

(** *** Results of the two backends *)

Lemma example_unique : unique_ids example_data.
Proof. unfold unique_ids. by_decide. Qed.

Lemma example_faithful : f32_order_faithful example_data example_attrs.
Proof.
  intros a b attr Ha Hb Hattr.
  each_elem Ha; each_elem Hb; each_elem Hattr; reflexivity.
Qed.

(** C7: on A{pace:90,shoot:80}, B{pace:80,shoot:90}, C{pace:70,shoot:70}
    with active attributes [pace, shoot], the skyline computation returns
    skylineIds = {A, B}, dominanceScores = {A:1, B:1, C:0} and
    dominatedBy = {A:0, B:0, C:2}: the serial backend always, the
    parallel backend whenever it returns a result, which it does on a
    platform that is ready. *)
Theorem worked_example :
  (∀ now,
     let r := computeSkylineCPU now example_data example_attrs in
     skylineIds r = {["A"; "B"]} ∧
     dominanceScores r = <["A" := 1%Z]> (<["B" := 1%Z]> (<["C" := 0%Z]> ∅)) ∧
     dominatedBy r = <["A" := 0%Z]> (<["B" := 0%Z]> (<["C" := 2%Z]> ∅))) ∧
  (∀ env w r w',
     wf_world w →
     computeSkylineWebGPU env example_data example_attrs w = (inr r, w') →
     skylineIds r = {["A"; "B"]} ∧
     dominanceScores r = <["A" := 1%Z]> (<["B" := 1%Z]> (<["C" := 0%Z]> ∅)) ∧
     dominatedBy r = <["A" := 0%Z]> (<["B" := 0%Z]> (<["C" := 2%Z]> ∅))) ∧
  (∀ env w,
     wf_world w → ready env w = true →
     ∃ r w', computeSkylineWebGPU env example_data example_attrs w = (inr r, w')).
Proof.
  assert (Hcpu : ∀ now,
     let r := computeSkylineCPU now example_data example_attrs in
     skylineIds r = {["A"; "B"]} ∧
     dominanceScores r = <["A" := 1%Z]> (<["B" := 1%Z]> (<["C" := 0%Z]> ∅)) ∧
     dominatedBy r = <["A" := 0%Z]> (<["B" := 0%Z]> (<["C" := 2%Z]> ∅))).
  { intros now. split_and!; vm_compute; reflexivity. }
  split_and!.
  - exact Hcpu.
  - intros env w r w' Hwf Hrun.
    assert (Hne : example_attrs ≠ []) by done.
    assert (Hsz : (Z.of_nat (length example_data)
                   * Z.of_nat (length example_attrs) < 2 ^ 32)%Z) by (simpl; lia).
    destruct (backends_agree clock0 env example_data example_attrs w r w'
                Hwf example_unique Hne Hsz example_faithful Hrun)
      as (-> & -> & ->).
    apply Hcpu.
  - intros env w Hwf Hready.
    destruct (gpu_ready_returns env example_data example_attrs w)
      as (r & w' & Hrun & _); try done. eauto.
Qed.

Lemma worked_example_witness :
  ∃ r w',
    computeSkylineWebGPU env_ok example_data example_attrs world0 = (inr r, w') ∧
    skylineIds r = {["A"; "B"]} ∧
    dominanceScores r = <["A" := 1%Z]> (<["B" := 1%Z]> (<["C" := 0%Z]> ∅)) ∧
    dominatedBy r = <["A" := 0%Z]> (<["B" := 0%Z]> (<["C" := 2%Z]> ∅)).
Proof.
  destruct (proj2 (proj2 worked_example) env_ok world0 wf_world0 eq_refl)
    as (r & w' & Hrun).
  exists r, w'. split; [exact Hrun|].
  exact (proj1 (proj2 worked_example) env_ok world0 r w' wf_world0 Hrun).
Defined.




(** C1 as stated fails: the two records of [close_data] differ by one
    at 2^24; the serial backend compares them as doubles and finds that
    A dominates B, the kernel compares their binary32 roundings, which
    are equal, and keeps both in the skyline. *)
Lemma backend_agreement_counterexample :
  ¬ (∀ now env data attrs w r w',
       attrs ≠ [] → wf_world w →
       computeSkylineWebGPU env data attrs w = (inr r, w') →
       skylineIds r = skylineIds (computeSkylineCPU now data attrs) ∧
       dominanceScores r = dominanceScores (computeSkylineCPU now data attrs) ∧
       dominatedBy r = dominatedBy (computeSkylineCPU now data attrs)).
Proof.
  intros H.
  assert (Hrun : ∃ r w',
            computeSkylineWebGPU env_ok close_data close_attrs world0 = (inr r, w') ∧
            dominatedBy r !! "B" = Some 0%Z).
  { eexists _, _. split; vm_compute; reflexivity. }
  destruct Hrun as (r & w' & Hrun & HB).
  assert (Hne : close_attrs ≠ []) by done.
  destruct (H clock0 env_ok close_data close_attrs world0 r w' Hne wf_world0 Hrun)
    as (_ & _ & Hdby).
  rewrite Hdby in HB. vm_compute in HB. discriminate.
Qed.

(** C1 (amended): for every list of records with unique ids and every
    non-empty list of active attributes such that the flattened matrix
    has fewer than 2^32 cells and the conversion of the active values to
    binary32 keeps every comparison between two records, a result
    returned by the parallel backend has the skylineIds, dominanceScores
    and dominatedBy of the serial backend; and the parallel backend
    returns a result on a platform that is ready.  The conversion keeps
    every comparison when each active value is missing, NaN, a zero, or
    a double that is a normal binary32 number. *)
Theorem backend_agreement now env data attrs w :
  unique_ids data → attrs ≠ [] →
  (Z.of_nat (length data) * Z.of_nat (length attrs) < 2 ^ 32)%Z →
  wf_world w →
  ((∀ p attr, p ∈ data → attr ∈ attrs → f32_exact (prop p (key attr)) = true) →
   f32_order_faithful data attrs) ∧
  (f32_order_faithful data attrs →
   ∀ r w',
     computeSkylineWebGPU env data attrs w = (inr r, w') →
     skylineIds r = skylineIds (computeSkylineCPU now data attrs) ∧
     dominanceScores r = dominanceScores (computeSkylineCPU now data attrs) ∧
     dominatedBy r = dominatedBy (computeSkylineCPU now data attrs)) ∧
  (ready env w = true →
   ∃ r w', computeSkylineWebGPU env data attrs w = (inr r, w')).
Proof.
  intros Hu Hne Hsz Hwf. split_and!.
  - apply exact_values_faithful.
  - intros Hf r w' Hrun. by eapply backends_agree.
  - intros Hready. destruct (decide (data = [])) as [->|Hd].
    + eexists _, _. by apply gpu_run_empty; left.
    + destruct (gpu_ready_returns env data attrs w) as (r & w' & Hrun & _);
        try done. eauto.
Qed.

Lemma example_exact p attr :
  p ∈ example_data → attr ∈ example_attrs → f32_exact (prop p (key attr)) = true.
Proof. intros Hp Hattr. each_elem Hp; each_elem Hattr; reflexivity. Qed.

Lemma backend_agreement_witness :
  ∃ r w',
    computeSkylineWebGPU env_ok example_data example_attrs world0 = (inr r, w') ∧
    skylineIds r = skylineIds (computeSkylineCPU clock0 example_data example_attrs) ∧
    dominanceScores r
      = dominanceScores (computeSkylineCPU clock0 example_data example_attrs) ∧
    dominatedBy r = dominatedBy (computeSkylineCPU clock0 example_data example_attrs).
Proof.
  assert (Hne : example_attrs ≠ []) by done.
  assert (Hsz : (Z.of_nat (length example_data)
                 * Z.of_nat (length example_attrs) < 2 ^ 32)%Z) by (simpl; lia).
  destruct (backend_agreement clock0 env_ok example_data example_attrs world0
              example_unique Hne Hsz wf_world0) as (Hexact & Hres & Hex).
  destruct (Hex eq_refl) as (r & w' & Hrun).
  exists r, w'. split; [exact Hrun|].
  exact (Hres (Hexact example_exact) r w' Hrun).
Defined.




(** C3 as stated fails.  For the record of [proto_data] with the id
    [__proto__] the serial backend stores neither count, with unique
    ids, so there are no two numbers to bound; and with an empty
    attribute list the parallel backend returns the empty result, which
    holds no count for any record of the worked example. *)
Lemma score_bound_counterexample :
  ¬ (∀ now data attrs p,
       unique_ids data → p ∈ data →
       ∃ s d,
         dominanceScores (computeSkylineCPU now data attrs) !! id p = Some s ∧
         dominatedBy (computeSkylineCPU now data attrs) !! id p = Some d ∧
         (s + d ≤ Z.of_nat (length data) - 1)%Z) ∧
  ¬ (∀ env data attrs w r w' p,
       unique_ids data → (∀ q, q ∈ data → id q ≠ PROTO) → wf_world w →
       computeSkylineWebGPU env data attrs w = (inr r, w') → p ∈ data →
       ∃ s d,
         dominanceScores r !! id p = Some s ∧ dominatedBy r !! id p = Some d ∧
         (s + d ≤ Z.of_nat (length data) - 1)%Z).
Proof.
  split; intros H.
  - assert (Hu : unique_ids proto_data) by (apply (bool_decide_unpack _); exact I).
    assert (Hin : player "__proto__" 2 0 ∈ proto_data) by (by left).
    destruct (H clock0 proto_data close_attrs _ Hu Hin) as (s & d & Hs & _).
    vm_compute in Hs. discriminate.
  - assert (Hp : ∀ q, q ∈ example_data → id q ≠ PROTO).
    { intros q Hq. each_elem Hq; done. }
    assert (Hin : player "A" 90 80 ∈ example_data) by (by left).
    destruct (H env_ok example_data [] world0 _ _ _ example_unique Hp wf_world0
                eq_refl Hin) as (s & d & Hs & _).
    vm_compute in Hs. discriminate.
Qed.

(** C3 (amended): for every list of N records with unique ids and every
    active attribute list, every record p whose id is not [__proto__]
    has a dominanceScore and a dominatedBy count in the serial backend's
    result, both non-negative and with a sum of at most N - 1; and it has
    them, with the same bounds, in a result of the parallel backend when
    the attribute list is not empty.  N < 2^32 is the bound on the
    length of a JavaScript array. *)
Theorem score_bound now env data attrs w :
  unique_ids data →
  (∀ p, p ∈ data → id p ≠ PROTO →
     ∃ s d,
       dominanceScores (computeSkylineCPU now data attrs) !! id p = Some s ∧
       dominatedBy (computeSkylineCPU now data attrs) !! id p = Some d ∧
       (0 ≤ s ∧ 0 ≤ d ∧ s + d ≤ Z.of_nat (length data) - 1)%Z) ∧
  (wf_world w → (Z.of_nat (length data) < 2 ^ 32)%Z → attrs ≠ [] →
   ∀ r w', computeSkylineWebGPU env data attrs w = (inr r, w') →
     ∀ p, p ∈ data → id p ≠ PROTO →
       ∃ s d,
         dominanceScores r !! id p = Some s ∧ dominatedBy r !! id p = Some d ∧
         (0 ≤ s ∧ 0 ≤ d ∧ s + d ≤ Z.of_nat (length data) - 1)%Z).
Proof.
  intros Hu. split.
  - intros p [i Hi]%list_elem_of_lookup Hp.
    destruct (cpu_record now data attrs i p Hu Hi Hp) as (Hs & Hd & _).
    exists (row_score data attrs i), (row_dominatedBy data attrs i).
    split_and!; try done; apply row_bound; by eapply lookup_lt_Some.
  - intros Hwf Hlen Hne r w' Hrun p [i Hi]%list_elem_of_lookup Hp.
    destruct (gpu_record _ _ _ _ _ _ _ _ Hwf Hu Hne Hlen Hrun Hi Hp)
      as (d & Hs & Hd & _).
    eexists _, _. split; [exact Hs|]. split; [exact Hd|].
    pose proof (lookup_lt_Some _ _ _ Hi) as Hlt.
    assert (Hc : Wgsl.count (call_params data attrs) = Z.of_nat (length data)).
    { unfold call_params. cbn [Wgsl.count]. apply u32_small. lia. }
    destruct (counters_bound (uploaded_data data attrs d) (call_params data attrs) i)
      as (H1 & H2 & H3); [rewrite Hc; lia..|].
    rewrite Hc in H3. lia.
Qed.

Lemma score_bound_witness :
  unique_ids example_data ∧ player "C" 70 70 ∈ example_data ∧
  (∃ s d,
     dominanceScores (computeSkylineCPU clock0 example_data example_attrs) !! "C"
       = Some s ∧
     dominatedBy (computeSkylineCPU clock0 example_data example_attrs) !! "C"
       = Some d ∧
     (0 ≤ s ∧ 0 ≤ d ∧ s + d ≤ Z.of_nat (length example_data) - 1)%Z) ∧
  ∃ r w',
    computeSkylineWebGPU env_ok example_data example_attrs world0 = (inr r, w') ∧
    ∃ s d,
      dominanceScores r !! "C" = Some s ∧ dominatedBy r !! "C" = Some d ∧
      (0 ≤ s ∧ 0 ≤ d ∧ s + d ≤ Z.of_nat (length example_data) - 1)%Z.
Proof.
  assert (Hin : player "C" 70 70 ∈ example_data) by (right; right; left).
  assert (Hp : id (player "C" 70 70) ≠ PROTO) by done.
  assert (Hlen : (Z.of_nat (length example_data) < 2 ^ 32)%Z) by (simpl; lia).
  assert (Hne : example_attrs ≠ []) by done.
  destruct (score_bound clock0 env_ok example_data example_attrs world0
              example_unique) as [Hcpu Hgpu].
  split; [exact example_unique|]. split; [exact Hin|].
  split; [exact (Hcpu _ Hin Hp)|].
  eexists _, _. split; [vm_compute; reflexivity|].
  refine (Hgpu wf_world0 Hlen Hne _ _ _ _ Hin Hp). vm_compute; reflexivity.
Defined.

(** *** Device acquisition and readback *)

Lemma getGPUState_cached env w p :
  gpuStatePromise w = Some p → getGPUState env w = (p, w).
Proof. intros H. unfold getGPUState. by rewrite H. Qed.

(** C5 as stated fails: a first call without [navigator.gpu] stores the
    rejected promise; a second call on a platform where acquisition
    would succeed makes no acquisition attempt. *)
Lemma failed_acquisition_counterexample :
  ¬ (∀ env1 env2 data attrs w out1 w1 e,
       data ≠ [] → attrs ≠ [] → wf_world w → gpuStatePromise w = None →
       env_enums env1 = true → env_enums env2 = true →
       acquire env1 = inl e →
       computeSkylineWebGPU env1 data attrs w = (out1, w1) →
       acquire_attempts (trace (computeSkylineWebGPU env2 data attrs w1).2)
       = S (acquire_attempts (trace w1))).
Proof.
  intros H.
  specialize (H env_no_gpu env_ok example_data example_attrs world0
                (computeSkylineWebGPU env_no_gpu example_data example_attrs world0).1
                (computeSkylineWebGPU env_no_gpu example_data example_attrs world0).2
                WebGPUUnavailable).
  assert (Hd : example_data ≠ []) by done.
  assert (Ha : example_attrs ≠ []) by done.
  specialize (H Hd Ha wf_world0 eq_refl eq_refl eq_refl eq_refl eq_refl).
  vm_compute in H. discriminate.
Qed.

(** C5 (amended): the promise of the first acquisition attempt is stored
    whatever it settles to.  After any call of [getGPUState], every later
    call returns that same outcome, success or failure, and leaves the
    module state and the trace unchanged, so no acquisition is attempted
    again; after a failure, every later call of the parallel backend on
    non-degenerate input, with the enums present, fails with that same
    error. *)
Theorem acquisition_outcome_cached env w p w1 :
  getGPUState env w = (p, w1) →
  gpuStatePromise w1 = Some p ∧
  (∀ env', getGPUState env' w1 = (p, w1)) ∧
  (∀ env' data attrs e,
     p = inl e → data ≠ [] → attrs ≠ [] → env_enums env' = true →
     computeSkylineWebGPU env' data attrs w1 = (inl e, w1)).
Proof.
  intros Hg.
  assert (Hp : gpuStatePromise w1 = Some p).
  { by apply getGPUState_frame in Hg as (? & _). }
  split_and!; [done| |].
  - intros env'. by apply getGPUState_cached.
  - intros env' data attrs e -> Hd Ha He.
    apply gpu_run_no_device; try done. by apply getGPUState_cached.
Qed.

Lemma acquisition_outcome_cached_witness :
  ∃ w1,
    getGPUState env_no_gpu world0 = (inl WebGPUUnavailable, w1) ∧
    getGPUState env_ok w1 = (inl WebGPUUnavailable, w1) ∧
    computeSkylineWebGPU env_ok example_data example_attrs w1
      = (inl WebGPUUnavailable, w1).
Proof.
  eexists. split; [reflexivity|].
  assert (Hd : example_data ≠ []) by done.
  assert (Ha : example_attrs ≠ []) by done.
  destruct (acquisition_outcome_cached env_no_gpu world0 _ _ eq_refl)
    as (_ & H1 & H2).
  split; [exact (H1 env_ok)|].
  exact (H2 env_ok example_data example_attrs WebGPUUnavailable eq_refl Hd Ha eq_refl).
Defined.

Lemma mapAsync_calls_app t1 t2 :
  mapAsync_calls (t1 ++ t2) = (mapAsync_calls t1 + mapAsync_calls t2)%nat.
Proof. unfold mapAsync_calls. by rewrite List.filter_app, length_app. Qed.

(** C6: when the first [mapAsync] of the readback rejects, the call
    unmaps the buffer and calls [mapAsync] a second time, and that is
    all: the call makes exactly two [mapAsync] calls.  If the second one
    resolves the call returns a result; if it rejects too, the call
    fails with that rejection and returns no result.  The failure is
    confined to the call: the next call on the same module state returns
    a result as soon as its own mapping succeeds. *)
Theorem readback_map_retry env data attrs w g w1 :
  wf_world w → data ≠ [] → attrs ≠ [] → env_enums env = true →
  getGPUState env w = (inr g, w1) →
  env_mapAsync env 0%nat = false →
  ∃ out w' pre,
    computeSkylineWebGPU env data attrs w = (out, w') ∧
    mapAsync_calls pre = mapAsync_calls (trace w) ∧
    (if env_mapAsync env 1%nat
     then (∃ r, out = inr r) ∧
          trace w' = pre ++ [EvMapAsync false; EvUnmap; EvMapAsync true; EvUnmap]
     else out = inl MapAsyncRejected ∧
          trace w' = pre ++ [EvMapAsync false; EvUnmap; EvMapAsync false]) ∧
    mapAsync_calls (trace w') = (mapAsync_calls (trace w) + 2)%nat ∧
    (∀ env2,
       env_enums env2 = true → env_mapAsync env2 0%nat = true →
       ∃ r2 w2, computeSkylineWebGPU env2 data attrs w' = (inr r2, w2)).
Proof.
  intros Hwf Hd Ha He Hg H0.
  destruct (gpu_run_ready _ _ _ _ _ _ Hwf Hd Ha He Hg)
    as (d & rbuf & rb & out & w' & pre & Hrun & Hwf' & Hgp & _ & Hpre & Hcases).
  rewrite H0 in Hcases.
  exists out, w', pre. split; [done|]. split; [done|].
  assert (Hcached : gpuStatePromise w' = Some (inr g)).
  { rewrite Hgp. by apply getGPUState_frame in Hg as (? & _). }
  assert (Hnext : ∀ env2,
            env_enums env2 = true → env_mapAsync env2 0%nat = true →
            ∃ r2 w2, computeSkylineWebGPU env2 data attrs w' = (inr r2, w2)).
  { intros env2 He2 Hm2.
    destruct (gpu_ready_returns env2 data attrs w') as (r2 & w2 & Hrun2 & _);
      try done; [|eauto].
    unfold ready. rewrite He2, (getGPUState_cached env2 w' _ Hcached), Hm2. done. }
  destruct (env_mapAsync env 1%nat).
  - destruct Hcases as [-> Ht]. split_and!; [eauto|done| |done].
    rewrite Ht, mapAsync_calls_app, Hpre. done.
  - destruct Hcases as [-> Ht]. split_and!; [done|done| |done].
    rewrite Ht, mapAsync_calls_app, Hpre. done.
Qed.

Lemma readback_map_retry_witness :
  (∃ r w' pre,
     computeSkylineWebGPU env_map_retry example_data example_attrs world0
       = (inr r, w') ∧
     trace w' = pre ++ [EvMapAsync false; EvUnmap; EvMapAsync true; EvUnmap] ∧
     mapAsync_calls (trace w') = 2%nat) ∧
  (∃ w' pre,
     computeSkylineWebGPU env_map_fail example_data example_attrs world0
       = (inl MapAsyncRejected, w') ∧
     trace w' = pre ++ [EvMapAsync false; EvUnmap; EvMapAsync false] ∧
     mapAsync_calls (trace w') = 2%nat ∧
     ∃ r2 w2,
       computeSkylineWebGPU env_ok example_data example_attrs w' = (inr r2, w2)).
Proof.
  assert (Hd : example_data ≠ []) by done.
  assert (Ha : example_attrs ≠ []) by done.
  split.
  - destruct (readback_map_retry env_map_retry example_data example_attrs world0
                _ _ wf_world0 Hd Ha eq_refl eq_refl eq_refl)
      as (out & w' & pre & Hrun & _ & [[r ->] Ht] & Hn & _).
    by exists r, w', pre.
  - destruct (readback_map_retry env_map_fail example_data example_attrs world0
                _ _ wf_world0 Hd Ha eq_refl eq_refl eq_refl)
      as (out & w' & pre & Hrun & _ & [-> Ht] & Hn & Hnext).
    exists w', pre. split_and!; try done. exact (Hnext env_ok eq_refl eq_refl).
Defined.

(** *** ColorMapND *)

Lemma color_accumulate_fold cos sin point attributes x y t :
  (fold_left (color_step cos sin point) attributes (x, y, t)).2 =
  fold_left (λ t attr, Js.add t (norm_of point attr)) attributes t.
Proof.
  revert x y t. induction attributes as [|attr rest IH]; intros x y t; [done|].
  simpl. apply IH.
Qed.

Lemma color_accumulate_total cos sin point attributes :
  (color_accumulate cos sin point attributes).2 = total_norm point attributes.
Proof. apply color_accumulate_fold. Qed.

(** C9: for every record and non-empty active attribute list whose
    accumulated [totalNorm] is below 0.01, [computeColorMapND] returns
    the fallback [d3.hcl(0, 0, 30).toString()], whatever [cos], [sin] and
    [atan2] are, that is, whatever the direction of the accumulated
    vector. *)
Theorem low_magnitude_fallback
    (cos sin sqrt : Js.number → Js.number)
    (atan2 fmod : Js.number → Js.number → Js.number)
    (hcl_toString : Js.number → Js.number → Js.number → string)
    (point : DataPoint) (attributes : list AttributeConfig) :
  attributes ≠ [] →
  Js.lt (total_norm point attributes) lit_0_01 = true →
  computeColorMapND cos sin sqrt atan2 fmod hcl_toString point attributes
  = hcl_toString (Js.of_Z 0) (Js.of_Z 0) (Js.of_Z 30).
Proof.
  intros Hne Hlt. unfold computeColorMapND.
  destruct attributes as [|attr rest]; [done|]. cbn [length Nat.eqb].
  pose proof (color_accumulate_total cos sin point (attr :: rest)) as Ht.
  destruct (color_accumulate cos sin point (attr :: rest)) as [[x y] t].
  cbn [snd] in Ht. subst t. by rewrite Hlt.
Qed.

Lemma low_magnitude_fallback_witness :
  Js.lt (total_norm (player "A" 0 0) example_attrs) lit_0_01 = true ∧
  computeColorMapND (λ _, Js.of_Z 1) (λ _, Js.of_Z 0) (λ x, x) (λ _ _, Js.of_Z 0)
    (λ x _, x) render_gray (player "A" 0 0) example_attrs
  = "rgb(71, 71, 71)".
Proof.
  assert (Hne : example_attrs ≠ []) by done.
  split; [reflexivity|].
  exact (low_magnitude_fallback (λ _, Js.of_Z 1) (λ _, Js.of_Z 0) (λ x, x)
           (λ _ _, Js.of_Z 0)
           (λ x _, x) render_gray (player "A" 0 0) example_attrs Hne eq_refl).
Defined.

(** C10: with an empty active attribute list [computeColorMapND] returns
    the constant '#475569' for every record, whatever the platform
    functions are (none is consulted); and this constant is not the
    low-magnitude fallback, which d3 renders in its "rgb(...)" format. *)
Theorem empty_attributes_color
    (cos sin sqrt : Js.number → Js.number)
    (atan2 fmod : Js.number → Js.number → Js.number)
    (hcl_toString : Js.number → Js.number → Js.number → string)
    (point : DataPoint) :
  computeColorMapND cos sin sqrt atan2 fmod hcl_toString point [] = "#475569" ∧
  ((∃ body, low_magnitude_color hcl_toString = String.append "rgb(" body) →
   low_magnitude_color hcl_toString ≠ NO_ATTRIBUTES_COLOR).
Proof.
  split; [reflexivity|]. intros [body ->]. discriminate.
Qed.

Lemma empty_attributes_color_witness :
  computeColorMapND (λ _, Js.of_Z 1) (λ _, Js.of_Z 0) (λ x, x) (λ _ _, Js.of_Z 0)
    (λ x _, x) render_gray (player "A" 90 80) [] = "#475569" ∧
  low_magnitude_color render_gray ≠ NO_ATTRIBUTES_COLOR.
Proof.
  destruct (empty_attributes_color (λ _, Js.of_Z 1) (λ _, Js.of_Z 0) (λ x, x)
              (λ _ _, Js.of_Z 0) (λ x _, x) render_gray (player "A" 90 80))
    as [H1 H2].
  split; [exact H1|]. apply H2. exists "71, 71, 71)". reflexivity.
Defined.

(* ===================================================================== *)
(** ** Dominance is a strict partial order                                *)
(* ===================================================================== *)

Lemma SFltb_key (x y : spec_float) :
  is_nan x = false → is_nan y = false →
  (SFltb x y = true ↔ key_lt (order_key x) (order_key y)).
Proof.
  unfold SFltb, key_lt.
  destruct x as [sx|[]| |[] mx ex], y as [sy|[]| |[] my ey]; try discriminate;
    intros _ _; cbn [SFcompare order_key fst snd];
    change (PosDef.Pos.compare_cont Eq ?a ?b) with (Pos.compare a b);
    try destruct sx; try destruct sy; cbn [fst snd];
    try (split; intros; first [discriminate | reflexivity | lia]).
  - destruct (Z.compare_spec ex ey), (Pos.compare_spec mx my); cbn [CompOpp];
      split; intros; first [discriminate | reflexivity | lia].
  - destruct (Z.compare_spec ex ey), (Pos.compare_spec mx my);
      split; intros; first [discriminate | reflexivity | lia].
Qed.

Lemma SFltb_nan_l (y : spec_float) : SFltb S754_nan y = false.
Proof. by destruct y. Qed.

Lemma SFltb_nan_r (x : spec_float) : SFltb x S754_nan = false.
Proof. by destruct x as [| | |[]]. Qed.

(** [<] on numbers is transitive. *)
Lemma SFltb_trans (x y z : spec_float) :
  SFltb x y = true → SFltb y z = true → SFltb x z = true.
Proof.
  intros Hxy Hyz.
  assert (is_nan x = false) by (destruct x; try done; by rewrite SFltb_nan_l in Hxy).
  assert (is_nan y = false) by (destruct y; try done; by rewrite SFltb_nan_l in Hyz).
  assert (is_nan z = false) by (destruct z; try done; by rewrite SFltb_nan_r in Hyz).
  apply SFltb_key in Hxy, Hyz; try done. apply SFltb_key; try done.
  unfold key_lt in *. lia.
Qed.

(** If [x < z] then every number [y] lies above [x] or below [z]. *)
Lemma SFltb_cotrans (x y z : spec_float) :
  is_nan y = false →
  SFltb x z = true → SFltb x y = true ∨ SFltb y z = true.
Proof.
  intros Hy Hxz.
  assert (is_nan x = false) by (destruct x; try done; by rewrite SFltb_nan_l in Hxz).
  assert (is_nan z = false) by (destruct z; try done; by rewrite SFltb_nan_r in Hxz).
  apply SFltb_key in Hxz; try done.
  destruct (SFltb x y) eqn:E1; [by left|]. right.
  apply SFltb_key; try done.
  assert (¬ key_lt (order_key x) (order_key y)).
  { intros Hk. apply SFltb_key in Hk; try done. congruence. }
  unfold key_lt in *. lia.
Qed.

Lemma cpu_val_not_nan (p : DataPoint) (attr : AttributeConfig) :
  is_nan (cpu_val p attr) = false.
Proof.
  unfold cpu_val, Js.or_zero. destruct (prop p (key attr)) as [[| | |]|]; done.
Qed.

Lemma dominates_trans (a b c : DataPoint) (attributes : list AttributeConfig) :
  dominates a b attributes = true → dominates b c attributes = true →
  dominates a c attributes = true.
Proof.
  rewrite !dominates_spec.
  intros [Hab1 Hab2]%andb_true_iff [Hbc1 Hbc2]%andb_true_iff.
  rewrite forallb_forall in Hab1, Hbc1.
  apply existsb_exists in Hab2 as (attr & Hin & Hgt).
  apply andb_true_iff. split.
  - apply forallb_forall. intros k Hk.
    specialize (Hab1 k Hk). specialize (Hbc1 k Hk).
    apply negb_true_iff. apply negb_true_iff in Hab1, Hbc1.
    destruct (Js.lt (cpu_val a k) (cpu_val c k)) eqn:E; [|done].
    destruct (SFltb_cotrans _ (cpu_val b k) _ (cpu_val_not_nan b k) E);
      unfold Js.lt in *; congruence.
  - apply existsb_exists. exists attr. split; [done|].
    specialize (Hbc1 attr Hin). apply negb_true_iff in Hbc1.
    unfold Js.gt, Js.lt in *.
    destruct (SFltb_cotrans _ (cpu_val c attr) _ (cpu_val_not_nan c attr) Hgt);
      congruence.
Qed.

(* ===================================================================== *)
(** ** The skyline as the set of undominated records                      *)
(* ===================================================================== *)

Lemma count_true_zero (f : nat → bool) js :
  count_true f js = 0%Z ↔ ∀ j, j ∈ js → f j = false.
Proof.
  induction js as [|j js IH]; simpl.
  - split; [by intros _ j ?%elem_of_nil|done].
  - pose proof (count_true_nonneg f js). split.
    + intros H0 j' [->|Hj']%elem_of_cons.
      * destruct (f j); [lia|done].
      * apply IH; [|done]. destruct (f j); lia.
    + intros Hall. rewrite (Hall j) by (by left).
      rewrite (proj2 IH); [done|]. intros j' Hj'. apply Hall. by right.
Qed.

Lemma row_dominatedBy_zero data attrs i a :
  data !! i = Some a →
  (row_dominatedBy data attrs i = 0%Z ↔
   ∀ b, b ∈ data → dominates b a attrs = false).
Proof.
  intros Ha. unfold row_dominatedBy. rewrite Ha, count_true_zero. split.
  - intros H b [j Hb]%list_elem_of_lookup.
    destruct (decide (i = j)) as [<-|Hne].
    + rewrite Ha in Hb. injection Hb as <-. apply dominates_irrefl.
    + specialize (H j). unfold dominated_at in H. rewrite Hb in H.
      destruct (Nat.eqb_spec i j); [done|]. apply H.
      apply elem_of_seq. apply lookup_lt_Some in Hb. lia.
  - intros H j Hj. unfold dominated_at.
    destruct (data !! j) as [b|] eqn:Hb; [|by rewrite andb_false_r].
    rewrite (H b); [by rewrite andb_false_r|]. by eapply list_elem_of_lookup_2.
Qed.

Lemma cpu_skyline_iff now data attrs k :
  k ∈ skylineIds (computeSkylineCPU now data attrs) ↔
  ∃ a, a ∈ data ∧ id a = k ∧ ∀ b, b ∈ data → dominates b a attrs = false.
Proof.
  destruct (cpu_lookup now data attrs) as (_ & _ & Hsky). rewrite Hsky. split.
  - intros (i & a & Ha & Hid & Hz). exists a. split; [by eapply list_elem_of_lookup_2|].
    split; [done|]. by apply (row_dominatedBy_zero data attrs i a).
  - intros (a & [i Ha]%list_elem_of_lookup & Hid & Hz). exists i, a.
    split; [done|]. split; [done|]. by apply (row_dominatedBy_zero data attrs i a).
Qed.

Lemma filter_length_le {A} (f g : A → bool) (l : list A) :
  (∀ x, x ∈ l → f x = true → g x = true) →
  (length (List.filter f l) ≤ length (List.filter g l))%nat.
Proof.
  induction l as [|x l IH]; intros H; [done|]. simpl.
  assert (IH' : (length (List.filter f l) ≤ length (List.filter g l))%nat).
  { apply IH. intros y Hy. apply H. by right. }
  specialize (H x (list_elem_of_here _ _)).
  destruct (f x), (g x); simpl; try lia.
Qed.

Lemma filter_length_lt {A} (f g : A → bool) (l : list A) (c : A) :
  (∀ x, x ∈ l → f x = true → g x = true) →
  c ∈ l → g c = true → f c = false →
  (length (List.filter f l) < length (List.filter g l))%nat.
Proof.
  induction l as [|x l IH]; intros H Hc Hg Hf; [by apply elem_of_nil in Hc|].
  simpl.
  assert (Hle : (length (List.filter f l) ≤ length (List.filter g l))%nat).
  { apply filter_length_le. intros y Hy. apply H. by right. }
  pose proof (H x (list_elem_of_here _ _)) as Hx.
  apply elem_of_cons in Hc as [->|Hc].
  - rewrite Hg, Hf. simpl. lia.
  - assert ((length (List.filter f l) < length (List.filter g l))%nat).
    { apply IH; try done. intros y Hy. apply H. by right. }
    destruct (f x), (g x); simpl; try lia.
Qed.

(** In a finite list, every element below another one in a strict
    partial order is below a maximal one. *)
Lemma maximal_above {A} (R : A → A → bool) (l : list A) (a b : A) :
  (∀ x, R x x = false) →
  (∀ x y z, R x y = true → R y z = true → R x z = true) →
  b ∈ l → R b a = true →
  ∃ q, q ∈ l ∧ R q a = true ∧ ∀ c, c ∈ l → R c q = false.
Proof.
  intros Hirr Htrans.
  remember (length (List.filter (λ c, R c b) l)) as n eqn:Hn.
  revert b Hn. induction (lt_wf n) as [n _ IH]. intros b -> Hb Hba.
  destruct (existsb (λ c, R c b) l) eqn:E.
  - apply existsb_exists in E as (c & Hc%list_elem_of_In & Hcb).
    assert (Hlt : (length (List.filter (λ x, R x c) l)
                   < length (List.filter (λ x, R x b) l))%nat).
    { apply (filter_length_lt _ _ _ c); try done.
      intros x _ Hx. by eapply Htrans. }
    apply (IH _ Hlt c eq_refl Hc). by eapply Htrans.
  - exists b. split; [done|]. split; [done|]. intros c Hc.
    destruct (R c b) eqn:Hcb; [|done].
    assert (existsb (λ c, R c b) l = true); [|congruence].
    apply existsb_exists. exists c. split; [by apply list_elem_of_In|done].
Qed.

Lemma dominator_maximal (data : list DataPoint) attrs a b :
  b ∈ data → dominates b a attrs = true →
  ∃ q, q ∈ data ∧ dominates q a attrs = true ∧
       ∀ c, c ∈ data → dominates c q attrs = false.
Proof.
  apply (maximal_above (λ x y, dominates x y attrs)).
  - intros x. apply dominates_irrefl.
  - intros x y z. apply dominates_trans.
Qed.

Lemma cpu_skyline_cover now (data : list DataPoint) attrs p :
  p ∈ data →
  id p ∈ skylineIds (computeSkylineCPU now data attrs) ∨
  ∃ q, q ∈ data ∧ id q ∈ skylineIds (computeSkylineCPU now data attrs) ∧
       dominates q p attrs = true.
Proof.
  intros Hp. destruct (existsb (λ c, dominates c p attrs) data) eqn:E.
  - right. apply existsb_exists in E as (c & Hc%list_elem_of_In & Hcp).
    destruct (dominator_maximal data attrs p c Hc Hcp) as (q & Hq & Hqp & Hmax).
    exists q. split; [done|]. split; [|done].
    apply cpu_skyline_iff. by exists q.
  - left. apply cpu_skyline_iff. exists p. split; [done|]. split; [done|].
    intros b Hb. destruct (dominates b p attrs) eqn:Hbp; [|done].
    assert (existsb (λ c, dominates c p attrs) data = true); [|congruence].
    apply existsb_exists. exists b. split; [by apply list_elem_of_In|done].
Qed.

(* ===================================================================== *)
(** ** Keys, totals and degenerate attribute lists of the serial result   *)
(* ===================================================================== *)

Lemma total_for_ext (f g : nat → Z) data k ixs :
  (∀ i, i ∈ ixs → f i = g i) →
  total_for f data k ixs = total_for g data k ixs.
Proof.
  induction ixs as [|i ixs IH]; intros H; [done|]. simpl.
  rewrite (H i) by (by left). f_equal. apply IH. intros j Hj. apply H. by right.
Qed.

Lemma total_for_zero data k ixs : total_for (λ _, 0%Z) data k ixs = 0%Z.
Proof.
  induction ixs as [|i ixs IH]; [done|]. simpl. rewrite IH.
  destruct (data !! i); [|done]. by case_decide.
Qed.

(** The three fields of the serial result depend on the attribute list
    only through the dominance relation it induces on the records. *)
Lemma cpu_result_ext now now' (data : list DataPoint) attrs attrs' :
  (∀ a b, a ∈ data → b ∈ data →
     dominates a b attrs = dominates a b attrs') →
  skylineIds (computeSkylineCPU now data attrs)
    = skylineIds (computeSkylineCPU now' data attrs') ∧
  dominanceScores (computeSkylineCPU now data attrs)
    = dominanceScores (computeSkylineCPU now' data attrs') ∧
  dominatedBy (computeSkylineCPU now data attrs)
    = dominatedBy (computeSkylineCPU now' data attrs').
Proof.
  intros Hext.
  destruct (cpu_lookup now data attrs) as (Hsc & Hdby & _).
  destruct (cpu_lookup now' data attrs') as (Hsc' & Hdby' & _).
  split_and!.
  - apply set_eq. intros k. rewrite !cpu_skyline_iff.
    split; intros (a & Ha & Hid & Hz); exists a; (split; [done|]);
      (split; [done|]); intros b Hb; specialize (Hz b Hb);
      by rewrite ?Hext in * by done.
  - apply map_eq. intros k. rewrite Hsc, Hsc'.
    destruct (decide (k ∈ id <$> data ∧ k ≠ PROTO)) as [Hk|Hk]; [|done]. f_equal.
    apply total_for_ext. intros i Hi. unfold row_score.
    destruct (data !! i) as [a|] eqn:Ha; [|done].
    apply count_true_ext. intros j Hj. unfold dominating_at. f_equal.
    destruct (data !! j) as [b|] eqn:Hb; [|done].
    apply Hext; by eapply list_elem_of_lookup_2.
  - apply map_eq. intros k. rewrite Hdby, Hdby'.
    destruct (decide (k ∈ id <$> data ∧ k ≠ PROTO)) as [Hk|Hk]; [|done]. f_equal.
    apply total_for_ext. intros i Hi. unfold row_dominatedBy.
    destruct (data !! i) as [a|] eqn:Ha; [|done].
    apply count_true_ext. intros j Hj. unfold dominated_at. f_equal.
    destruct (data !! j) as [b|] eqn:Hb; [|done].
    apply Hext; by eapply list_elem_of_lookup_2.
Qed.

Lemma forallb_perm {A} (f : A → bool) (l l' : list A) :
  l ≡ₚ l' → forallb f l = forallb f l'.
Proof.
  induction 1 as [|x l l' _ IH|x y l|l l' l'' _ IH1 _ IH2]; simpl.
  - done.
  - by rewrite IH.
  - by destruct (f x), (f y).
  - by rewrite IH1.
Qed.

Lemma existsb_perm {A} (f : A → bool) (l l' : list A) :
  l ≡ₚ l' → existsb f l = existsb f l'.
Proof.
  induction 1 as [|x l l' _ IH|x y l|l l' l'' _ IH1 _ IH2]; simpl.
  - done.
  - by rewrite IH.
  - by destruct (f x), (f y).
  - by rewrite IH1.
Qed.

Lemma dominates_perm a b attrs attrs' :
  attrs ≡ₚ attrs' → dominates a b attrs = dominates a b attrs'.
Proof.
  intros Hp. rewrite !dominates_spec.
  by rewrite (forallb_perm _ _ _ Hp), (existsb_perm _ _ _ Hp).
Qed.

Lemma cpu_lookup_no_attributes now (data : list DataPoint) :
  skylineIds (computeSkylineCPU now data [])
    = (list_to_set (id <$> data) : gset string) ∧
  dominanceScores (computeSkylineCPU now data [])
    = gset_to_gmap 0%Z (list_to_set (id <$> data) ∖ {[PROTO]}) ∧
  dominatedBy (computeSkylineCPU now data [])
    = gset_to_gmap 0%Z (list_to_set (id <$> data) ∖ {[PROTO]}).
Proof.
  destruct (cpu_lookup now data []) as (Hsc & Hdby & _).
  assert (Hz : ∀ k ixs,
            total_for (row_score data []) data k ixs = 0%Z ∧
            total_for (row_dominatedBy data []) data k ixs = 0%Z).
  { intros k ixs. split.
    - rewrite <- (total_for_zero data k ixs). apply total_for_ext. intros i _.
      unfold row_score. destruct (data !! i) as [a|]; [|done].
      apply count_true_zero. intros j _. unfold dominating_at.
      destruct (data !! j); by rewrite andb_false_r.
    - rewrite <- (total_for_zero data k ixs). apply total_for_ext. intros i _.
      unfold row_dominatedBy. destruct (data !! i) as [a|]; [|done].
      apply count_true_zero. intros j _. unfold dominated_at.
      destruct (data !! j); by rewrite andb_false_r. }
  split_and!.
  - apply set_eq. intros k. rewrite cpu_skyline_iff, elem_of_list_to_set,
      list_elem_of_fmap. split.
    + intros (a & Ha & <- & _). by exists a.
    + intros (a & -> & Ha). by exists a.
  - apply map_eq. intros k. rewrite Hsc, lookup_gset_to_gmap.
    rewrite (proj1 (Hz k _)).
    case_decide as Hk.
    + rewrite option_guard_True; [done|].
      apply elem_of_difference. rewrite elem_of_list_to_set, elem_of_singleton.
      exact Hk.
    + rewrite option_guard_False; [done|].
      rewrite elem_of_difference, elem_of_list_to_set, elem_of_singleton.
      exact Hk.
  - apply map_eq. intros k. rewrite Hdby, lookup_gset_to_gmap.
    rewrite (proj2 (Hz k _)).
    case_decide as Hk.
    + rewrite option_guard_True; [done|].
      apply elem_of_difference. rewrite elem_of_list_to_set, elem_of_singleton.
      exact Hk.
    + rewrite option_guard_False; [done|].
      rewrite elem_of_difference, elem_of_list_to_set, elem_of_singleton.
      exact Hk.
Qed.

(* ===================================================================== *)
(** ** Totals of the two counters                                         *)
(* ===================================================================== *)

Lemma sum_ix_ext (f g : nat → Z) ixs :
  (∀ i, i ∈ ixs → f i = g i) → sum_ix f ixs = sum_ix g ixs.
Proof.
  induction ixs as [|i ixs IH]; intros H; [done|]. simpl.
  rewrite (H i) by (by left). f_equal. apply IH. intros j Hj. apply H. by right.
Qed.

Lemma sum_ix_count (P : nat → bool) (h : nat → Z) js :
  sum_ix (λ j, (if P j then 1 else 0) + h j)%Z js
  = (count_true P js + sum_ix h js)%Z.
Proof. induction js as [|j js IH]; simpl; [done|]. rewrite IH. lia. Qed.

Lemma sum_ix_zero js : sum_ix (λ _, 0%Z) js = 0%Z.
Proof. induction js as [|j js IH]; simpl; [done|]. by rewrite IH. Qed.

(** Counting the pairs of a relation row by row or column by column
    gives the same total. *)
Lemma sum_count_swap (P : nat → nat → bool) ixs js :
  sum_ix (λ i, count_true (P i) js) ixs
  = sum_ix (λ j, count_true (λ i, P i j) ixs) js.
Proof.
  induction ixs as [|i ixs IH]; simpl.
  - by rewrite sum_ix_zero.
  - rewrite IH. by rewrite <- sum_ix_count.
Qed.

Lemma sum_counts_lookup (m : gmap string Z) (g : nat → Z) (data : list DataPoint) s :
  (∀ i a, data !! i = Some a → m !! id a = Some (g (s + i)%nat)) →
  sum_counts m data = sum_ix g (seq s (length data)).
Proof.
  revert s. induction data as [|p data IH]; intros s H; [done|].
  simpl. rewrite (H 0%nat p eq_refl). simpl. rewrite Nat.add_0_r. f_equal.
  apply IH. intros i a Ha. rewrite (H (S i) a Ha). do 2 f_equal. lia.
Qed.

(* ===================================================================== *)
(** ** Records that tie on every active attribute                         *)
(* ===================================================================== *)

Lemma SFeqb_key (x y : spec_float) :
  is_nan x = false → is_nan y = false →
  (SFeqb x y = true ↔ order_key x = order_key y).
Proof.
  unfold SFeqb.
  destruct x as [sx|[]| |[] mx ex], y as [sy|[]| |[] my ey]; try discriminate;
    intros _ _; cbn [SFcompare order_key];
    change (PosDef.Pos.compare_cont Eq ?a ?b) with (Pos.compare a b);
    try (split; intros; first [discriminate | reflexivity | congruence]).
  - destruct (Z.compare_spec ex ey), (Pos.compare_spec mx my); cbn [CompOpp];
      split; intros H'; first [discriminate | reflexivity | injection H'; lia
                              | subst; reflexivity].
  - destruct (Z.compare_spec ex ey), (Pos.compare_spec mx my);
      split; intros H'; first [discriminate | reflexivity | injection H'; lia
                              | subst; reflexivity].
Qed.

Lemma SFeqb_ltb_l (x y z : spec_float) :
  is_nan x = false → is_nan y = false → is_nan z = false →
  SFeqb x y = true → SFltb x z = SFltb y z.
Proof.
  intros Hx Hy Hz Heq%SFeqb_key; try done.
  destruct (SFltb x z) eqn:E1, (SFltb y z) eqn:E2; try done.
  - apply SFltb_key in E1; try done. rewrite Heq in E1.
    apply SFltb_key in E1; try done. congruence.
  - apply SFltb_key in E2; try done. rewrite <- Heq in E2.
    apply SFltb_key in E2; try done. congruence.
Qed.

Lemma SFeqb_ltb_r (x y z : spec_float) :
  is_nan x = false → is_nan y = false → is_nan z = false →
  SFeqb x y = true → SFltb z x = SFltb z y.
Proof.
  intros Hx Hy Hz Heq%SFeqb_key; try done.
  destruct (SFltb z x) eqn:E1, (SFltb z y) eqn:E2; try done.
  - apply SFltb_key in E1; try done. rewrite Heq in E1.
    apply SFltb_key in E1; try done. congruence.
  - apply SFltb_key in E2; try done. rewrite <- Heq in E2.
    apply SFltb_key in E2; try done. congruence.
Qed.

Lemma dominates_tie a b c attrs :
  equal_on a b attrs = true →
  dominates a c attrs = dominates b c attrs ∧
  dominates c a attrs = dominates c b attrs.
Proof.
  intros Heq. unfold equal_on in Heq. rewrite forallb_forall in Heq.
  rewrite !dominates_spec. unfold Js.lt, Js.gt, Js.eq in *.
  split; f_equal;
    first [apply forallb_ext_elem | apply existsb_ext_elem];
    intros attr Hattr%list_elem_of_In; specialize (Heq attr Hattr);
    rewrite ?(SFeqb_ltb_l _ _ _ (cpu_val_not_nan a attr) (cpu_val_not_nan b attr)
                (cpu_val_not_nan c attr) Heq);
    rewrite ?(SFeqb_ltb_r _ _ _ (cpu_val_not_nan a attr) (cpu_val_not_nan b attr)
                (cpu_val_not_nan c attr) Heq); done.
Qed.

Lemma row_dominatedBy_alt data attrs i a :
  data !! i = Some a →
  row_dominatedBy data attrs i =
  count_true (λ j, match data !! j with
                   | Some b => dominates b a attrs | None => false end)
             (seq 0 (length data)).
Proof.
  intros Ha. unfold row_dominatedBy. rewrite Ha. apply count_true_ext.
  intros j _. unfold dominated_at. destruct (Nat.eqb_spec i j) as [<-|]; [|done].
  rewrite Ha. simpl. symmetry. apply dominates_irrefl.
Qed.

Lemma row_score_alt data attrs i a :
  data !! i = Some a →
  row_score data attrs i =
  count_true (λ j, match data !! j with
                   | Some b => dominates a b attrs | None => false end)
             (seq 0 (length data)).
Proof.
  intros Ha. unfold row_score. rewrite Ha. apply count_true_ext.
  intros j _. unfold dominating_at. destruct (Nat.eqb_spec i j) as [<-|]; [|done].
  rewrite Ha. simpl. symmetry. apply dominates_irrefl.
Qed.

(* ===================================================================== *)
(** ** The skyline of the skyline                                         *)
(* ===================================================================== *)

Lemma unique_ids_elem (data : list DataPoint) a b :
  unique_ids data → a ∈ data → b ∈ data → id a = id b → a = b.
Proof.
  intros Hu [i Ha]%list_elem_of_lookup [j Hb]%list_elem_of_lookup Hid.
  assert (i = j) as -> by (by eapply unique_ids_inj). congruence.
Qed.

Lemma skylinePoints_undominated now (data : list DataPoint) attrs a b :
  unique_ids data →
  a ∈ data →
  b ∈ TabularView.skylinePoints data (computeSkylineCPU now data attrs) →
  dominates a b attrs = false.
Proof.
  intros Hu Ha Hb. unfold TabularView.skylinePoints in Hb.
  apply list_elem_of_filter in Hb as [Hsky Hb].
  apply cpu_skyline_iff in Hsky as (b' & Hb' & Hid & Hz).
  assert (b' = b) as -> by (by eapply unique_ids_elem). by apply Hz.
Qed.

(* ===================================================================== *)
(** ** The counters as numbers of records                                 *)
(* ===================================================================== *)

Lemma count_true_fmap (f : nat → bool) (g : nat → nat) js :
  count_true f (g <$> js) = count_true (f ∘ g) js.
Proof. induction js as [|j js IH]; [done|]. csimpl. by rewrite IH. Qed.

Lemma count_true_filter {A} (R : A → bool) (l : list A) :
  count_true (λ j, match l !! j with Some b => R b | None => false end)
             (seq 0 (length l))
  = Z.of_nat (length (List.filter R l)).
Proof.
  induction l as [|x l IH]; [done|].
  cbn [length seq count_true List.filter]. rewrite <- fmap_S_seq, count_true_fmap.
  cbn [lookup list_lookup]. 
  rewrite (count_true_ext _ (λ j, match l !! j with Some b => R b | None => false end))
    by done.
  rewrite IH. destruct (R x); cbn [length]; lia.
Qed.

(* ===================================================================== *)
(** ** Further properties of the serial backend                           *)
(* ===================================================================== *)

(** X1: dominance is transitive: if [a] dominates [b] and [b] dominates
    [c] on an attribute list, then [a] dominates [c] on it. *)
Theorem dominance_transitive (a b c : DataPoint) (attributes : list AttributeConfig) :
  dominates a b attributes = true → dominates b c attributes = true →
  dominates a c attributes = true.
Proof. apply dominates_trans. Qed.

Lemma dominance_transitive_witness :
  dominates (player "A" 90 80) (player "B" 80 80) example_attrs = true ∧
  dominates (player "B" 80 80) (player "C" 70 70) example_attrs = true ∧
  dominates (player "A" 90 80) (player "C" 70 70) example_attrs = true.
Proof.
  split; [reflexivity|]. split; [reflexivity|].
  exact (dominance_transitive (player "A" 90 80) (player "B" 80 80)
           (player "C" 70 70) example_attrs eq_refl eq_refl).
Defined.

(** X2: the serial backend's skylineIds holds exactly the ids of the
    records that no record of the data dominates. *)
Theorem skyline_is_undominated (now : nat → Js.number) (data : list DataPoint)
    (attrs : list AttributeConfig) (k : string) :
  k ∈ skylineIds (computeSkylineCPU now data attrs) ↔
  ∃ a, a ∈ data ∧ id a = k ∧ ∀ b, b ∈ data → dominates b a attrs = false.
Proof. apply cpu_skyline_iff. Qed.

(** X3: on a non-empty list of records the serial backend's skylineIds
    is not empty: every record of the data either has its id in
    skylineIds or is dominated by a record whose id is in skylineIds. *)
Theorem skyline_covers_data (now : nat → Js.number) (data : list DataPoint)
    (attrs : list AttributeConfig) (p : DataPoint) :
  p ∈ data →
  skylineIds (computeSkylineCPU now data attrs) ≠ ∅ ∧
  (id p ∈ skylineIds (computeSkylineCPU now data attrs) ∨
   ∃ q, q ∈ data ∧ id q ∈ skylineIds (computeSkylineCPU now data attrs) ∧
        dominates q p attrs = true).
Proof.
  intros Hp. pose proof (cpu_skyline_cover now data attrs p Hp) as Hc.
  split; [|done].
  destruct Hc as [H|(q & _ & H & _)]; intros Hempty; rewrite Hempty in H;
    by apply not_elem_of_empty in H.
Qed.

Lemma skyline_covers_data_witness :
  skylineIds (computeSkylineCPU clock0 example_data example_attrs) ≠ ∅ ∧
  ("C" ∈ skylineIds (computeSkylineCPU clock0 example_data example_attrs) ∨
   ∃ q, q ∈ example_data ∧
        id q ∈ skylineIds (computeSkylineCPU clock0 example_data example_attrs) ∧
        dominates q (player "C" 70 70) example_attrs = true).
Proof.
  assert (Hin : player "C" 70 70 ∈ example_data) by (right; right; left).
  exact (skyline_covers_data clock0 example_data example_attrs (player "C" 70 70) Hin).
Defined.

(** The keys of dominanceScores and of dominatedBy in the serial
    backend's result are exactly the ids of the input records other
    than [__proto__], and skylineIds holds only ids of input records. *)
Lemma result_keys (now : nat → Js.number) (data : list DataPoint)
    (attrs : list AttributeConfig) :
  dom (dominanceScores (computeSkylineCPU now data attrs))
    = (list_to_set (id <$> data) ∖ {[PROTO]} : gset string) ∧
  dom (dominatedBy (computeSkylineCPU now data attrs))
    = (list_to_set (id <$> data) ∖ {[PROTO]} : gset string) ∧
  skylineIds (computeSkylineCPU now data attrs)
    ⊆ (list_to_set (id <$> data) : gset string).
Proof.
  destruct (cpu_lookup now data attrs) as (Hsc & Hdby & _).
  split_and!.
  - apply set_eq. intros k.
    rewrite elem_of_dom, Hsc, elem_of_difference, elem_of_list_to_set,
      elem_of_singleton.
    case_decide as Hk; (split; [|intros ?]); [done|by eexists|by intros [? ?]|done].
  - apply set_eq. intros k.
    rewrite elem_of_dom, Hdby, elem_of_difference, elem_of_list_to_set,
      elem_of_singleton.
    case_decide as Hk; (split; [|intros ?]); [done|by eexists|by intros [? ?]|done].
  - intros k (a & Ha & <- & _)%cpu_skyline_iff.
    apply elem_of_list_to_set, list_elem_of_fmap. by exists a.
Qed.

(** X4: with unique ids, the serial backend's dominanceScores entry of a
    record whose id is not [__proto__] is the number of records of the
    data it dominates, and its dominatedBy entry the number of records
    that dominate it. *)
Theorem counts_are_cardinalities (now : nat → Js.number) (data : list DataPoint)
    (attrs : list AttributeConfig) (a : DataPoint) :
  unique_ids data → a ∈ data → id a ≠ PROTO →
  dominanceScores (computeSkylineCPU now data attrs) !! id a
    = Some (Z.of_nat (length (List.filter (λ b, dominates a b attrs) data))) ∧
  dominatedBy (computeSkylineCPU now data attrs) !! id a
    = Some (Z.of_nat (length (List.filter (λ b, dominates b a attrs) data))).
Proof.
  intros Hu [i Ha]%list_elem_of_lookup Hp.
  destruct (cpu_record now data attrs i a Hu Ha Hp) as (-> & -> & _).
  rewrite (row_score_alt _ _ _ _ Ha), (row_dominatedBy_alt _ _ _ _ Ha).
  by rewrite !count_true_filter.
Qed.

Lemma counts_are_cardinalities_witness :
  dominanceScores (computeSkylineCPU clock0 example_data example_attrs) !! "A"
    = Some (Z.of_nat (length (List.filter
              (λ b, dominates (player "A" 90 80) b example_attrs) example_data))) ∧
  dominatedBy (computeSkylineCPU clock0 example_data example_attrs) !! "A"
    = Some (Z.of_nat (length (List.filter
              (λ b, dominates b (player "A" 90 80) example_attrs) example_data))).
Proof.
  assert (Hin : player "A" 90 80 ∈ example_data) by left.
  assert (Hp : id (player "A" 90 80) ≠ PROTO) by done.
  exact (counts_are_cardinalities clock0 example_data example_attrs
           (player "A" 90 80) example_unique Hin Hp).
Defined.

(** X5: with unique ids, none of them [__proto__], the dominanceScores
    of all records add up to the same total as their dominatedBy counts:
    each dominating pair is counted once on either side. *)
Theorem counts_balance (now : nat → Js.number) (data : list DataPoint)
    (attrs : list AttributeConfig) :
  unique_ids data → (∀ p, p ∈ data → id p ≠ PROTO) →
  sum_counts (dominanceScores (computeSkylineCPU now data attrs)) data
  = sum_counts (dominatedBy (computeSkylineCPU now data attrs)) data.
Proof.
  intros Hu Hp.
  assert (Hp' : ∀ i a, data !! i = Some a → id a ≠ PROTO).
  { intros i a Ha. apply Hp. by eapply list_elem_of_lookup_2. }
  rewrite (sum_counts_lookup _ (row_score data attrs) data 0).
  2:{ intros i a Ha.
      by destruct (cpu_record now data attrs i a Hu Ha (Hp' i a Ha)) as (-> & _). }
  rewrite (sum_counts_lookup _ (row_dominatedBy data attrs) data 0).
  2:{ intros i a Ha.
      by destruct (cpu_record now data attrs i a Hu Ha (Hp' i a Ha))
        as (_ & -> & _). }
  set (P := λ i j : nat,
         negb (Nat.eqb i j) &&
         match data !! i, data !! j with
         | Some a, Some b => dominates a b attrs
         | _, _ => false
         end).
  rewrite (sum_ix_ext _ (λ i, count_true (P i) (seq 0 (length data)))).
  2:{ intros i Hi. unfold row_score. destruct (data !! i) as [a|] eqn:Ha.
      - apply count_true_ext. intros j _. unfold dominating_at, P. by rewrite Ha.
      - symmetry. apply count_true_zero. intros j _. unfold P.
        by rewrite Ha, andb_false_r. }
  rewrite sum_count_swap. apply sum_ix_ext. intros i Hi. unfold row_dominatedBy.
  destruct (data !! i) as [a|] eqn:Ha.
  - apply count_true_ext. intros j _. unfold dominated_at, P.
    rewrite Ha, (Nat.eqb_sym j i). by destruct (data !! j).
  - apply count_true_zero. intros j _. unfold P. rewrite Ha.
    destruct (data !! j); by rewrite andb_false_r.
Qed.

Lemma example_no_proto p : p ∈ example_data → id p ≠ PROTO.
Proof. intros Hp. each_elem Hp; done. Qed.

Lemma counts_balance_witness :
  sum_counts (dominanceScores (computeSkylineCPU clock0 example_data example_attrs))
             example_data
  = sum_counts (dominatedBy (computeSkylineCPU clock0 example_data example_attrs))
               example_data.
Proof.
  exact (counts_balance clock0 example_data example_attrs example_unique
           example_no_proto).
Defined.

(** X6: with an empty attribute list the serial backend puts the id of
    every record in skylineIds and gives every id other than [__proto__]
    the counts 0 and 0; under [__proto__] it stores no count. *)
Theorem serial_no_attributes (now : nat → Js.number) (data : list DataPoint) :
  skylineIds (computeSkylineCPU now data [])
    = (list_to_set (id <$> data) : gset string) ∧
  dominanceScores (computeSkylineCPU now data [])
    = gset_to_gmap 0%Z (list_to_set (id <$> data) ∖ {[PROTO]}) ∧
  dominatedBy (computeSkylineCPU now data [])
    = gset_to_gmap 0%Z (list_to_set (id <$> data) ∖ {[PROTO]}).
Proof. apply cpu_lookup_no_attributes. Qed.

(** X7: the serial backend's skylineIds, dominanceScores and dominatedBy
    do not depend on the order of the attribute list. *)
Theorem attribute_order_irrelevant (now now' : nat → Js.number)
    (data : list DataPoint) (attrs attrs' : list AttributeConfig) :
  attrs ≡ₚ attrs' →
  skylineIds (computeSkylineCPU now data attrs)
    = skylineIds (computeSkylineCPU now' data attrs') ∧
  dominanceScores (computeSkylineCPU now data attrs)
    = dominanceScores (computeSkylineCPU now' data attrs') ∧
  dominatedBy (computeSkylineCPU now data attrs)
    = dominatedBy (computeSkylineCPU now' data attrs').
Proof. intros Hp. apply cpu_result_ext. intros a b _ _. by apply dominates_perm. Qed.

Lemma attribute_order_irrelevant_witness :
  skylineIds (computeSkylineCPU clock0 example_data
                [attribute "pace"; attribute "shoot"])
    = skylineIds (computeSkylineCPU clock0 example_data
                    [attribute "shoot"; attribute "pace"]) ∧
  dominanceScores (computeSkylineCPU clock0 example_data
                     [attribute "pace"; attribute "shoot"])
    = dominanceScores (computeSkylineCPU clock0 example_data
                         [attribute "shoot"; attribute "pace"]) ∧
  dominatedBy (computeSkylineCPU clock0 example_data
                 [attribute "pace"; attribute "shoot"])
    = dominatedBy (computeSkylineCPU clock0 example_data
                     [attribute "shoot"; attribute "pace"]).
Proof.
  exact (attribute_order_irrelevant clock0 clock0 example_data
           [attribute "pace"; attribute "shoot"]
           [attribute "shoot"; attribute "pace"]
           (perm_swap (attribute "shoot") (attribute "pace") [])).
Defined.

(** X8: with unique ids, two records that are equal ([===]) on every
    active attribute are both in skylineIds or both out of it, and when
    neither id is [__proto__] they have the same dominanceScores entry
    and the same dominatedBy entry. *)
Theorem tied_records_agree (now : nat → Js.number) (data : list DataPoint)
    (attrs : list AttributeConfig) (a b : DataPoint) :
  unique_ids data → a ∈ data → b ∈ data → equal_on a b attrs = true →
  (id a ∈ skylineIds (computeSkylineCPU now data attrs)
   ↔ id b ∈ skylineIds (computeSkylineCPU now data attrs)) ∧
  (id a ≠ PROTO → id b ≠ PROTO →
   dominanceScores (computeSkylineCPU now data attrs) !! id a
     = dominanceScores (computeSkylineCPU now data attrs) !! id b ∧
   dominatedBy (computeSkylineCPU now data attrs) !! id a
     = dominatedBy (computeSkylineCPU now data attrs) !! id b).
Proof.
  intros Hu [i Ha]%list_elem_of_lookup [j Hb]%list_elem_of_lookup Heq.
  assert (H1 : row_score data attrs i = row_score data attrs j).
  { rewrite (row_score_alt _ _ _ _ Ha), (row_score_alt _ _ _ _ Hb).
    apply count_true_ext. intros k _. destruct (data !! k) as [c|]; [|done].
    apply (dominates_tie a b c attrs Heq). }
  assert (H2 : row_dominatedBy data attrs i = row_dominatedBy data attrs j).
  { rewrite (row_dominatedBy_alt _ _ _ _ Ha), (row_dominatedBy_alt _ _ _ _ Hb).
    apply count_true_ext. intros k _. destruct (data !! k) as [c|]; [|done].
    apply (dominates_tie a b c attrs Heq). }
  split.
  - rewrite (cpu_record_sky now data attrs i a Hu Ha),
      (cpu_record_sky now data attrs j b Hu Hb). by rewrite H2.
  - intros Hpa Hpb.
    destruct (cpu_record now data attrs i a Hu Ha Hpa) as (-> & -> & _).
    destruct (cpu_record now data attrs j b Hu Hb Hpb) as (-> & -> & _).
    by rewrite H1, H2.
Qed.

Lemma tied_records_agree_witness :
  ("A" ∈ skylineIds (computeSkylineCPU clock0 tie_data example_attrs)
   ↔ "B" ∈ skylineIds (computeSkylineCPU clock0 tie_data example_attrs)) ∧
  dominanceScores (computeSkylineCPU clock0 tie_data example_attrs) !! "A"
    = dominanceScores (computeSkylineCPU clock0 tie_data example_attrs) !! "B" ∧
  dominatedBy (computeSkylineCPU clock0 tie_data example_attrs) !! "A"
    = dominatedBy (computeSkylineCPU clock0 tie_data example_attrs) !! "B".
Proof.
  assert (Hu : unique_ids tie_data) by (apply (bool_decide_unpack _); exact I).
  assert (Ha : player "A" 90 80 ∈ tie_data) by left.
  assert (Hb : player "B" 90 80 ∈ tie_data) by (right; left).
  assert (Hpa : id (player "A" 90 80) ≠ PROTO) by done.
  assert (Hpb : id (player "B" 90 80) ≠ PROTO) by done.
  destruct (tied_records_agree clock0 tie_data example_attrs (player "A" 90 80)
              (player "B" 90 80) Hu Ha Hb eq_refl) as [Hsky Hmaps].
  split; [exact Hsky|]. exact (Hmaps Hpa Hpb).
Defined.

(** X9: the skyline of the skyline is the skyline: running the serial
    backend on [skylinePoints], the records whose id is in skylineIds,
    gives the same skylineIds. *)
Theorem skyline_idempotent (now now' : nat → Js.number) (data : list DataPoint)
    (attrs : list AttributeConfig) :
  skylineIds (computeSkylineCPU now'
                (TabularView.skylinePoints data (computeSkylineCPU now data attrs))
                attrs)
  = skylineIds (computeSkylineCPU now data attrs).
Proof.
  apply set_eq. intros k. split.
  - intros (a & Ha & <- & _)%cpu_skyline_iff.
    unfold TabularView.skylinePoints in Ha.
    by apply list_elem_of_filter in Ha as [? _].
  - intros Hk. pose proof Hk as (a & Ha & <- & Hz)%cpu_skyline_iff.
    apply cpu_skyline_iff. exists a. split.
    + unfold TabularView.skylinePoints. by apply list_elem_of_filter.
    + split; [done|]. intros b Hb. apply Hz.
      unfold TabularView.skylinePoints in Hb.
      by apply list_elem_of_filter in Hb as [_ ?].
Qed.

(* ===================================================================== *)
(** ** Rounding to binary32 never produces NaN                            *)
(* ===================================================================== *)

Lemma iter_pos_inv {A} (P : A → Prop) (f : A → A) :
  (∀ x, P x → P (f x)) → ∀ n x, P x → P (SpecFloat.iter_pos f n x).
Proof.
  intros Hf. induction n as [n IH|n IH|]; intros x Hx; simpl; auto.
Qed.

Lemma shr_1_nonneg mrs : (0 ≤ shr_m mrs)%Z → (0 ≤ shr_m (shr_1 mrs))%Z.
Proof.
  destruct mrs as [m r s]. simpl. destruct m as [|[p|p|]|[p|p|]]; simpl; lia.
Qed.

Lemma shr_nonneg mrs e n : (0 ≤ shr_m mrs)%Z → (0 ≤ shr_m (shr mrs e n).1)%Z.
Proof.
  intros H. unfold shr. destruct n as [|p|p]; simpl; try done.
  by apply (iter_pos_inv (λ x, (0 ≤ shr_m x)%Z)); [apply shr_1_nonneg|].
Qed.

Lemma shr_fexp_nonneg prec emax m e l :
  (0 ≤ m)%Z → (0 ≤ shr_m (shr_fexp prec emax m e l).1)%Z.
Proof.
  intros H. unfold shr_fexp. apply shr_nonneg. by destruct l as [|[]].
Qed.

Lemma round_nearest_even_nonneg m l :
  (0 ≤ m)%Z → (0 ≤ round_nearest_even m l)%Z.
Proof.
  intros H. unfold round_nearest_even. destruct l as [|[]]; try lia.
  destruct (Z.even m); lia.
Qed.

Lemma binary_round_aux_not_nan prec emax s m e l :
  (0 ≤ m)%Z → is_nan (binary_round_aux prec emax s m e l) = false.
Proof.
  intros H. unfold binary_round_aux.
  pose proof (shr_fexp_nonneg prec emax m e l H) as H1.
  destruct (shr_fexp prec emax m e l) as [mrs' e'].
  pose proof (shr_fexp_nonneg prec emax
                (round_nearest_even (shr_m mrs') (loc_of_shr_record mrs')) e'
                loc_Exact (round_nearest_even_nonneg _ _ H1)) as H2.
  destruct (shr_fexp prec emax _ e' loc_Exact) as [mrs'' e''].
  simpl in H2. destruct (shr_m mrs'') as [|p|p]; [done| |lia].
  by destruct (e'' <=? emax - prec)%Z.
Qed.

Lemma binary_round_not_nan prec emax s m e :
  is_nan (binary_round prec emax s m e) = false.
Proof.
  unfold binary_round. destruct (shl_align m e _) as [mz ez].
  by apply binary_round_aux_not_nan.
Qed.

Lemma fround_not_nan v : is_nan v = false → is_nan (Js.fround v) = false.
Proof.
  destruct v as [| | |s m e]; try done. intros _. apply binary_round_not_nan.
Qed.

(** A marshalled cell is never NaN. *)
Lemma gpu_cell_not_nan row attr : is_nan (gpu_cell row attr) = false.
Proof.
  unfold gpu_cell. apply fround_not_nan.
  by destruct (Js.Number (prop row (key attr))) as [| | |].
Qed.

(* ===================================================================== *)
(** ** Dominance on the marshalled cells                                  *)
(* ===================================================================== *)

Lemma gpu_dominates_irrefl a attrs : gpu_dominates a a attrs = false.
Proof.
  unfold gpu_dominates. apply andb_false_iff. right.
  induction attrs as [|attr attrs IH]; [done|]. simpl.
  by rewrite SFltb_irrefl, IH.
Qed.

Lemma gpu_dominates_trans a b c attrs :
  gpu_dominates a b attrs = true → gpu_dominates b c attrs = true →
  gpu_dominates a c attrs = true.
Proof.
  unfold gpu_dominates.
  intros [Hab1 Hab2]%andb_true_iff [Hbc1 Hbc2]%andb_true_iff.
  rewrite forallb_forall in Hab1, Hbc1.
  apply existsb_exists in Hab2 as (attr & Hin & Hgt).
  apply andb_true_iff. split.
  - apply forallb_forall. intros k Hk.
    specialize (Hab1 k Hk). specialize (Hbc1 k Hk).
    apply negb_true_iff. apply negb_true_iff in Hab1, Hbc1.
    destruct (SFltb (gpu_cell a k) (gpu_cell c k)) eqn:E; [|done].
    destruct (SFltb_cotrans _ (gpu_cell b k) _ (gpu_cell_not_nan b k) E);
      congruence.
  - apply existsb_exists. exists attr. split; [done|].
    specialize (Hbc1 attr Hin). apply negb_true_iff in Hbc1.
    destruct (SFltb_cotrans _ (gpu_cell c attr) _ (gpu_cell_not_nan c attr) Hgt);
      congruence.
Qed.

(** Without index wrap-around, the kernel's counters for record [i] are
    the numbers of records that dominate it, and that it dominates, on
    the marshalled cells. *)
Lemma counters_cells data attrs d i a :
  (Z.of_nat (length data) * Z.of_nat (length attrs) < 2 ^ 32)%Z →
  attrs ≠ [] → data !! i = Some a →
  Wgsl.counters (uploaded_data data attrs d) (call_params data attrs) i =
  (Z.of_nat (length (List.filter (λ b, gpu_dominates b a attrs) data)),
   Z.of_nat (length (List.filter (λ b, gpu_dominates a b attrs) data))).
Proof.
  intros Hsz Hne Ha.
  pose proof (lookup_lt_Some _ _ _ Ha) as Hi.
  assert (0 < length attrs)%nat by (destruct attrs; [done|simpl; lia]).
  assert (Hp : call_params data attrs =
               Wgsl.mkParams (Z.of_nat (length attrs)) (Z.of_nat (length data))).
  { unfold call_params. rewrite !u32_small by nia. done. }
  rewrite Hp, counters_spec by (cbn [Wgsl.count]; nia).
  cbn [Wgsl.count]. rewrite Nat2Z.id.
  rewrite <- !count_true_filter.
  f_equal; apply count_true_ext; intros j Hj%elem_of_seq;
    (destruct (data !! j) as [b|] eqn:Hb; [|apply lookup_ge_None in Hb; lia]);
    destruct (kernel_dominates_rows (uploaded_data data attrs d) data attrs i j a b)
      as [Hk1 Hk2]; try done;
    try (intros; by apply uploaded_data_lookup);
    rewrite ?Hk1, ?Hk2;
    (destruct (Nat.eqb_spec i j) as [<-|]; [|done]);
    rewrite Ha in Hb; injection Hb as <-; by rewrite gpu_dominates_irrefl.
Qed.

Lemma filter_length_zero {A} (f : A → bool) (l : list A) :
  Z.of_nat (length (List.filter f l)) = 0%Z ↔ ∀ x, x ∈ l → f x = false.
Proof.
  induction l as [|x l IH]; simpl.
  - split; [by intros _ x ?%elem_of_nil|done].
  - destruct (f x) eqn:E; simpl.
    + split; [lia|]. intros H. specialize (H x (list_elem_of_here _ _)). congruence.
    + rewrite IH. split.
      * intros H y [->|Hy]%elem_of_cons; auto.
      * intros H y Hy. apply H. by right.
Qed.

Lemma gpu_undominated env (data : list DataPoint) attrs w r w' a :
  wf_world w → unique_ids data → attrs ≠ [] →
  (Z.of_nat (length data) * Z.of_nat (length attrs) < 2 ^ 32)%Z →
  computeSkylineWebGPU env data attrs w = (inr r, w') →
  a ∈ data →
  id a ∈ skylineIds r ↔ ∀ b, b ∈ data → gpu_dominates b a attrs = false.
Proof.
  intros Hwf Hu Hne Hsz Hrun [i Ha]%list_elem_of_lookup.
  assert (0 < length attrs)%nat by (destruct attrs; [done|simpl; lia]).
  assert (Hlen : (Z.of_nat (length data) < 2 ^ 32)%Z) by nia.
  destruct (gpu_record_sky _ _ _ _ _ _ _ _ Hwf Hu Hne Hlen Hrun Ha)
    as (d & Hsky).
  rewrite (counters_cells data attrs d i a Hsz Hne Ha) in Hsky.
  cbn [fst snd] in *. rewrite Hsky. apply filter_length_zero.
Qed.

Lemma gpu_counts env (data : list DataPoint) attrs w r w' a :
  wf_world w → unique_ids data → attrs ≠ [] →
  (Z.of_nat (length data) * Z.of_nat (length attrs) < 2 ^ 32)%Z →
  computeSkylineWebGPU env data attrs w = (inr r, w') →
  a ∈ data → id a ≠ PROTO →
  dominanceScores r !! id a
    = Some (Z.of_nat (length (List.filter (λ b, gpu_dominates a b attrs) data))) ∧
  dominatedBy r !! id a
    = Some (Z.of_nat (length (List.filter (λ b, gpu_dominates b a attrs) data))).
Proof.
  intros Hwf Hu Hne Hsz Hrun [i Ha]%list_elem_of_lookup Hp.
  assert (0 < length attrs)%nat by (destruct attrs; [done|simpl; lia]).
  assert (Hlen : (Z.of_nat (length data) < 2 ^ 32)%Z) by nia.
  destruct (gpu_record _ _ _ _ _ _ _ _ Hwf Hu Hne Hlen Hrun Ha Hp)
    as (d & Hs & Hb & _).
  rewrite (counters_cells data attrs d i a Hsz Hne Ha) in Hs, Hb.
  cbn [fst snd] in *. done.
Qed.

Lemma gpu_skyline_cover env (data : list DataPoint) attrs w r w' p :
  wf_world w → unique_ids data → attrs ≠ [] →
  (Z.of_nat (length data) * Z.of_nat (length attrs) < 2 ^ 32)%Z →
  computeSkylineWebGPU env data attrs w = (inr r, w') →
  p ∈ data →
  id p ∈ skylineIds r ∨
  ∃ q, q ∈ data ∧ id q ∈ skylineIds r ∧ gpu_dominates q p attrs = true.
Proof.
  intros Hwf Hu Hne Hsz Hrun Hp.
  destruct (existsb (λ c, gpu_dominates c p attrs) data) eqn:E.
  - right. apply existsb_exists in E as (c & Hc%list_elem_of_In & Hcp).
    destruct (maximal_above (λ x y, gpu_dominates x y attrs) data p c)
      as (q & Hq & Hqp & Hmax); try done.
    { intros x. apply gpu_dominates_irrefl. }
    { intros x y z. apply gpu_dominates_trans. }
    exists q. split; [done|]. split; [|done].
    by apply (gpu_undominated env data attrs w r w' q).
  - left. apply (gpu_undominated env data attrs w r w' p); try done.
    intros b Hb. destruct (gpu_dominates b p attrs) eqn:Hbp; [|done].
    assert (existsb (λ c, gpu_dominates c p attrs) data = true); [|congruence].
    apply existsb_exists. exists b. split; [by apply list_elem_of_In|done].
Qed.

(* ===================================================================== *)
(** ** What earlier calls left in the buffers does not matter             *)
(* ===================================================================== *)

Lemma fold_left_ext_elem {A B} (f g : A → B → A) (l : list B) (a : A) :
  (∀ x y, y ∈ l → f x y = g x y) → fold_left f l a = fold_left g l a.
Proof.
  revert a. induction l as [|y l IH]; intros a H; [done|]. simpl.
  rewrite (H a y) by (by left). apply IH. intros x y' Hy'. apply H. by right.
Qed.

Lemma decode_ext data res res' :
  (∀ i, (i < length data)%nat →
        res !! (i * 2)%nat = res' !! (i * 2)%nat ∧
        res !! (i * 2 + 1)%nat = res' !! (i * 2 + 1)%nat) →
  decode data res = decode data res'.
Proof.
  intros H. unfold decode. apply fold_left_ext_elem.
  intros st i Hi%elem_of_seq. unfold decode_step.
  destruct (data !! i); [|done]. destruct (H i) as [-> ->]; [lia|done].
Qed.

Lemma gpu_result_cells env (data : list DataPoint) attrs w r w' :
  wf_world w → data ≠ [] → attrs ≠ [] →
  (Z.of_nat (length data) * Z.of_nat (length attrs) < 2 ^ 32)%Z →
  computeSkylineWebGPU env data attrs w = (inr r, w') →
  ∃ res,
    r = result_of env data res ∧
    ∀ i a, data !! i = Some a →
      res !! (i * 2)%nat
        = Some (Z.of_nat (length (List.filter (λ b, gpu_dominates b a attrs) data))) ∧
      res !! (i * 2 + 1)%nat
        = Some (Z.of_nat (length (List.filter (λ b, gpu_dominates a b attrs) data))).
Proof.
  intros Hwf Hd Hne Hsz Hrun.
  assert (0 < length attrs)%nat by (destruct attrs; [done|simpl; lia]).
  assert (Hlen : (Z.of_nat (length data) < 2 ^ 32)%Z) by nia.
  destruct (gpu_returns_cases _ _ _ _ _ _ Hwf Hrun)
    as [[[?|?] _]|(_ & _ & _ & d & rbuf & rb & -> & Hcap)]; [done..|].
  eexists. split; [reflexivity|]. intros i a Ha.
  destruct (readback_words_lookup data attrs d rbuf rb i Hlen Hcap) as [H1 H2].
  { by eapply lookup_lt_Some. }
  rewrite H1, H2, (counters_cells data attrs d i a Hsz Hne Ha). done.
Qed.

(* ===================================================================== *)
(** ** The device operations of a call                                    *)
(* ===================================================================== *)

Lemma ensureBuffer_exact {W} (zero : W) buf cur need usage w :
  ensureBuffer zero buf cur need usage w =
  (inr (ensure_buf zero buf cur need usage, ensure_bytes buf cur need),
   with_trace (trace w ++ ensure_events buf cur need usage) w).
Proof.
  unfold ensureBuffer, ensure_buf, ensure_bytes, ensure_events.
  destruct buf as [b|]; [destruct (need <=? cur)%Z|].
  - rewrite app_nil_r. by destruct w.
  - cbv [bind emit modify ret]. cbn [trace with_trace]. by rewrite <- app_assoc.
  - done.
Qed.

Lemma ensureBuffers_exact nd nr nu nrb w :
  ensureBuffers nd nr nu nrb w =
  (inr tt,
   mkWorld (gpuStatePromise w)
     (Some (ensure_buf Js.zero (dataBuf w) (dataBufBytes w) nd [STORAGE; COPY_DST]))
     (ensure_bytes (dataBuf w) (dataBufBytes w) nd)
     (Some (ensure_buf 0%Z (resultBuf w) (resultBufBytes w) nr [STORAGE; COPY_SRC]))
     (ensure_bytes (resultBuf w) (resultBufBytes w) nr)
     (Some (ensure_buf 0%Z (uniformBuf w) (uniformBufBytes w) nu [UNIFORM; COPY_DST]))
     (ensure_bytes (uniformBuf w) (uniformBufBytes w) nu)
     (Some (ensure_buf 0%Z (readbackBuf w) (readbackBufBytes w) nrb
              [COPY_DST; MAP_READ]))
     (ensure_bytes (readbackBuf w) (readbackBufBytes w) nrb)
     (trace w ++
      ensure_events (dataBuf w) (dataBufBytes w) nd [STORAGE; COPY_DST] ++
      ensure_events (resultBuf w) (resultBufBytes w) nr [STORAGE; COPY_SRC] ++
      ensure_events (uniformBuf w) (uniformBufBytes w) nu [UNIFORM; COPY_DST] ++
      ensure_events (readbackBuf w) (readbackBufBytes w) nrb [COPY_DST; MAP_READ])).
Proof.
  destruct w as [gp d db r rb u ub k kb t].
  unfold ensureBuffers, bind, get, modify.
  cbn [dataBuf dataBufBytes]. rewrite ensureBuffer_exact. simpl.
  rewrite ensureBuffer_exact. simpl.
  rewrite ensureBuffer_exact. simpl.
  rewrite ensureBuffer_exact. simpl.
  by rewrite <- !app_assoc.
Qed.

(** A call that gets a device issues, after the acquisition if there is
    one, the buffer operations of its four [ensureBuffer] blocks, two
    uploads, one dispatch, one copy and one submission, and then maps;
    it leaves a buffer in each slot. *)
Lemma gpu_run_trace env (data : list DataPoint) attrs w g w1 :
  data ≠ [] → attrs ≠ [] → env_enums env = true →
  getGPUState env w = (inr g, w1) →
  ∃ out w',
    computeSkylineWebGPU env data attrs w = (out, w') ∧
    trace w' = trace w1 ++ alloc_events data attrs w ++ work_events data attrs
                 ++ map_events env ∧
    gpuStatePromise w' = Some (inr g) ∧
    is_Some (dataBuf w') ∧ is_Some (resultBuf w') ∧
    is_Some (uniformBuf w') ∧ is_Some (readbackBuf w') ∧
    dataBufBytes w' = ensure_bytes (dataBuf w) (dataBufBytes w) (needDataBytes data attrs) ∧
    resultBufBytes w' = ensure_bytes (resultBuf w) (resultBufBytes w) (needResultBytes data) ∧
    uniformBufBytes w' = ensure_bytes (uniformBuf w) (uniformBufBytes w) 8 ∧
    readbackBufBytes w' = ensure_bytes (readbackBuf w) (readbackBufBytes w)
                            (needResultBytes data).
Proof.
  intros Hd Ha He Hg.
  pose proof (getGPUState_frame _ _ _ _ Hg)
    as (Hp & E1 & E2 & E3 & E4 & E5 & E6 & E7 & E8 & _).
  unfold computeSkylineWebGPU.
  rewrite nonempty_guard by done. unfold bind at 1, getWebGPUEnums.
  rewrite He. unfold ret at 1. unfold bind at 1. rewrite Hg.
  unfold bind at 1. rewrite ensureBuffers_exact.
  rewrite E1, E2, E3, E4, E5, E6, E7, E8, Hp.
  unfold alloc_events, work_events, map_events, needDataBytes, needResultBytes.
  set (flat := marshal data attrs).
  set (b1 := ensure_buf Js.zero _ _ _ _).
  set (b2 := ensure_buf 0%Z (resultBuf w) _ _ _).
  set (b3 := ensure_buf 0%Z (uniformBuf w) _ _ _).
  set (b4 := ensure_buf 0%Z (readbackBuf w) _ _ _).
  set (n1 := ensure_bytes (dataBuf w) _ _).
  set (n2 := ensure_bytes (resultBuf w) _ _).
  set (n3 := ensure_bytes (uniformBuf w) _ _).
  set (n4 := ensure_bytes (readbackBuf w) _ _).
  set (e1 := ensure_events (dataBuf w) _ _ _).
  set (e2 := ensure_events (resultBuf w) _ _ _).
  set (e3 := ensure_events (uniformBuf w) _ _ _).
  set (e4 := ensure_events (readbackBuf w) _ _ _).
  destruct (env_mapAsync env 0%nat) eqn:E0; [|destruct (env_mapAsync env 1%nat) eqn:E1'];
    cbv [writeBuffer_data writeBuffer_uniform submit mapReadback mappedWords unmap
         bind emit modify get ret try_catch mapAsync throw];
    rewrite ?E0, ?E1';
    cbn [trace dataBuf resultBuf uniformBuf readbackBuf with_trace with_dataBuf
         with_uniformBuf fmap option_fmap option_map gpuStatePromise dataBufBytes
         resultBufBytes uniformBufBytes readbackBufBytes run_pass run_copy
         with_resultBuf with_readbackBuf buf_words buf_size buf_usage length].
  all: try (match goal with
        | |- context [decode ?D ?X] =>
            destruct (decode D X) as [[sky sc] dby]
        end).
  all: eexists _, _.
  all: (split; [reflexivity|]).
  all: cbn [trace dataBuf resultBuf uniformBuf readbackBuf with_trace with_dataBuf
         with_uniformBuf gpuStatePromise dataBufBytes
         resultBufBytes uniformBufBytes readbackBufBytes
         with_resultBuf with_readbackBuf].
  all: (split; [by rewrite <- !app_assoc|]).
  all: (split_and!; by eauto).
Qed.

(* ===================================================================== *)
(** ** Invariants of the module state                                     *)
(* ===================================================================== *)

Lemma getGPUState_cases env w p w1 :
  getGPUState env w = (p, w1) →
  (gpuStatePromise w = Some p ∧ w1 = w) ∨
  (gpuStatePromise w = None ∧ p = acquire env ∧
   trace w1 = trace w ++ [EvAcquire]).
Proof.
  unfold getGPUState. destruct (gpuStatePromise w) as [q|] eqn:E.
  - intros [= <- <-]. by left.
  - intros [= <- <-]. right. by split_and!.
Qed.

(** The three ways a call can leave the module state. *)
Lemma call_cases env (data : list DataPoint) attrs w :
  let w' := (computeSkylineWebGPU env data attrs w).2 in
  w' = w ∨
  (∃ e, getGPUState env w = (inl e, w')) ∨
  (∃ g w1, data ≠ [] ∧ attrs ≠ [] ∧ getGPUState env w = (inr g, w1) ∧
     trace w' = trace w1 ++ alloc_events data attrs w ++ work_events data attrs
                  ++ map_events env ∧
     gpuStatePromise w' = Some (inr g) ∧
     is_Some (dataBuf w') ∧ is_Some (resultBuf w') ∧
     is_Some (uniformBuf w') ∧ is_Some (readbackBuf w') ∧
     dataBufBytes w' = ensure_bytes (dataBuf w) (dataBufBytes w) (needDataBytes data attrs) ∧
     resultBufBytes w' = ensure_bytes (resultBuf w) (resultBufBytes w) (needResultBytes data) ∧
     uniformBufBytes w' = ensure_bytes (uniformBuf w) (uniformBufBytes w) 8 ∧
     readbackBufBytes w' = ensure_bytes (readbackBuf w) (readbackBufBytes w)
                             (needResultBytes data)).
Proof.
  cbv zeta.
  destruct (decide (data = [])) as [Hd|Hd]; [left; by rewrite gpu_run_empty by auto|].
  destruct (decide (attrs = [])) as [Ha|Ha]; [left; by rewrite gpu_run_empty by auto|].
  destruct (env_enums env) eqn:He; [|left; by rewrite gpu_run_no_enums].
  destruct (getGPUState env w) as [[e|g] w1] eqn:Hg.
  - right. left. exists e. by rewrite (gpu_run_no_device _ _ _ _ _ _ Hd Ha He Hg).
  - right. right. exists g, w1.
    destruct (gpu_run_trace env data attrs w g w1 Hd Ha He Hg)
      as (out & w' & -> & H). cbn [snd]. by repeat (split; [done|]).
Qed.

Lemma acquire_attempts_app t1 t2 :
  acquire_attempts (t1 ++ t2) = (acquire_attempts t1 + acquire_attempts t2)%nat.
Proof. unfold acquire_attempts. by rewrite List.filter_app, length_app. Qed.

Lemma live_buffers_app t1 t2 :
  live_buffers (t1 ++ t2) = (live_buffers t1 + live_buffers t2)%Z.
Proof. unfold live_buffers. rewrite !List.filter_app, !length_app. lia. Qed.

Lemma allocations_app t1 t2 :
  allocations (t1 ++ t2) = allocations t1 ++ allocations t2.
Proof. apply List.filter_app. Qed.

Lemma mapped_after_app m t1 t2 :
  mapped_after m (t1 ++ t2) = mapped_after (mapped_after m t1) t2.
Proof. apply fold_left_app. Qed.

Lemma submits_unmapped_app m t1 t2 :
  submits_unmapped m (t1 ++ t2)
  = submits_unmapped m t1 && submits_unmapped (mapped_after m t1) t2.
Proof.
  revert m. induction t1 as [|e t1 IH]; intros m; [done|].
  destruct e as [| | | | | | |[]|]; cbn [app submits_unmapped mapped_after fold_left];
    rewrite ?IH; try done. by rewrite andb_assoc.
Qed.

Lemma ensure_events_facts {W} (buf : option (Buffer W)) cur need usage :
  acquire_attempts (ensure_events buf cur need usage) = 0%nat ∧
  live_buffers (ensure_events buf cur need usage) = (1 - held buf)%Z ∧
  (∀ m, mapped_after m (ensure_events buf cur need usage) = m) ∧
  (∀ m, submits_unmapped m (ensure_events buf cur need usage) = true).
Proof.
  unfold ensure_events. destruct buf as [b|]; [destruct (need <=? cur)%Z|];
    by split_and!.
Qed.

Lemma alloc_events_facts data attrs w :
  acquire_attempts (alloc_events data attrs w) = 0%nat ∧
  live_buffers (alloc_events data attrs w) = (4 - slots_held w)%Z ∧
  (∀ m, mapped_after m (alloc_events data attrs w) = m) ∧
  (∀ m, submits_unmapped m (alloc_events data attrs w) = true).
Proof.
  unfold alloc_events, slots_held.
  destruct (ensure_events_facts (dataBuf w) (dataBufBytes w)
              (needDataBytes data attrs) [STORAGE; COPY_DST]) as (A1 & L1 & M1 & S1).
  destruct (ensure_events_facts (resultBuf w) (resultBufBytes w)
              (needResultBytes data) [STORAGE; COPY_SRC]) as (A2 & L2 & M2 & S2).
  destruct (ensure_events_facts (uniformBuf w) (uniformBufBytes w)
              8 [UNIFORM; COPY_DST]) as (A3 & L3 & M3 & S3).
  destruct (ensure_events_facts (readbackBuf w) (readbackBufBytes w)
              (needResultBytes data) [COPY_DST; MAP_READ]) as (A4 & L4 & M4 & S4).
  split_and!.
  - rewrite !acquire_attempts_app. lia.
  - rewrite !live_buffers_app. lia.
  - intros m. by rewrite !mapped_after_app, M1, M2, M3, M4.
  - intros m. by rewrite !submits_unmapped_app, !M1, !M2, !M3, S1, S2, S3, S4.
Qed.

Lemma map_events_facts env :
  acquire_attempts (map_events env) = 0%nat ∧
  live_buffers (map_events env) = 0%Z ∧
  allocations (map_events env) = [] ∧
  mapped_after false (map_events env) = false ∧
  submits_unmapped false (map_events env) = true.
Proof.
  unfold map_events.
  destruct (env_mapAsync env 0%nat); [|destruct (env_mapAsync env 1%nat)];
    by split_and!.
Qed.

Lemma held_is_Some {A} (slot : option A) : is_Some slot → held slot = 1%Z.
Proof. by intros [? ->]. Qed.

(** In every state the module reaches: the device was requested at most
    once, and exactly when a promise is stored; the buffers created and
    not destroyed are those the slots hold; the readback buffer is
    unmapped and no submission was made while it was mapped. *)
Lemma reachable_inv w :
  reachable w →
  acquire_attempts (trace w) = match gpuStatePromise w with Some _ => 1%nat | None => 0%nat end ∧
  live_buffers (trace w) = slots_held w ∧
  mapped_after false (trace w) = false ∧
  submits_unmapped false (trace w) = true.
Proof.
  induction 1 as [|env data attrs w Hr (IA & IL & IM & IS)]; [done|].
  destruct (call_cases env data attrs w) as [->|[(e & Hg)|H]]; [done| |].
  - set (w' := (computeSkylineWebGPU env data attrs w).2) in *.
    pose proof (getGPUState_frame _ _ _ _ Hg)
      as (Hp & E1 & _ & E3 & _ & E5 & _ & E7 & _ & _).
    destruct (getGPUState_cases _ _ _ _ Hg) as [[Hc ->]|(Hn & _ & Ht)]; [done|].
    rewrite Ht, Hp. unfold slots_held. rewrite E1, E3, E5, E7.
    rewrite acquire_attempts_app, live_buffers_app, mapped_after_app,
      submits_unmapped_app, IA, IL, IM, IS, Hn.
    split_and!; try done. unfold slots_held, live_buffers. simpl. lia.
  - set (w' := (computeSkylineWebGPU env data attrs w).2) in *.
    destruct H as (g & w1 & _ & _ & Hg & Ht & Hp & S1 & S2 & S3 & S4 & _).
    destruct (alloc_events_facts data attrs w) as (A1 & L1 & M1 & B1).
    destruct (map_events_facts env) as (A2 & L2 & _ & M2 & B2).
    assert (Hw1 : acquire_attempts (trace w1) = 1%nat ∧
                  live_buffers (trace w1) = slots_held w ∧
                  mapped_after false (trace w1) = false ∧
                  submits_unmapped false (trace w1) = true).
    { destruct (getGPUState_cases _ _ _ _ Hg) as [[Hc ->]|(Hn & _ & Ht1)].
      - rewrite IA, Hc. by split_and!.
      - rewrite Ht1, acquire_attempts_app, live_buffers_app, mapped_after_app,
          submits_unmapped_app, IA, IL, IM, IS, Hn.
        split_and!; try done. unfold live_buffers. simpl. lia. }
    destruct Hw1 as (A0 & L0 & M0 & B0).
    rewrite Ht, Hp. unfold slots_held at 1.
    rewrite (held_is_Some _ S1), (held_is_Some _ S2), (held_is_Some _ S3),
      (held_is_Some _ S4).
    rewrite !acquire_attempts_app, !live_buffers_app, !mapped_after_app,
      !submits_unmapped_app, ?mapped_after_app.
    rewrite A0, A1, A2, L0, L1, L2, ?M0, ?M1, B0, B1.
    change (mapped_after false (work_events data attrs)) with false.
    change (submits_unmapped false (work_events data attrs)) with true.
    change (acquire_attempts (work_events data attrs)) with 0%nat.
    change (live_buffers (work_events data attrs)) with 0%Z.
    rewrite M2, B2. split_and!; try done. lia.
Qed.

Lemma reachable_wf w : reachable w → wf_world w ∧ slots_fresh w.
Proof.
  induction 1 as [|env data attrs w Hr [IW IF]]; [by repeat split|].
  split; [by apply computeSkylineWebGPU_wf|].
  destruct (call_cases env data attrs w) as [->|[(e & Hg)|H]]; [done| |].
  - set (w' := (computeSkylineWebGPU env data attrs w).2) in *.
    pose proof (getGPUState_frame _ _ _ _ Hg)
      as (_ & E1 & E2 & E3 & E4 & E5 & E6 & E7 & E8 & _).
    unfold slots_fresh. by rewrite E1, E2, E3, E4, E5, E6, E7, E8.
  - set (w' := (computeSkylineWebGPU env data attrs w).2) in *.
    destruct H as (g & w1 & _ & _ & _ & _ & _ & [? S1] & [? S2] & [? S3] & [? S4] & _).
    unfold slots_fresh. rewrite S1, S2, S3, S4. by split_and!.
Qed.

Lemma ensure_bytes_ge {W} (buf : option (Buffer W)) cur need :
  (need ≤ ensure_bytes buf cur need)%Z.
Proof.
  unfold ensure_bytes. destruct buf; [|lia].
  destruct (Z.leb_spec need cur); lia.
Qed.

Lemma ensure_bytes_mono {W} (buf : option (Buffer W)) cur need :
  (buf = None → cur = 0%Z) → (0 ≤ need)%Z →
  (cur ≤ ensure_bytes buf cur need)%Z.
Proof.
  intros Hf Hn. unfold ensure_bytes. destruct buf; [|rewrite Hf by done; lia].
  destruct (Z.leb_spec need cur); lia.
Qed.

Lemma ensure_events_fit {W} (b : Buffer W) cur need usage :
  (need ≤ cur)%Z → ensure_events (Some b) cur need usage = [].
Proof. intros H. unfold ensure_events. by rewrite (proj2 (Z.leb_le _ _) H). Qed.

Lemma need_nonneg data attrs :
  (0 ≤ needDataBytes data attrs)%Z ∧ (0 ≤ needResultBytes data)%Z.
Proof. unfold needDataBytes, needResultBytes. lia. Qed.

Lemma needDataBytes_cells data attrs :
  needDataBytes data attrs
  = (4 * (Z.of_nat (length data) * Z.of_nat (length attrs)))%Z.
Proof. unfold needDataBytes. rewrite marshal_length. lia. Qed.

(* ===================================================================== *)
(** ** Further properties of the parallel backend                         *)
(* ===================================================================== *)

Lemma marshal_cells data attrs p c :
  marshal data attrs !! p = Some c →
  ∃ i d row attr, data !! i = Some row ∧ attrs !! d = Some attr ∧
                  p = (i * length attrs + d)%nat ∧ c = gpu_cell row attr.
Proof.
  intros Hp. pose proof (lookup_lt_Some _ _ _ Hp) as Hlt.
  rewrite marshal_length in Hlt.
  assert (HD : (0 < length attrs)%nat) by (destruct (length attrs); lia).
  pose proof (Nat.div_mod_eq p (length attrs)) as Hdm.
  pose proof (Nat.mod_upper_bound p (length attrs)) as Hmod.
  assert (Hi : (p / length attrs < length data)%nat).
  { apply Nat.Div0.div_lt_upper_bound. lia. }
  destruct (lookup_lt_is_Some_2 data _ Hi) as [row Hrow].
  destruct (lookup_lt_is_Some_2 attrs (p mod length attrs)) as [attr Hattr]; [lia|].
  exists (p / length attrs)%nat, (p mod length attrs)%nat, row, attr.
  split; [done|]. split; [done|]. split; [lia|].
  pose proof (marshal_lookup data attrs _ _ row attr Hrow Hattr) as Hl.
  replace (p / length attrs * length attrs + p mod length attrs)%nat with p in Hl by lia.
  congruence.
Qed.

(** X10: the upload is row-major: the flattened matrix has N * D cells,
    the cell of record i and attribute d is at index i * D + d and holds
    the sanitised value rounded to binary32, and no cell is NaN. *)
Theorem upload_layout (data : list DataPoint) (attrs : list AttributeConfig) :
  length (marshal data attrs) = (length data * length attrs)%nat ∧
  (∀ i d row attr, data !! i = Some row → attrs !! d = Some attr →
     marshal data attrs !! (i * length attrs + d)%nat = Some (gpu_cell row attr)) ∧
  (∀ p c, marshal data attrs !! p = Some c → is_nan c = false).
Proof.
  split; [apply marshal_length|]. split; [apply marshal_lookup|].
  intros p c (i & d & row & attr & _ & _ & _ & ->)%marshal_cells.
  apply gpu_cell_not_nan.
Qed.

(** X11: the kernel's work-items can run in any order: whatever
    permutation of the invocation ids the device follows, the result
    buffer ends as the sequential run of [dispatch] leaves it. *)
Theorem work_item_order_irrelevant (data : list spec_float) (params : Wgsl.Params)
    (groups : nat) (results : list Z) (order : list nat) :
  order ≡ₚ seq 0 (64 * groups) →
  fold_left (Wgsl.main data params) order results
  = Wgsl.dispatch data params groups results.
Proof. apply dispatch_any_order. Qed.

Lemma work_item_order_irrelevant_witness :
  fold_left (Wgsl.main (marshal example_data example_attrs)
               (call_params example_data example_attrs))
            (reverse (seq 0 (64 * 1))) (replicate 6 0%Z)
  = Wgsl.dispatch (marshal example_data example_attrs)
      (call_params example_data example_attrs) 1 (replicate 6 0%Z).
Proof.
  exact (work_item_order_irrelevant _ _ 1 _ _ (reverse_Permutation (seq 0 (64 * 1)))).
Defined.

(** X12: with unique ids, a non-empty attribute list and fewer than 2^32
    cells, a result of the parallel backend counts dominance on the
    marshalled binary32 cells: the id of a record is in skylineIds
    exactly when no record dominates it on them, and when the id is not
    [__proto__] the dominanceScores entry of the record is the number of
    records it dominates on them and its dominatedBy entry the number of
    records that dominate it on them. *)
Theorem parallel_counts_on_cells (env : Env) (data : list DataPoint)
    (attrs : list AttributeConfig) (w : World) (r : SkylineResult) (w' : World)
    (a : DataPoint) :
  wf_world w → unique_ids data → attrs ≠ [] →
  (Z.of_nat (length data) * Z.of_nat (length attrs) < 2 ^ 32)%Z →
  computeSkylineWebGPU env data attrs w = (inr r, w') →
  a ∈ data →
  (id a ∈ skylineIds r ↔ ∀ b, b ∈ data → gpu_dominates b a attrs = false) ∧
  (id a ≠ PROTO →
   dominanceScores r !! id a
     = Some (Z.of_nat (length (List.filter (λ b, gpu_dominates a b attrs) data))) ∧
   dominatedBy r !! id a
     = Some (Z.of_nat (length (List.filter (λ b, gpu_dominates b a attrs) data)))).
Proof.
  intros Hwf Hu Hne Hsz Hrun Ha. split.
  - by eapply gpu_undominated.
  - intros Hp. by eapply gpu_counts.
Qed.

Lemma parallel_counts_on_cells_witness :
  ∃ r w',
    computeSkylineWebGPU env_ok close_data close_attrs world0 = (inr r, w') ∧
    ("A" ∈ skylineIds r ↔
     ∀ b, b ∈ close_data → gpu_dominates b (player "A" 16777217 0) close_attrs = false) ∧
    dominanceScores r !! "A"
      = Some (Z.of_nat (length (List.filter
                (λ b, gpu_dominates (player "A" 16777217 0) b close_attrs)
                close_data))) ∧
    dominatedBy r !! "A"
      = Some (Z.of_nat (length (List.filter
                (λ b, gpu_dominates b (player "A" 16777217 0) close_attrs)
                close_data))).
Proof.
  assert (Hrun : ∃ r w',
            computeSkylineWebGPU env_ok close_data close_attrs world0 = (inr r, w')).
  { eexists _, _. vm_compute. reflexivity. }
  destruct Hrun as (r & w' & Hrun). exists r, w'. split; [exact Hrun|].
  assert (Hu : unique_ids close_data) by (apply (bool_decide_unpack _); exact I).
  assert (Hne : close_attrs ≠ []) by discriminate.
  assert (Hsz : (Z.of_nat (length close_data) * Z.of_nat (length close_attrs)
                 < 2 ^ 32)%Z) by (simpl; lia).
  assert (Hin : player "A" 16777217 0 ∈ close_data) by left.
  assert (Hp : id (player "A" 16777217 0) ≠ PROTO) by done.
  destruct (parallel_counts_on_cells env_ok close_data close_attrs world0 r w'
              (player "A" 16777217 0) wf_world0 Hu Hne Hsz Hrun Hin)
    as [Hsky Hmaps].
  split; [exact Hsky|]. exact (Hmaps Hp).
Defined.

(** X13: with unique ids, a non-empty attribute list and fewer than 2^32
    cells, the skylineIds of a result of the parallel backend is not
    empty, and every record either has its id in it or is dominated, on
    the marshalled binary32 cells, by a record whose id is in it. *)
Theorem parallel_skyline_covers_data (env : Env) (data : list DataPoint)
    (attrs : list AttributeConfig) (w : World) (r : SkylineResult) (w' : World)
    (p : DataPoint) :
  wf_world w → unique_ids data → attrs ≠ [] →
  (Z.of_nat (length data) * Z.of_nat (length attrs) < 2 ^ 32)%Z →
  computeSkylineWebGPU env data attrs w = (inr r, w') →
  p ∈ data →
  skylineIds r ≠ ∅ ∧
  (id p ∈ skylineIds r ∨
   ∃ q, q ∈ data ∧ id q ∈ skylineIds r ∧ gpu_dominates q p attrs = true).
Proof.
  intros Hwf Hu Hne Hsz Hrun Hp.
  pose proof (gpu_skyline_cover env data attrs w r w' p Hwf Hu Hne Hsz Hrun Hp) as Hc.
  split; [|done].
  destruct Hc as [H|(q & _ & H & _)]; intros Hempty; rewrite Hempty in H;
    by apply not_elem_of_empty in H.
Qed.

Lemma parallel_skyline_covers_data_witness :
  ∃ r w',
    computeSkylineWebGPU env_ok example_data example_attrs world0 = (inr r, w') ∧
    skylineIds r ≠ ∅ ∧
    ("C" ∈ skylineIds r ∨
     ∃ q, q ∈ example_data ∧ id q ∈ skylineIds r ∧
          gpu_dominates q (player "C" 70 70) example_attrs = true).
Proof.
  assert (Hrun : ∃ r w',
            computeSkylineWebGPU env_ok example_data example_attrs world0
              = (inr r, w')).
  { eexists _, _. vm_compute. reflexivity. }
  destruct Hrun as (r & w' & Hrun). exists r, w'. split; [exact Hrun|].
  assert (Hne : example_attrs ≠ []) by discriminate.
  assert (Hsz : (Z.of_nat (length example_data) * Z.of_nat (length example_attrs)
                 < 2 ^ 32)%Z) by (simpl; lia).
  assert (Hin : player "C" 70 70 ∈ example_data) by (right; right; left).
  exact (parallel_skyline_covers_data env_ok example_data example_attrs world0 r w'
           (player "C" 70 70) wf_world0 example_unique Hne Hsz Hrun Hin).
Defined.

(** X14: what earlier calls left in the buffers does not reach the
    result: two calls on the same input with fewer than 2^32 cells, from
    any two well-formed module states and on any two platforms, return
    the same skylineIds, dominanceScores and dominatedBy whenever both
    return a result. *)
Theorem parallel_result_state_independent (env1 env2 : Env) (data : list DataPoint)
    (attrs : list AttributeConfig) (w1 w2 : World) (r1 r2 : SkylineResult)
    (w1' w2' : World) :
  wf_world w1 → wf_world w2 →
  (Z.of_nat (length data) * Z.of_nat (length attrs) < 2 ^ 32)%Z →
  computeSkylineWebGPU env1 data attrs w1 = (inr r1, w1') →
  computeSkylineWebGPU env2 data attrs w2 = (inr r2, w2') →
  skylineIds r1 = skylineIds r2 ∧
  dominanceScores r1 = dominanceScores r2 ∧
  dominatedBy r1 = dominatedBy r2.
Proof.
  intros Hwf1 Hwf2 Hsz Hrun1 Hrun2.
  destruct (decide (data = [] ∨ attrs = [])) as [Hdeg|Hnd].
  { rewrite gpu_run_empty in Hrun1, Hrun2 by done.
    injection Hrun1 as <- _. injection Hrun2 as <- _. done. }
  assert (Hd : data ≠ []) by tauto. assert (Hne : attrs ≠ []) by tauto.
  destruct (gpu_result_cells _ _ _ _ _ _ Hwf1 Hd Hne Hsz Hrun1) as (res1 & -> & H1).
  destruct (gpu_result_cells _ _ _ _ _ _ Hwf2 Hd Hne Hsz Hrun2) as (res2 & -> & H2).
  unfold result_of. rewrite (decode_ext data res1 res2).
  - by destruct (decode data res2) as [[sky sc] dby].
  - intros i Hi. destruct (data !! i) as [a|] eqn:Ha;
      [|apply lookup_ge_None in Ha; lia].
    destruct (H1 i a Ha) as [-> ->]. destruct (H2 i a Ha) as [-> ->]. done.
Qed.

Lemma parallel_result_state_independent_witness :
  ∃ r1 w1' r2 w2',
    computeSkylineWebGPU env_ok example_data example_attrs world0 = (inr r1, w1') ∧
    computeSkylineWebGPU env_map_retry example_data example_attrs world_after_close
      = (inr r2, w2') ∧
    skylineIds r1 = skylineIds r2 ∧
    dominanceScores r1 = dominanceScores r2 ∧
    dominatedBy r1 = dominatedBy r2.
Proof.
  assert (Hrun1 : ∃ r w',
            computeSkylineWebGPU env_ok example_data example_attrs world0
              = (inr r, w')).
  { eexists _, _. vm_compute. reflexivity. }
  assert (Hrun2 : ∃ r w',
            computeSkylineWebGPU env_map_retry example_data example_attrs
              world_after_close = (inr r, w')).
  { eexists _, _. vm_compute. reflexivity. }
  destruct Hrun1 as (r1 & w1' & Hrun1). destruct Hrun2 as (r2 & w2' & Hrun2).
  exists r1, w1', r2, w2'. split; [exact Hrun1|]. split; [exact Hrun2|].
  assert (Hsz : (Z.of_nat (length example_data) * Z.of_nat (length example_attrs)
                 < 2 ^ 32)%Z) by (simpl; lia).
  assert (Hwf2 : wf_world world_after_close).
  { apply computeSkylineWebGPU_wf, wf_world0. }
  exact (parallel_result_state_independent env_ok env_map_retry example_data
           example_attrs world0 world_after_close r1 r2 w1' w2'
           wf_world0 Hwf2 Hsz Hrun1 Hrun2).
Defined.

(** X15: with an empty attribute list the parallel backend returns the
    empty result, leaves the module state untouched and issues no device
    operation, whereas the serial backend puts every id in skylineIds:
    on non-empty data the two backends return different skylineIds. *)
Theorem parallel_no_attributes (now : nat → Js.number) (env : Env)
    (data : list DataPoint) (w : World) :
  data ≠ [] →
  computeSkylineWebGPU env data [] w = (inr (empty_result env), w) ∧
  skylineIds (computeSkylineCPU now data []) ≠ skylineIds (empty_result env).
Proof.
  intros Hd. split; [apply gpu_run_empty; by right|].
  destruct (cpu_lookup_no_attributes now data) as (-> & _).
  destruct data as [|p data]; [done|]. cbn [skylineIds empty_result].
  intros Heq. assert (Hin : id p ∈ (∅ : gset string)); [|by apply not_elem_of_empty in Hin].
  rewrite <- Heq. apply elem_of_list_to_set. by left.
Qed.

Lemma parallel_no_attributes_witness :
  computeSkylineWebGPU env_ok example_data [] world0
    = (inr (empty_result env_ok), world0) ∧
  skylineIds (computeSkylineCPU clock0 example_data [])
    ≠ skylineIds (empty_result env_ok).
Proof.
  assert (Hd : example_data ≠ []) by discriminate.
  exact (parallel_no_attributes clock0 env_ok example_data world0 Hd).
Defined.

(* ===================================================================== *)
(** ** Device operations and buffers over the life of the module          *)
(* ===================================================================== *)

(** X16: a call on non-degenerate input that gets a device issues, after
    the acquisition if there is one, exactly: the destructions and
    creations of its four [ensureBuffer] blocks (data, result, uniform,
    readback), the upload of the N * D cells, the upload of the 2-word
    uniform block, one dispatch of ceil(N / 64) workgroups, one copy of
    8 N bytes, one submission, and the mapping operations; it leaves
    the acquired device cached and a buffer in each of the four slots. *)
Theorem call_operations (env : Env) (data : list DataPoint)
    (attrs : list AttributeConfig) (w : World) (g : GPUState) (w1 : World) :
  data ≠ [] → attrs ≠ [] → env_enums env = true →
  getGPUState env w = (inr g, w1) →
  ∃ out w',
    computeSkylineWebGPU env data attrs w = (out, w') ∧
    trace w' = trace w1 ++ alloc_events data attrs w ++ work_events data attrs
                 ++ map_events env ∧
    gpuStatePromise w' = Some (inr g) ∧
    is_Some (dataBuf w') ∧ is_Some (resultBuf w') ∧
    is_Some (uniformBuf w') ∧ is_Some (readbackBuf w').
Proof.
  intros Hd Ha He Hg.
  destruct (gpu_run_trace env data attrs w g w1 Hd Ha He Hg)
    as (out & w' & Hrun & Ht & Hp & S1 & S2 & S3 & S4 & _).
  by exists out, w'.
Qed.

Lemma call_operations_witness :
  ∃ out w',
    computeSkylineWebGPU env_ok example_data example_attrs world0 = (out, w') ∧
    trace w' = [EvAcquire;
                EvCreateBuffer 24 [STORAGE; COPY_DST];
                EvCreateBuffer 24 [STORAGE; COPY_SRC];
                EvCreateBuffer 8 [UNIFORM; COPY_DST];
                EvCreateBuffer 24 [COPY_DST; MAP_READ];
                EvWriteBuffer 6; EvWriteBuffer 2; EvDispatch 1; EvCopy 24;
                EvSubmit; EvMapAsync true; EvUnmap] ∧
    gpuStatePromise w' = Some (inr (mkGPUState 0)) ∧
    is_Some (dataBuf w') ∧ is_Some (resultBuf w') ∧
    is_Some (uniformBuf w') ∧ is_Some (readbackBuf w').
Proof.
  assert (Hd : example_data ≠ []) by discriminate.
  assert (Ha : example_attrs ≠ []) by discriminate.
  exact (call_operations env_ok example_data example_attrs world0 _ _
           Hd Ha eq_refl eq_refl).
Defined.

(** X17: over the life of the module the device is requested at most
    once: in every state that calls of [computeSkylineWebGPU] lead to,
    the trace holds one acquisition if a promise is stored and none
    otherwise. *)
Theorem device_requested_once (w : World) :
  reachable w →
  acquire_attempts (trace w)
  = match gpuStatePromise w with Some _ => 1%nat | None => 0%nat end.
Proof. intros H. by apply reachable_inv in H as (? & _). Qed.

Lemma world_after_two_reachable : reachable world_after_two.
Proof. apply reachable_call, reachable_call, reachable_init. Qed.

Lemma device_requested_once_witness :
  acquire_attempts (trace world_after_two) = 1%nat.
Proof. exact (device_requested_once world_after_two world_after_two_reachable). Defined.

(** X18: no buffer leaks: in every state the module reaches, the buffers
    created and not yet destroyed are exactly those held in the four
    slots. *)
Theorem no_buffer_leak (w : World) :
  reachable w →
  live_buffers (trace w) = slots_held w ∧ (0 ≤ slots_held w ≤ 4)%Z.
Proof.
  intros H. apply reachable_inv in H as (_ & H & _). split; [done|].
  unfold slots_held, held.
  destruct (dataBuf w), (resultBuf w), (uniformBuf w), (readbackBuf w); lia.
Qed.

Lemma no_buffer_leak_witness :
  live_buffers (trace world_after_two) = slots_held world_after_two ∧
  (0 ≤ slots_held world_after_two ≤ 4)%Z.
Proof. exact (no_buffer_leak world_after_two world_after_two_reachable). Defined.

(** X19: every call leaves the readback buffer unmapped, and no
    submission is ever made while it is mapped. *)
Theorem readback_never_left_mapped (w : World) :
  reachable w →
  mapped_after false (trace w) = false ∧ submits_unmapped false (trace w) = true.
Proof. intros H. by apply reachable_inv in H as (_ & _ & ? & ?). Qed.

Lemma readback_never_left_mapped_witness :
  mapped_after false (trace world_after_two) = false ∧
  submits_unmapped false (trace world_after_two) = true.
Proof.
  exact (readback_never_left_mapped world_after_two world_after_two_reachable).
Defined.

(** X20: in every state the module reaches, each slot's recorded size is
    the size and the length of the buffer it holds, and an empty slot
    records the size 0. *)
Theorem module_state_well_formed (w : World) :
  reachable w → wf_world w ∧ slots_fresh w.
Proof. apply reachable_wf. Qed.

Lemma module_state_well_formed_witness :
  wf_world world_after_two ∧ slots_fresh world_after_two.
Proof.
  exact (module_state_well_formed world_after_two world_after_two_reachable).
Defined.

(** X21: capacities never shrink: across any call, from any state the
    module reaches, the recorded size of each of the four slots does not
    decrease and a slot that holds a buffer still holds one. *)
Theorem capacities_never_shrink (env : Env) (data : list DataPoint)
    (attrs : list AttributeConfig) (w : World) :
  reachable w →
  (dataBufBytes w ≤ dataBufBytes (computeSkylineWebGPU env data attrs w).2)%Z ∧
  (resultBufBytes w ≤ resultBufBytes (computeSkylineWebGPU env data attrs w).2)%Z ∧
  (uniformBufBytes w ≤ uniformBufBytes (computeSkylineWebGPU env data attrs w).2)%Z ∧
  (readbackBufBytes w ≤ readbackBufBytes (computeSkylineWebGPU env data attrs w).2)%Z ∧
  (is_Some (dataBuf w) → is_Some (dataBuf (computeSkylineWebGPU env data attrs w).2)) ∧
  (is_Some (resultBuf w) →
   is_Some (resultBuf (computeSkylineWebGPU env data attrs w).2)) ∧
  (is_Some (uniformBuf w) →
   is_Some (uniformBuf (computeSkylineWebGPU env data attrs w).2)) ∧
  (is_Some (readbackBuf w) →
   is_Some (readbackBuf (computeSkylineWebGPU env data attrs w).2)).
Proof.
  intros [_ (F1 & F2 & F3 & F4)]%reachable_wf. cbv zeta.
  destruct (call_cases env data attrs w) as [->|[(e & Hg)|H]].
  - by split_and!.
  - set (w' := (computeSkylineWebGPU env data attrs w).2) in *.
    pose proof (getGPUState_frame _ _ _ _ Hg)
      as (_ & E1 & E2 & E3 & E4 & E5 & E6 & E7 & E8 & _).
    rewrite E1, E2, E3, E4, E5, E6, E7, E8. by split_and!.
  - set (w' := (computeSkylineWebGPU env data attrs w).2) in *.
    destruct H as (g & w1 & _ & _ & _ & _ & _ & S1 & S2 & S3 & S4
                   & -> & -> & -> & ->).
    destruct (need_nonneg data attrs).
    split_and!; try done; by apply ensure_bytes_mono.
Qed.

Lemma capacities_never_shrink_witness :
  (dataBufBytes world_after_two
   ≤ dataBufBytes (computeSkylineWebGPU env_ok close_data close_attrs
                     world_after_two).2)%Z ∧
  (resultBufBytes world_after_two
   ≤ resultBufBytes (computeSkylineWebGPU env_ok close_data close_attrs
                       world_after_two).2)%Z.
Proof.
  destruct (capacities_never_shrink env_ok close_data close_attrs world_after_two
              world_after_two_reachable) as (H1 & H2 & _).
  exact (conj H1 H2).
Defined.

(** X22: buffers are reused: after a call that got a device, a call on
    an input with no more records and no more cells creates and destroys
    no buffer. *)
Theorem buffers_reused (env1 env2 : Env) (data data' : list DataPoint)
    (attrs attrs' : list AttributeConfig) (w : World) (g : GPUState) (w0 : World) :
  data ≠ [] → attrs ≠ [] → env_enums env1 = true →
  getGPUState env1 w = (inr g, w0) →
  (length data' ≤ length data)%nat →
  (length data' * length attrs' ≤ length data * length attrs)%nat →
  allocations (trace (computeSkylineWebGPU env2 data' attrs'
                        (computeSkylineWebGPU env1 data attrs w).2).2)
  = allocations (trace (computeSkylineWebGPU env1 data attrs w).2).
Proof.
  intros Hd Ha He Hg Hn Hc. cbv zeta.
  destruct (gpu_run_trace env1 data attrs w g w0 Hd Ha He Hg)
    as (out & w1 & -> & _ & Hp & [bd S1] & [br S2] & [bu S3] & [bk S4]
        & B1 & B2 & B3 & B4).
  cbn [snd].
  destruct (call_cases env2 data' attrs' w1) as [->|[(e & Hg2)|H]]; [done| |].
  - rewrite (getGPUState_cached env2 w1 _ Hp) in Hg2. by injection Hg2 as _ <-.
  - set (w2 := (computeSkylineWebGPU env2 data' attrs' w1).2) in *.
    destruct H as (g2 & w1' & _ & _ & Hg2 & -> & _).
    rewrite (getGPUState_cached env2 w1 _ Hp) in Hg2. injection Hg2 as _ <-.
    assert (Hal : alloc_events data' attrs' w1 = []).
    { unfold alloc_events. rewrite S1, S2, S3, S4, B1, B2, B3, B4.
      rewrite !ensure_events_fit; [done|..].
      - etrans; [|apply ensure_bytes_ge]. unfold needResultBytes. lia.
      - etrans; [|apply ensure_bytes_ge]. lia.
      - etrans; [|apply ensure_bytes_ge]. unfold needResultBytes. lia.
      - etrans; [|apply ensure_bytes_ge]. rewrite !needDataBytes_cells. nia. }
    rewrite Hal, !allocations_app. cbn [app].
    destruct (map_events_facts env2) as (_ & _ & -> & _).
    by rewrite app_nil_r.
Qed.

Lemma buffers_reused_witness :
  allocations (trace (computeSkylineWebGPU env_ok close_data close_attrs
                        (computeSkylineWebGPU env_ok example_data example_attrs
                           world0).2).2)
  = allocations (trace (computeSkylineWebGPU env_ok example_data example_attrs
                          world0).2).
Proof.
  assert (Hd : example_data ≠ []) by discriminate.
  assert (Ha : example_attrs ≠ []) by discriminate.
  assert (H1 : (length close_data ≤ length example_data)%nat) by (simpl; lia).
  assert (H2 : (length close_data * length close_attrs
                ≤ length example_data * length example_attrs)%nat) by (simpl; lia).
  exact (buffers_reused env_ok env_ok example_data close_data example_attrs
           close_attrs world0 _ _ Hd Ha eq_refl eq_refl H1 H2).
Defined.

(* ===================================================================== *)
(** ** The application shell                                              *)
(* ===================================================================== *)

Lemma filter_all {A} (l : list A) : filter (λ _, True) l = l.
Proof. induction l as [|x l IH]; [done|]. by rewrite filter_cons_True, IH. Qed.

Lemma filteredData_fold (filters : list App.FilterConfig) (l : list DataPoint) :
  fold_left (λ result f, filter (λ d, App.keeps f d) result) filters l
  = filter (λ d, forallb (λ f, App.keeps f d) filters) l.
Proof.
  revert l. induction filters as [|f filters IH]; intros l; simpl.
  - rewrite <- (filter_all l) at 1. by apply list_filter_iff.
  - rewrite IH, list_filter_filter. apply list_filter_iff. intros d.
    rewrite andb_True. tauto.
Qed.

(** X23: [filteredData] keeps, in their order, exactly the records among
    the first [dataLimit] that pass every filter, so the order of the
    filters is immaterial; it holds at most [dataLimit] records; it
    keeps ids unique; and a record that lacks a filter's attribute is
    dropped whatever the operator. *)
Theorem filteredData_spec (fullData : list DataPoint) (dataLimit : nat)
    (filters : list App.FilterConfig) :
  App.filteredData fullData dataLimit filters
    = filter (λ d, forallb (λ f, App.keeps f d) filters) (take dataLimit fullData) ∧
  (length (App.filteredData fullData dataLimit filters) ≤ dataLimit)%nat ∧
  (unique_ids fullData → unique_ids (App.filteredData fullData dataLimit filters)) ∧
  (∀ f d, f ∈ filters → prop d (App.attribute f) = None →
          d ∉ App.filteredData fullData dataLimit filters).
Proof.
  assert (Heq : App.filteredData fullData dataLimit filters
            = filter (λ d, forallb (λ f, App.keeps f d) filters)
                     (take dataLimit fullData)) by apply filteredData_fold.
  split; [done|]. rewrite Heq. split_and!.
  - etrans; [apply length_filter|]. rewrite length_take. lia.
  - unfold unique_ids. intros Hu. eapply sublist_NoDup; [exact Hu|].
    apply fmap_sublist. etrans; [apply sublist_filter|apply sublist_take].
  - intros f d Hf Hnone [Hall _]%list_elem_of_filter.
    apply Is_true_true in Hall. rewrite forallb_forall in Hall.
    specialize (Hall f (proj1 (list_elem_of_In _ _) Hf)).
    unfold App.keeps in Hall. rewrite Hnone in Hall.
    destruct (App.operator f), (App.value f) as [| | |[]]; discriminate.
Qed.

Lemma fold_left_inv {A B} (P : A → Prop) (f : A → B → A) (l : list B) (a : A) :
  P a → (∀ a b, P a → P (f a b)) → P (fold_left f l a).
Proof. revert a. induction l as [|b l IH]; intros a Ha Hf; simpl; auto. Qed.

Lemma handleSelection_inv (i : string) (prev : list string) :
  (length prev ≤ App.MAX_SELECTED)%nat → NoDup prev →
  (length (App.handleSelection i prev) ≤ App.MAX_SELECTED)%nat ∧
  NoDup (App.handleSelection i prev).
Proof.
  intros Hlen Hnd. unfold App.handleSelection.
  case_bool_decide as Hin.
  - split; [|by apply NoDup_filter].
    etrans; [apply length_filter|done].
  - destruct (Nat.leb_spec App.MAX_SELECTED (length prev)); [done|].
    split; [rewrite length_app; simpl; lia|].
    apply NoDup_app. split_and!; [done| |apply NoDup_singleton].
    intros x Hx ->%list_elem_of_singleton. done.
Qed.

(** X24: whatever the user clicks, at most [MAX_SELECTED] = 4 ids are
    selected and none twice, so the comparison view's
    [selectedIds.slice(0, 4)] drops nothing; a click on a selected id
    unselects it, and a click on a fifth id changes nothing. *)
Theorem selection_bounded (actions : list App.SelectionAction) :
  let selectedIds := fold_left App.selection_step actions [] in
  (length selectedIds ≤ 4)%nat ∧ NoDup selectedIds ∧
  take 4 selectedIds = selectedIds ∧
  (∀ i, i ∈ selectedIds → i ∉ App.handleSelection i selectedIds) ∧
  (∀ i, i ∉ selectedIds → length selectedIds = 4%nat →
        App.handleSelection i selectedIds = selectedIds).
Proof.
  cbv zeta.
  assert (Hinv : (length (fold_left App.selection_step actions []) ≤ 4)%nat ∧
                 NoDup (fold_left App.selection_step actions [])).
  { apply (fold_left_inv (λ s, (length s ≤ 4)%nat ∧ NoDup s)).
    - split; [simpl; lia|apply NoDup_nil_2].
    - intros s [i|] [Hl Hn]; simpl.
      + by apply handleSelection_inv.
      + split; [simpl; lia|apply NoDup_nil_2]. }
  destruct Hinv as [Hl Hn]. split_and!; try done.
  - by apply take_ge.
  - intros i Hi. unfold App.handleSelection. rewrite bool_decide_eq_true_2 by done.
    by intros [? _]%list_elem_of_filter.
  - intros i Hi H4. unfold App.handleSelection.
    rewrite bool_decide_eq_false_2 by done. by rewrite H4.
Qed.

Lemma NoDup_fmap_elem {A B} (f : A → B) (l : list A) (x y : A) :
  NoDup (f <$> l) → x ∈ l → y ∈ l → f x = f y → x = y.
Proof.
  intros Hnd [i Hx]%list_elem_of_lookup [j Hy]%list_elem_of_lookup Hf.
  assert (i = j) as ->; [|congruence].
  eapply (NoDup_lookup (f <$> l)); [exact Hnd| |].
  - rewrite list_lookup_fmap, Hx. simpl. by rewrite Hf.
  - by rewrite list_lookup_fmap, Hy.
Qed.

Lemma find_key (attributes : list AttributeConfig) (k : string) (a : AttributeConfig) :
  NoDup (key <$> attributes) →
  (List.find (λ a, bool_decide (key a = k)) attributes = Some a
   ↔ a ∈ attributes ∧ key a = k).
Proof.
  intros Hnd. split.
  - intros [Hin Hk]%find_some. split; [by apply list_elem_of_In|].
    by apply bool_decide_eq_true in Hk.
  - intros [Hin Hk].
    destruct (List.find (λ a, bool_decide (key a = k)) attributes) as [a'|] eqn:E.
    + apply find_some in E as [Hin' Hk'%bool_decide_eq_true].
      f_equal. apply (NoDup_fmap_elem key attributes); try done.
      * by apply list_elem_of_In.
      * congruence.
    + pose proof (find_none _ _ E a (proj1 (list_elem_of_In _ _) Hin)) as Hf.
      simpl in Hf. by rewrite bool_decide_eq_true_2 in Hf.
Qed.

Lemma orderedActiveAttrs_elem attributes activeAttributes a :
  NoDup (key <$> attributes) →
  (a ∈ App.orderedActiveAttrs attributes activeAttributes
   ↔ a ∈ attributes ∧ key a ∈ activeAttributes).
Proof.
  intros Hnd. unfold App.orderedActiveAttrs. rewrite list_elem_of_omap. split.
  - intros (k & Hk & Hf). apply find_key in Hf as [? <-]; done.
  - intros [Hin Hk]. exists (key a). split; [done|]. by apply find_key.
Qed.

Lemma orderedActiveAttrs_NoDup attributes activeAttributes :
  NoDup (key <$> attributes) → NoDup activeAttributes →
  NoDup (App.orderedActiveAttrs attributes activeAttributes).
Proof.
  intros Hnd. induction 1 as [|k rest Hk Hrest IH]; [apply NoDup_nil_2|].
  unfold App.orderedActiveAttrs. cbn [omap list_omap].
  destruct (List.find _ attributes) as [a|] eqn:E; [|apply IH].
  apply NoDup_cons. split; [|apply IH].
  apply find_key in E as [_ <-]; [|done].
  intros [_ Hin]%orderedActiveAttrs_elem; done.
Qed.

Lemma toggleAttribute_NoDup k prev :
  NoDup prev → NoDup (App.toggleAttribute k prev).
Proof.
  intros Hnd. unfold App.toggleAttribute. case_bool_decide as Hin.
  - by apply NoDup_filter.
  - apply NoDup_app. split_and!; [done| |apply NoDup_singleton].
    intros x Hx ->%list_elem_of_singleton. done.
Qed.

(** X25: the views and the computation use the same attributes.  When
    the attribute keys are distinct, the active keys stay distinct
    whatever the user toggles, the list the views receive
    ([filteredAttrs], in table order) is a permutation of the list the
    computation ran on ([orderedActiveAttrs], in activation order), and
    the serial backend returns the same skylineIds, dominanceScores and
    dominatedBy on both. *)
Theorem views_use_computed_attributes (attributes : list AttributeConfig)
    (toggles : list string) :
  NoDup (key <$> attributes) →
  let activeAttributes :=
    fold_left (λ prev k, App.toggleAttribute k prev) toggles
              (App.initialActiveAttributes attributes) in
  NoDup activeAttributes ∧
  App.filteredAttrs attributes activeAttributes
    ≡ₚ App.orderedActiveAttrs attributes activeAttributes ∧
  ∀ now data,
    skylineIds (computeSkylineCPU now data
                  (App.filteredAttrs attributes activeAttributes))
      = skylineIds (computeSkylineCPU now data
                      (App.orderedActiveAttrs attributes activeAttributes)) ∧
    dominanceScores (computeSkylineCPU now data
                       (App.filteredAttrs attributes activeAttributes))
      = dominanceScores (computeSkylineCPU now data
                           (App.orderedActiveAttrs attributes activeAttributes)) ∧
    dominatedBy (computeSkylineCPU now data
                   (App.filteredAttrs attributes activeAttributes))
      = dominatedBy (computeSkylineCPU now data
                       (App.orderedActiveAttrs attributes activeAttributes)).
Proof.
  intros Hnd activeAttributes.
  assert (Hact : NoDup activeAttributes).
  { apply (fold_left_inv (λ s : list string, NoDup s)).
    - unfold App.initialActiveAttributes. eapply sublist_NoDup; [exact Hnd|].
      apply fmap_sublist, sublist_take.
    - intros s k. apply toggleAttribute_NoDup. }
  assert (Hperm : App.filteredAttrs attributes activeAttributes
                  ≡ₚ App.orderedActiveAttrs attributes activeAttributes).
  { apply NoDup_Permutation.
    - apply NoDup_filter. by eapply NoDup_fmap_1.
    - by apply orderedActiveAttrs_NoDup.
    - intros a. rewrite orderedActiveAttrs_elem by done.
      unfold App.filteredAttrs. rewrite list_elem_of_filter. tauto. }
  split; [done|]. split; [done|].
  intros now data. apply cpu_result_ext. intros a b _ _. by apply dominates_perm.
Qed.

Lemma views_use_computed_attributes_witness :
  App.filteredAttrs example_attrs ["shoot"; "pace"]
    ≡ₚ App.orderedActiveAttrs example_attrs ["shoot"; "pace"] ∧
  skylineIds (computeSkylineCPU clock0 example_data
                (App.filteredAttrs example_attrs ["shoot"; "pace"]))
    = skylineIds (computeSkylineCPU clock0 example_data
                    (App.orderedActiveAttrs example_attrs ["shoot"; "pace"])).
Proof.
  assert (Hnd : NoDup (key <$> example_attrs))
    by (apply (bool_decide_unpack _); exact I).
  destruct (views_use_computed_attributes example_attrs ["pace"; "pace"] Hnd)
    as (_ & Hp & Hr).
  split; [exact Hp|]. exact (proj1 (Hr clock0 example_data)).
Defined.

Lemma filter_sublist_impl {A} (P Q : A → Prop) `{!∀ x, Decision (P x)}
    `{!∀ x, Decision (Q x)} (l : list A) :
  (∀ x, P x → Q x) → filter P l `sublist_of` filter Q l.
Proof.
  intros Himpl. rewrite <- (list_filter_filter_l P Q l Himpl). apply sublist_filter.
Qed.

(** X26: adding a filter can only remove records and removing one can
    only bring records back: [filteredData] after [addFilter] is a
    sub-list of [filteredData] before, which is a sub-list of
    [filteredData] after [removeFilter]; with no attribute selected
    [addFilter] changes nothing, and so does [removeFilter] past the end
    of the list. *)
Theorem filters_monotone (fullData : list DataPoint) (dataLimit : nat)
    (filters : list App.FilterConfig) (selectedAttr : string)
    (operator : App.Operator) (value : Js.number) (index : nat) :
  App.filteredData fullData dataLimit
    (App.addFilter filters selectedAttr operator value)
    `sublist_of` App.filteredData fullData dataLimit filters ∧
  App.filteredData fullData dataLimit filters
    `sublist_of` App.filteredData fullData dataLimit (App.removeFilter filters index) ∧
  App.addFilter filters EmptyString operator value = filters ∧
  ((length filters ≤ index)%nat → App.removeFilter filters index = filters).
Proof.
  unfold App.filteredData. rewrite !filteredData_fold. split_and!.
  - apply filter_sublist_impl. intros d. rewrite !forallb_True, !Forall_forall.
    intros H f Hf. apply H. unfold App.addFilter.
    destruct (String.eqb selectedAttr EmptyString); [done|].
    apply elem_of_app. by left.
  - apply filter_sublist_impl. intros d. rewrite !forallb_True, !Forall_forall.
    intros H f Hf. apply H. unfold App.removeFilter in Hf.
    eapply elem_of_sublist; [exact Hf|apply sublist_delete].
  - done.
  - intros Hlen. unfold App.removeFilter.
    rewrite delete_take_drop, take_ge, drop_ge by lia. by rewrite app_nil_r.
Qed.

Lemma example_complete : complete example_data example_attrs.
Proof.
  intros p attr Hp Hattr. each_elem Hp; each_elem Hattr; eexists; by split.
Qed.

(* ===================================================================== *)
(** ** The views' own dominance tests                                     *)
(* ===================================================================== *)

Lemma or_zero_ltb (v u : spec_float) :
  is_nan v = false → is_nan u = false →
  SFltb (Js.or_zero (Some v)) (Js.or_zero (Some u)) = SFltb v u.
Proof. by destruct v as [[]|[]| |[]], u as [[]|[]| |[]]. Qed.

Lemma checkDomination_loop_dominates a b attributes acc :
  (∀ attr, attr ∈ attributes →
     (∃ v, prop a (key attr) = Some v ∧ is_nan v = false) ∧
     (∃ v, prop b (key attr) = Some v ∧ is_nan v = false)) →
  ComparisonView.checkDomination_loop a b attributes acc
  = dominates_loop a b attributes acc.
Proof.
  revert acc. induction attributes as [|attr rest IH]; intros acc H; [done|].
  cbn [ComparisonView.checkDomination_loop dominates_loop].
  destruct (H attr (list_elem_of_here _ _)) as [(va & Ha & Hna) (vb & Hb & Hnb)].
  unfold ComparisonView.value_or_min, Js.lt, Js.gt. rewrite Ha, Hb.
  rewrite !or_zero_ltb by done.
  destruct (SFltb va vb); [done|]. apply IH. intros attr' Hin. apply H. by right.
Qed.

Lemma checkDomination_dominates (data : list DataPoint) attributes a b :
  complete data attributes → a ∈ data → b ∈ data →
  ComparisonView.checkDomination attributes a b = dominates a b attributes.
Proof.
  intros Hc Ha Hb. apply checkDomination_loop_dominates. intros attr Hattr.
  split; by apply Hc.
Qed.

Lemma list_filter_stdpp {A} (f : A → bool) (l : list A) :
  List.filter f l = filter (λ x, f x) l.
Proof.
  induction l as [|x l IH]; [done|]. simpl. rewrite filter_cons, IH.
  destruct (decide (f x)) as [H|H].
  - by rewrite (Is_true_true_1 _ H).
  - by rewrite (Is_true_false_1 _ H).
Qed.

Lemma filter_ext_elem {A} (P Q : A → Prop) `{!∀ x, Decision (P x)}
    `{!∀ x, Decision (Q x)} (l : list A) :
  (∀ x, x ∈ l → (P x ↔ Q x)) → filter P l = filter Q l.
Proof.
  induction l as [|x l IH]; intros Hext; [done|]. rewrite !filter_cons.
  rewrite IH by (intros y Hy; apply Hext; by right).
  destruct (decide (P x)) as [HP|HP], (decide (Q x)) as [HQ|HQ]; try done;
    exfalso; specialize (Hext x (list_elem_of_here _ _)); tauto.
Qed.

Lemma domSet_fold data attributes p (acc : gset string) :
  fold_left (λ set target,
               if ComparisonView.checkDomination attributes p target
               then {[id target]} ∪ set else set) data acc
  = list_to_set (id <$> filter (λ t, ComparisonView.checkDomination attributes p t) data)
    ∪ acc.
Proof.
  revert acc. induction data as [|t data IH]; intros acc; simpl.
  - by rewrite union_empty_l_L.
  - rewrite IH, filter_cons.
    destruct (decide (ComparisonView.checkDomination attributes p t)) as [H|H].
    + rewrite (Is_true_true_1 _ H). csimpl.
      apply set_eq. intros k. rewrite !elem_of_union, elem_of_singleton. tauto.
    + by rewrite (Is_true_false_1 _ H).
Qed.

Lemma cpu_score_cardinality now (data : list DataPoint) attrs a :
  unique_ids data → a ∈ data → id a ≠ PROTO →
  dominanceScores (computeSkylineCPU now data attrs) !! id a
  = Some (Z.of_nat (length (filter (λ b, dominates a b attrs) data))).
Proof.
  intros Hu [i Ha]%list_elem_of_lookup Hp.
  destruct (cpu_record now data attrs i a Hu Ha Hp) as (-> & _).
  by rewrite (row_score_alt _ _ _ _ Ha), count_true_filter, list_filter_stdpp.
Qed.

(** X28: the comparison view's own dominance test agrees with the
    computation.  When ids are unique and every record has a number
    that is not NaN for every active attribute, [checkDomination] is
    [dominates] on the records of the data, and for every entry of
    [domSets] whose id is not [__proto__] the size of its domination set
    is the dominanceScores entry of its id in the serial backend's
    result, so both branches of the pie value
    [dominanceScores[id] ?? set.size] give the same number.  For an
    entry whose id is [__proto__] the read finds [Object.prototype],
    which is not [undefined], and the pie value is not a number. *)
Theorem comparison_sets_match_scores (now : nat → Js.number) (data : list DataPoint)
    (attributes : list AttributeConfig) (selectedIds : list string) :
  unique_ids data → complete data attributes →
  (∀ p t, p ∈ data → t ∈ data →
     ComparisonView.checkDomination attributes p t = dominates p t attributes) ∧
  (∀ ds, ds ∈ ComparisonView.domSets
                (ComparisonView.selectedPlayers selectedIds data) data attributes →
     (ds.1 ≠ PROTO →
      dominanceScores (computeSkylineCPU now data attributes) !! ds.1
        = Some (Z.of_nat (size ds.2)) ∧
      ComparisonView.pieValue (computeSkylineCPU now data attributes) ds
        = VNumber (Z.of_nat (size ds.2))) ∧
     (ds.1 = PROTO →
      ComparisonView.pieValue (computeSkylineCPU now data attributes) ds
        = VInherited)).
Proof.
  intros Hu Hc.
  assert (Hcheck : ∀ p t, p ∈ data → t ∈ data →
            ComparisonView.checkDomination attributes p t = dominates p t attributes).
  { intros p t Hp Ht. by apply (checkDomination_dominates data). }
  split; [done|]. intros ds Hds.
  assert (Hp : ∃ p, p ∈ data ∧ ds = (id p, ComparisonView.domSet data attributes p)).
  { unfold ComparisonView.domSets in Hds.
    destruct (_ || _); [by apply elem_of_nil in Hds|].
    apply list_elem_of_fmap in Hds as (p & -> & Hp). exists p. split; [|done].
    unfold ComparisonView.selectedPlayers in Hp.
    apply list_elem_of_omap in Hp as (i & _ & Hf).
    apply find_some in Hf as [Hin _]. by apply list_elem_of_In. }
  destruct Hp as (p & Hp & ->). cbn [fst snd]. split.
  - intros Hproto.
    assert (Hsize : dominanceScores (computeSkylineCPU now data attributes) !! id p
              = Some (Z.of_nat (size (ComparisonView.domSet data attributes p)))).
    { rewrite (cpu_score_cardinality now data attributes p Hu Hp Hproto).
      unfold ComparisonView.domSet. rewrite domSet_fold, union_empty_r_L.
      rewrite size_list_to_set.
      2:{ eapply sublist_NoDup; [exact Hu|]. apply fmap_sublist, sublist_filter. }
      rewrite length_fmap. do 3 f_equal. apply filter_ext_elem.
      intros t Ht. by rewrite Hcheck. }
    split; [done|].
    unfold ComparisonView.pieValue, read. cbn [fst snd]. by rewrite Hsize.
  - intros Hproto. unfold ComparisonView.pieValue, read. cbn [fst snd].
    rewrite Hproto. by rewrite (proj1 (cpu_proto now data attributes)).
Qed.

Lemma comparison_sets_match_scores_witness :
  ComparisonView.checkDomination example_attrs (player "A" 90 80) (player "C" 70 70)
    = dominates (player "A" 90 80) (player "C" 70 70) example_attrs ∧
  dominanceScores (computeSkylineCPU clock0 example_data example_attrs) !! "A"
    = Some (Z.of_nat (size (ComparisonView.domSet example_data example_attrs
                              (player "A" 90 80)))) ∧
  ComparisonView.pieValue (computeSkylineCPU clock0 example_data example_attrs)
    ("A", ComparisonView.domSet example_data example_attrs (player "A" 90 80))
    = VNumber (Z.of_nat (size (ComparisonView.domSet example_data example_attrs
                                 (player "A" 90 80)))).
Proof.
  destruct (comparison_sets_match_scores clock0 example_data example_attrs
              ["A"; "C"] example_unique example_complete) as [H1 H2].
  assert (HA : player "A" 90 80 ∈ example_data) by left.
  assert (HC : player "C" 70 70 ∈ example_data) by (right; right; left).
  split; [exact (H1 _ _ HA HC)|].
  assert (Hds : ("A", ComparisonView.domSet example_data example_attrs
                        (player "A" 90 80))
                ∈ ComparisonView.domSets
                    (ComparisonView.selectedPlayers ["A"; "C"] example_data)
                    example_data example_attrs) by left.
  assert (Hp : ("A", ComparisonView.domSet example_data example_attrs
                       (player "A" 90 80)).1 ≠ PROTO) by done.
  exact (proj1 (H2 _ Hds) Hp).
Defined.

Lemma search_for_fst s p ks st :
  (TabularView.search_for s p ks st).1
  = st.1 && forallb (λ attr, negb (Js.lt (Js.Number (prop s (key attr)))
                                         (Js.Number (prop p (key attr))))) ks.
Proof.
  revert st. induction ks as [|attr rest IH]; intros st; simpl.
  - by rewrite andb_true_r.
  - destruct (Js.lt _ _); simpl; [by rewrite andb_false_r|]. by rewrite IH.
Qed.

Lemma search_for_snd s p ks st :
  forallb (λ attr, negb (Js.lt (Js.Number (prop s (key attr)))
                               (Js.Number (prop p (key attr))))) ks = true →
  (TabularView.search_for s p ks st).2
  = st.2 || existsb (λ attr, Js.gt (Js.Number (prop s (key attr)))
                                   (Js.Number (prop p (key attr)))) ks.
Proof.
  revert st. induction ks as [|attr rest IH]; intros st; simpl.
  - by rewrite orb_false_r.
  - destruct (Js.lt _ _); simpl; [done|]. intros H. rewrite IH by done. simpl.
    destruct (Js.gt _ _), st.2; by rewrite ?orb_true_r.
Qed.

(** The search's test, whatever the number of passes of its outer
    loop, is dominance on the values as read. *)
Lemma is_dominator_spec attributes p s :
  TabularView.is_dominator attributes p s
  = forallb (λ attr, negb (Js.lt (Js.Number (prop s (key attr)))
                                 (Js.Number (prop p (key attr))))) attributes &&
    existsb (λ attr, Js.gt (Js.Number (prop s (key attr)))
                           (Js.Number (prop p (key attr)))) attributes.
Proof.
  unfold TabularView.is_dominator.
  set (F := forallb _ attributes). set (E := existsb _ attributes).
  assert (Hfold : ∀ (l : list AttributeConfig) st,
            let st' := fold_left (λ st _, TabularView.search_for s p attributes st) l st in
            st'.1 = st.1 && (bool_decide (l = []) || F) ∧
            (F = true → st'.2 = st.2 || (negb (bool_decide (l = [])) && E))).
  { induction l as [|x l IH]; intros st; cbv zeta.
    - simpl. split; [by rewrite andb_true_r|]. intros _. by rewrite orb_false_r.
    - cbn [fold_left]. destruct (IH (TabularView.search_for s p attributes st))
        as [I1 I2]. cbv zeta in I1, I2. split.
      + rewrite I1, search_for_fst. fold F. cbn [bool_decide decide_rel].
        rewrite (bool_decide_eq_false_2 (x :: l = [])) by done. simpl.
        destruct st.1, F, (bool_decide (l = [])); done.
      + intros HF. rewrite (I2 HF), search_for_snd by done. fold E.
        rewrite (bool_decide_eq_false_2 (x :: l = [])) by done. simpl.
        destruct st.2, E, (bool_decide (l = [])); done. }
  destruct (Hfold attributes (true, false)) as [H1 H2]. cbv zeta in H1, H2.
  destruct (fold_left _ attributes (true, false)) as [be sb]. simpl in H1, H2.
  subst be. destruct F eqn:HF.
  - rewrite (H2 eq_refl), orb_true_r. simpl.
    destruct attributes; [done|]. by rewrite bool_decide_eq_false_2.
  - rewrite orb_false_r. case_bool_decide as Hnil; [|done].
    subst attributes. done.
Qed.

Lemma number_ltb (v u : spec_float) :
  is_nan v = false → is_nan u = false →
  SFltb (Js.Number (Some v)) (Js.Number (Some u))
  = SFltb (Js.or_zero (Some v)) (Js.or_zero (Some u)).
Proof. intros. by rewrite or_zero_ltb. Qed.

Lemma is_dominator_dominates (data : list DataPoint) attributes p s :
  complete data attributes → p ∈ data → s ∈ data →
  TabularView.is_dominator attributes p s = dominates s p attributes.
Proof.
  intros Hc Hp Hs. rewrite is_dominator_spec, dominates_spec.
  unfold Js.lt, Js.gt, cpu_val.
  f_equal; [apply forallb_ext_elem|apply existsb_ext_elem]; intros attr Hattr;
    destruct (Hc p attr Hp Hattr) as (vp & -> & Hnp);
    destruct (Hc s attr Hs Hattr) as (vs & -> & Hns);
    by rewrite number_ltb.
Qed.

(** X29: a search that finds a record outside the skyline lists its
    dominators, and the list is never empty.  When ids are unique,
    every record has a number that is not NaN for every attribute, and
    the result on display is the serial backend's for this data and
    these attributes, the search sets the status [dominated] and the
    ids of exactly the skyline records that dominate the found record,
    of which there is at least one. *)
Theorem search_lists_dominators (name_includes : string → string → bool)
    (now : nat → Js.number) (searchTerm : string) (data : list DataPoint)
    (attributes : list AttributeConfig) (foundPoint : DataPoint) :
  unique_ids data → complete data attributes →
  searchTerm ≠ EmptyString →
  List.find (λ p, name_includes (name p) searchTerm) data = Some foundPoint →
  id foundPoint ∉ skylineIds (computeSkylineCPU now data attributes) →
  ∃ ids,
    TabularView.search name_includes searchTerm data
      (computeSkylineCPU now data attributes) attributes
      = (TabularView.dominated, Some ids) ∧
    ids ≠ [] ∧
    ∀ k, k ∈ ids ↔
         ∃ s, s ∈ data ∧ id s = k ∧
              k ∈ skylineIds (computeSkylineCPU now data attributes) ∧
              dominates s foundPoint attributes = true.
Proof.
  intros Hu Hc Hterm Hfind Hsky.
  pose proof (find_some _ _ Hfind) as [Hin%list_elem_of_In _].
  unfold TabularView.search.
  rewrite (proj2 (String.eqb_neq _ _) Hterm), Hfind.
  rewrite bool_decide_eq_false_2 by done.
  eexists. split; [reflexivity|].
  assert (Hiff : ∀ k,
    k ∈ id <$> filter (λ sPoint, TabularView.is_dominator attributes foundPoint sPoint)
                      (TabularView.skylinePoints data
                         (computeSkylineCPU now data attributes))
    ↔ ∃ s, s ∈ data ∧ id s = k ∧
           k ∈ skylineIds (computeSkylineCPU now data attributes) ∧
           dominates s foundPoint attributes = true).
  { intros k. rewrite list_elem_of_fmap. unfold TabularView.skylinePoints. split.
    - intros (s & -> & [Hd [Hs Hsd]%list_elem_of_filter]%list_elem_of_filter).
      exists s. split_and!; try done.
      rewrite <- (is_dominator_dominates data) by done. by apply Is_true_true.
    - intros (s & Hs & <- & Hk & Hd). exists s. split; [done|].
      apply list_elem_of_filter. split; [|by apply list_elem_of_filter].
      rewrite (is_dominator_dominates data) by done. by rewrite Hd. }
  split; [|done].
  destruct (cpu_skyline_cover now data attributes foundPoint Hin)
    as [?|(q & Hq & Hqs & Hqd)]; [done|].
  intros Hnil. assert (Hk : id q ∈ @nil string); [|by apply elem_of_nil in Hk].
  rewrite <- Hnil. apply Hiff. by exists q.
Qed.

Lemma search_lists_dominators_witness :
  ∃ ids,
    TabularView.search String.eqb "C" example_data
      (computeSkylineCPU clock0 example_data example_attrs) example_attrs
      = (TabularView.dominated, Some ids) ∧
    ids ≠ [] ∧
    ∀ k, k ∈ ids ↔
         ∃ s, s ∈ example_data ∧ id s = k ∧
              k ∈ skylineIds (computeSkylineCPU clock0 example_data example_attrs) ∧
              dominates s (player "C" 70 70) example_attrs = true.
Proof.
  assert (Hterm : "C" ≠ EmptyString) by discriminate.
  assert (Hsky : id (player "C" 70 70)
                 ∉ skylineIds (computeSkylineCPU clock0 example_data example_attrs)).
  { apply (bool_decide_unpack _). vm_compute. exact I. }
  exact (search_lists_dominators String.eqb clock0 "C" example_data example_attrs
           (player "C" 70 70) example_unique example_complete Hterm eq_refl Hsky).
Defined.

Lemma decisive_pair_elem target allPoints attributes i j x :
  x ∈ TabularView.decisive_pair target allPoints attributes i j ↔
  x = (i, j) ∧
  ∃ attrA attrB, attributes !! i = Some attrA ∧ attributes !! j = Some attrB ∧
    ∀ other, other ∈ allPoints →
      TabularView.dominates_in_subspace target attrA attrB other = false.
Proof.
  unfold TabularView.decisive_pair.
  destruct (attributes !! i) as [attrA|] eqn:Hi;
    [destruct (attributes !! j) as [attrB|] eqn:Hj|].
  - destruct (existsb _ allPoints) eqn:E; simpl.
    + split; [by intros ?%elem_of_nil|]. intros (_ & a & b & [= <-] & [= <-] & Hall).
      apply existsb_exists in E as (other & Hin%list_elem_of_In & Hd).
      by rewrite Hall in Hd.
    + rewrite list_elem_of_singleton. split.
      * intros ->. split; [done|]. exists attrA, attrB. split_and!; try done.
        intros other Hin.
        destruct (TabularView.dominates_in_subspace target attrA attrB other) eqn:Hd;
          [|done].
        assert (existsb (TabularView.dominates_in_subspace target attrA attrB)
                  allPoints = true); [|congruence].
        apply existsb_exists. exists other. split; [by apply list_elem_of_In|done].
      * by intros [-> _].
  - split; [by intros ?%elem_of_nil|]. by intros (_ & a & b & _ & ? & _).
  - split; [by intros ?%elem_of_nil|]. by intros (_ & a & b & ? & _).
Qed.

Lemma decisive_all_elem target allPoints attributes x :
  x ∈ flat_map (λ i,
         flat_map (TabularView.decisive_pair target allPoints attributes i)
                  (seq (i + 1) (length attributes - (i + 1))))
         (seq 0 (length attributes)) ↔
  ∃ i j, x = (i, j) ∧ (i < j)%nat ∧
    ∃ attrA attrB, attributes !! i = Some attrA ∧ attributes !! j = Some attrB ∧
      ∀ other, other ∈ allPoints →
        TabularView.dominates_in_subspace target attrA attrB other = false.
Proof.
  rewrite list_elem_of_In, in_flat_map. split.
  - intros (i & Hi%list_elem_of_In%elem_of_seq & Hx).
    apply in_flat_map in Hx as (j & Hj%list_elem_of_In%elem_of_seq & Hx).
    apply list_elem_of_In, decisive_pair_elem in Hx as [-> H].
    exists i, j. split; [done|]. split; [lia|done].
  - intros (i & j & -> & Hij & attrA & attrB & Hi & Hj & Hall).
    pose proof (lookup_lt_Some _ _ _ Hi). pose proof (lookup_lt_Some _ _ _ Hj).
    exists i. split; [apply list_elem_of_In, elem_of_seq; lia|].
    apply in_flat_map. exists j. split; [apply list_elem_of_In, elem_of_seq; lia|].
    apply list_elem_of_In, decisive_pair_elem. split; [done|]. by exists attrA, attrB.
Qed.

(** X30: [getDecisiveSubspaces] returns at most five pairs; each is a
    pair (i, j) of attribute indices with i < j in whose 2-D subspace no
    record with another id is at least as good as the target on both
    attributes and better on one; and when it returns fewer than five
    pairs it returns every such pair. *)
Theorem decisive_subspaces_spec (target : DataPoint) (allPoints : list DataPoint)
    (attributes : list AttributeConfig) :
  (length (TabularView.getDecisiveSubspaces target allPoints attributes) ≤ 5)%nat ∧
  (∀ i j, (i, j) ∈ TabularView.getDecisiveSubspaces target allPoints attributes →
     (i < j < length attributes)%nat ∧
     ∃ attrA attrB,
       attributes !! i = Some attrA ∧ attributes !! j = Some attrB ∧
       ∀ other, other ∈ allPoints →
         TabularView.dominates_in_subspace target attrA attrB other = false) ∧
  ((length (TabularView.getDecisiveSubspaces target allPoints attributes) < 5)%nat →
   ∀ i j attrA attrB,
     (i < j)%nat → attributes !! i = Some attrA → attributes !! j = Some attrB →
     (∀ other, other ∈ allPoints →
        TabularView.dominates_in_subspace target attrA attrB other = false) →
     (i, j) ∈ TabularView.getDecisiveSubspaces target allPoints attributes).
Proof.
  unfold TabularView.getDecisiveSubspaces. cbv zeta.
  set (decisiveIndices := flat_map _ (seq 0 (length attributes))).
  split_and!.
  - rewrite length_take. lia.
  - intros i j Hin.
    assert (Hall : (i, j) ∈ decisiveIndices).
    { eapply elem_of_sublist; [exact Hin|apply sublist_take]. }
    apply decisive_all_elem in Hall as (i' & j' & [= <- <-] & Hij & a & b & Hi & Hj & H).
    split; [|by exists a, b]. apply lookup_lt_Some in Hj. lia.
  - intros Hlen i j attrA attrB Hij Hi Hj Hall.
    rewrite length_take in Hlen. rewrite take_ge by lia.
    apply decisive_all_elem. exists i, j. split; [done|]. split; [done|].
    by exists attrA, attrB.
Qed.

(* ===================================================================== *)
(** ** The id [__proto__]                                                 *)
(* ===================================================================== *)

Lemma decode_keys data res ixs k (sky sky' : gset string)
    (sc dby sc' dby' : gmap string Z) :
  fold_left (decode_step data res) ixs (sky, sc, dby) = (sky', sc', dby') →
  (is_Some (sc' !! k) ↔
   is_Some (sc !! k) ∨
   (k ≠ PROTO ∧ ∃ i a, i ∈ ixs ∧ data !! i = Some a ∧ id a = k)) ∧
  (is_Some (dby' !! k) ↔
   is_Some (dby !! k) ∨
   (k ≠ PROTO ∧ ∃ i a, i ∈ ixs ∧ data !! i = Some a ∧ id a = k)).
Proof.
  revert sky sc dby. induction ixs as [|i ixs IH]; intros sky sc dby.
  - intros [= <- <- <-].
    split; (split; [intros ?; by left|]); intros [?|(_ & i & a & Hi & _)];
      try done; by apply elem_of_nil in Hi.
  - cbn [fold_left]. destruct (data !! i) as [a|] eqn:Ha.
    + rewrite (decode_step_spec _ _ _ _ _ _ _ Ha). intros Hf.
      apply IH in Hf as [H1 H2]. rewrite H1, H2, !lookup_assign. clear H1 H2.
      assert (Hex : (∃ i' a', i' ∈ i :: ixs ∧ data !! i' = Some a' ∧ id a' = k)
                    ↔ id a = k ∨ ∃ i' a', i' ∈ ixs ∧ data !! i' = Some a' ∧ id a' = k).
      { split.
        - intros (i' & a' & [->|Hi']%elem_of_cons & Ha' & Hid);
            [left; congruence|right; eauto].
        - intros [Hid|(i' & a' & Hi' & Ha' & Hid)];
            [exists i, a|exists i', a']; split_and!; try done; [by left|by right]. }
      rewrite Hex. destruct (decide (id a = k ∧ k ≠ PROTO)) as [[Hid Hp]|Hn].
      * split; (split; intros _; [right; tauto|left; by eexists]).
      * tauto.
    + unfold decode_step at 2. rewrite Ha. intros Hf.
      apply IH in Hf as [-> ->].
      assert (Hex : (∃ i' a', i' ∈ i :: ixs ∧ data !! i' = Some a' ∧ id a' = k)
                    ↔ ∃ i' a', i' ∈ ixs ∧ data !! i' = Some a' ∧ id a' = k).
      { split.
        - intros (i' & a' & [->|Hi']%elem_of_cons & Ha' & Hid);
            [congruence|eauto].
        - intros (i' & a' & Hi' & Ha' & Hid). exists i', a'.
          split_and!; try done. by right. }
      by rewrite Hex.
Qed.

Lemma result_of_keys env data res :
  dom (dominanceScores (result_of env data res))
    = (list_to_set (id <$> data) ∖ {[PROTO]} : gset string) ∧
  dom (dominatedBy (result_of env data res))
    = (list_to_set (id <$> data) ∖ {[PROTO]} : gset string).
Proof.
  unfold result_of, decode.
  destruct (fold_left _ _ _) as [[sky sc] dby] eqn:Hf. simpl.
  assert (Hk : ∀ k, (∃ i a, i ∈ seq 0 (length data) ∧ data !! i = Some a ∧ id a = k)
                    ↔ k ∈ id <$> data).
  { intros k. rewrite list_elem_of_fmap. split.
    - intros (i & a & _ & Ha & <-). exists a. split; [done|].
      by eapply list_elem_of_lookup_2.
    - intros (a & -> & [i Ha]%list_elem_of_lookup). exists i, a.
      split_and!; try done. apply elem_of_seq. apply lookup_lt_Some in Ha. lia. }
  split; apply set_eq; intros k;
    rewrite elem_of_dom, elem_of_difference, elem_of_list_to_set, elem_of_singleton;
    [rewrite (proj1 (decode_keys _ _ _ k _ _ _ _ _ _ Hf))
    |rewrite (proj2 (decode_keys _ _ _ k _ _ _ _ _ _ Hf))];
    rewrite lookup_empty, Hk;
    (split; [intros [[x Hx]|[? ?]]; [discriminate|done]|intros [? ?]; by right]).
Qed.

(** X31: no count is ever stored under [__proto__].  The keys of
    dominanceScores and of dominatedBy in the serial backend's result
    are exactly the ids of the input records other than [__proto__], and
    so are the keys in a result of the parallel backend on a non-empty
    attribute list; a read of either object under [__proto__] finds
    [Object.prototype], which is neither a number nor [undefined]. *)
Theorem no_count_under_proto (now : nat → Js.number) (env : Env)
    (data : list DataPoint) (attrs : list AttributeConfig) (w : World) :
  (dom (dominanceScores (computeSkylineCPU now data attrs))
     = (list_to_set (id <$> data) ∖ {[PROTO]} : gset string) ∧
   dom (dominatedBy (computeSkylineCPU now data attrs))
     = (list_to_set (id <$> data) ∖ {[PROTO]} : gset string) ∧
   read (dominanceScores (computeSkylineCPU now data attrs)) PROTO = VInherited ∧
   read (dominatedBy (computeSkylineCPU now data attrs)) PROTO = VInherited) ∧
  (wf_world w → attrs ≠ [] →
   ∀ r w', computeSkylineWebGPU env data attrs w = (inr r, w') →
     dom (dominanceScores r)
       = (list_to_set (id <$> data) ∖ {[PROTO]} : gset string) ∧
     dom (dominatedBy r)
       = (list_to_set (id <$> data) ∖ {[PROTO]} : gset string) ∧
     read (dominanceScores r) PROTO = VInherited ∧
     read (dominatedBy r) PROTO = VInherited).
Proof.
  split.
  - destruct (result_keys now data attrs) as (-> & -> & _).
    destruct (cpu_proto now data attrs) as [Hs Hd].
    unfold read. rewrite Hs, Hd. done.
  - intros Hwf Hne r w' Hrun.
    destruct (gpu_proto _ _ _ _ _ _ Hwf Hrun) as [Hs Hd].
    unfold read. rewrite Hs, Hd.
    destruct (gpu_returns_cases _ _ _ _ _ _ Hwf Hrun)
      as [[[->|?] ->]|(_ & _ & _ & d & rbuf & rb & -> & _)]; [|done|].
    + simpl. rewrite !dom_empty_L. split_and!; try done; set_solver.
    + destruct (result_of_keys env data (readback_words data attrs d rbuf rb))
        as [-> ->]. done.
Qed.

Lemma no_count_under_proto_witness :
  dom (dominanceScores (computeSkylineCPU clock0 proto_data close_attrs))
    = ({["B"]} : gset string) ∧
  read (dominatedBy (computeSkylineCPU clock0 proto_data close_attrs)) PROTO
    = VInherited ∧
  "__proto__" ∈ skylineIds (computeSkylineCPU clock0 proto_data close_attrs).
Proof.
  destruct (proj1 (no_count_under_proto clock0 env_ok proto_data close_attrs world0))
    as (Hdom & _ & _ & Hread).
  split; [rewrite Hdom; vm_compute; reflexivity|].
  split; [exact Hread|]. vm_compute. reflexivity.
Defined.
